(** * typed-json-transform: the keypath diff / patch engine of [src/diff.ts]

    A shallow embedding of the document model and of the functions of
    [diff.ts] ([forwardDiffToModifier], [shouldSet], [shouldUnset],
    [diffToModifier], [modifierToObj], [objToModifier], [apply], [$set],
    [$addToSet], [$unset], [update], [mapModifierToKey]), together with
    the helpers that [diff.ts] imports from [./check], [./containers] and
    [./keypath].  Those three modules are not part of the sources at hand;
    their functions are modelled from the written specification and are
    marked as such. *)

From Stdlib Require Import String Ascii List ZArith Bool Arith Lia DecimalString.
Import ListNotations.
Open Scope string_scope.
Open Scope list_scope.

(* ===================================================================== *)
(** * JavaScript values *)
(* ===================================================================== *)

(** Documents are dynamically typed trees.  Numbers are modelled by
    integers, dates by their instant ([getTime]), objects by association
    lists in insertion order (property names are unique in a well-formed
    object, see [wf]).  A modifier is an ordinary object with the optional
    properties [$set] and [$unset], exactly as in [diff.ts]. *)
Unset Elimination Schemes.
Inductive value : Type :=
| VUndefined
| VNull
| VBool (b : bool)
| VNum (n : Z)
| VStr (s : string)
| VDate (t : Z)
| VArr (elems : list value)
| VObj (props : list (string * value)).
Set Elimination Schemes.

Inductive error : Type :=
| TypeError (msg : string)
| Error (msg : string).

Inductive result (A : Type) : Type :=
| Ok (a : A)
| Throw (e : error).
Arguments Ok {A} a.
Arguments Throw {A} e.

Definition bind {A B} (r : result A) (k : A -> result B) : result B :=
  match r with
  | Ok a => k a
  | Throw e => Throw e
  end.

Notation "x <- r ;; k" := (bind r (fun x => k))
  (at level 61, r at next level, right associativity).

Module JS.

(** [if (v)]: the values that are not falsy. *)
Definition truthy (v : value) : bool :=
  match v with
  | VUndefined | VNull => false
  | VBool b => b
  | VNum n => negb (n =? 0)%Z
  | VStr s => negb (s =? "")
  | VDate _ | VArr _ | VObj _ => true
  end.

(** [typeof v === 'object']; it holds of [null]. *)
Definition typeof_object (v : value) : bool :=
  match v with
  | VNull | VDate _ | VArr _ | VObj _ => true
  | _ => false
  end.

(** [v !== null]. *)
Definition not_null (v : value) : bool :=
  match v with
  | VNull => false
  | _ => true
  end.

Definition isArray (v : value) : bool :=
  match v with VArr _ => true | _ => false end.

Definition instanceof_Date (v : value) : bool :=
  match v with VDate _ => true | _ => false end.

(** [a === b] when one side is a primitive: same type and same value.
    Objects, arrays and dates are compared by identity in JavaScript;
    the embedding has no identities, and [diff.ts] only uses [!==] with a
    primitive on the left, so the object cases answer [false]. *)
Definition strict_eq (a b : value) : bool :=
  match a, b with
  | VUndefined, VUndefined => true
  | VNull, VNull => true
  | VBool x, VBool y => Bool.eqb x y
  | VNum x, VNum y => (x =? y)%Z
  | VStr x, VStr y => (x =? y)
  | _, _ => false
  end.

Definition index_name (i : nat) : string :=
  NilZero.string_of_uint (Nat.to_uint i).

(** [Object.keys(v)]: own enumerable property names; a [TypeError] on
    [undefined] and [null], the indices of an array or of a string, and
    nothing for numbers, booleans and dates. *)
Definition Object_keys (v : value) : result (list string) :=
  match v with
  | VUndefined | VNull =>
      Throw (TypeError "Cannot convert undefined or null to object")
  | VObj props => Ok (map fst props)
  | VArr elems => Ok (map index_name (seq 0 (List.length elems)))
  | VStr s => Ok (map index_name (seq 0 (String.length s)))
  | VBool _ | VNum _ | VDate _ => Ok []
  end.

(** Association lists as property tables. *)
Fixpoint lookup (k : string) (props : list (string * value)) : option value :=
  match props with
  | [] => None
  | (k', v) :: rest => if k =? k' then Some v else lookup k rest
  end.

(** [obj[k] = v]: overwrite in place, or append a new property. *)
Fixpoint assign (k : string) (v : value) (props : list (string * value))
  : list (string * value) :=
  match props with
  | [] => [(k, v)]
  | (k', v') :: rest =>
      if k =? k' then (k, v) :: rest else (k', v') :: assign k v rest
  end.

(** [delete obj[k]]. *)
Fixpoint delete (k : string) (props : list (string * value))
  : list (string * value) :=
  match props with
  | [] => []
  | (k', v') :: rest =>
      if k =? k' then delete k rest else (k', v') :: delete k rest
  end.

(** The own enumerable properties of a value, in the order in which
    [Object.keys] lists them: the properties of an object, the elements of
    an array and the characters of a string under their indices. *)
Definition own_properties (v : value) : list (string * value) :=
  match v with
  | VObj props => props
  | VArr elems => combine (map index_name (seq 0 (List.length elems))) elems
  | VStr s =>
      combine (map index_name (seq 0 (String.length s)))
              (map (fun c => VStr (String c EmptyString)) (list_ascii_of_string s))
  | _ => []
  end.

(** [v[k]] where [v] is neither [undefined] nor [null]: the own property
    of that name, [undefined] when there is none.  Inherited members
    (methods, [length]) are functions or bookkeeping of the host objects
    and are outside the document model. *)
Definition own_prop (v : value) (k : string) : value :=
  match lookup k (own_properties v) with
  | Some c => c
  | None => VUndefined
  end.

(** [v[k]] read on a value: [TypeError] on [undefined] and [null]. *)
Definition get_prop (v : value) (k : string) : result value :=
  match v with
  | VUndefined | VNull =>
      Throw (TypeError "Cannot read properties of undefined")
  | _ => Ok (own_prop v k)
  end.

(** [v.k] where [v] is known not to be [undefined] or [null]. *)
Definition field (v : value) (k : string) : value :=
  match v with
  | VObj props => match lookup k props with Some c => c | None => VUndefined end
  | _ => VUndefined
  end.

(** [a || b]. *)
Definition or_else (a b : value) : value := if truthy a then a else b.

End JS.

(* ===================================================================== *)
(** * [./check] *)
(* ===================================================================== *)

Module Check.

(** Modelled from the spec: [check(value, Number)] of the missing module
    [./check]; the spec calls a value "numeric" when it is a number (and
    "not merely value-equal", so a numeric string is not). *)
Definition check_Number (v : value) : bool :=
  match v with VNum _ => true | _ => false end.

End Check.

(* ===================================================================== *)
(** * [./keypath] *)
(* ===================================================================== *)

Module Keypath.
Import JS.

Definition is_dot (c : ascii) : bool := (c =? ".")%char.

(** [s.split('.')]. *)
Fixpoint split (s : string) : list string :=
  match s with
  | EmptyString => [EmptyString]
  | String c rest =>
      if is_dot c then EmptyString :: split rest
      else match split rest with
           | [] => [String c EmptyString]
           | seg :: segs => String c seg :: segs
           end
  end.

(** [`${parent}.${el}`]. *)
Definition join (parent el : string) : string :=
  (parent ++ "." ++ el)%string.

Definition is_digit (c : ascii) : bool :=
  let n := nat_of_ascii c in ((48 <=? n) && (n <=? 57))%nat.

Fixpoint digits_value (s : string) (acc : nat) : option nat :=
  match s with
  | EmptyString => Some acc
  | String c rest =>
      if is_digit c then digits_value rest (10 * acc + (nat_of_ascii c - 48))
      else None
  end.

(** Modelled from the spec: "numeric segments address array indices"; a
    segment is numeric when it is a non-empty run of decimal digits. *)
Definition index_of_segment (seg : string) : option nat :=
  match seg with
  | EmptyString => None
  | _ => digits_value seg 0
  end.

Definition is_container (v : value) : bool :=
  match v with VArr _ | VObj _ => true | _ => false end.

(** The child of a node under one segment, when there is one. *)
Definition child (seg : string) (v : value) : option value :=
  match v with
  | VObj props => lookup seg props
  | VArr elems =>
      match index_of_segment seg with
      | Some i => nth_error elems i
      | None => None
      end
  | _ => None
  end.

Fixpoint get_segs (segs : list string) (v : value) : value :=
  match segs with
  | [] => v
  | seg :: rest =>
      match child seg v with
      | Some c => get_segs rest c
      | None => VUndefined
      end
  end.

(** Modelled from the spec: [valueForKeyPath(keypath, doc)] of the missing
    module [./keypath]: "walks segments; returns the sentinel absent value
    if any intermediate segment is missing, rather than failing". *)
Definition valueForKeyPath (keyPath : string) (input : value) : value :=
  get_segs (split keyPath) input.

(** [arr[i] = v], extending the array with holes when [i] is past its end. *)
Fixpoint store_index (i : nat) (v : value) (elems : list value) : list value :=
  match i, elems with
  | O, [] => [v]
  | O, _ :: rest => v :: rest
  | S j, [] => VUndefined :: store_index j v []
  | S j, e :: rest => e :: store_index j v rest
  end.

Definition put_child (seg : string) (c : value) (v : value) : value :=
  match v with
  | VObj props => VObj (assign seg c props)
  | VArr elems =>
      match index_of_segment seg with
      | Some i => VArr (store_index i c elems)
      | None => v
      end
  | _ => v
  end.

(** [delete arr[i]]: the element is removed in place, the elements after
    it keep their indices; the hole reads [undefined]. *)
Fixpoint remove_index (i : nat) (elems : list value) : list value :=
  match i, elems with
  | _, [] => []
  | O, _ :: rest => VUndefined :: rest
  | S j, e :: rest => e :: remove_index j rest
  end.

Definition drop_child (seg : string) (v : value) : value :=
  match v with
  | VObj props => VObj (delete seg props)
  | VArr elems =>
      match index_of_segment seg with
      | Some i => VArr (remove_index i elems)
      | None => v
      end
  | _ => v
  end.

Fixpoint set_segs (val : value) (segs : list string) (cur : value) : value :=
  match segs with
  | [] => cur
  | seg :: rest =>
      match rest with
      | [] =>
          match val with
          | VUndefined => drop_child seg cur
          | _ => put_child seg val cur
          end
      | _ :: _ =>
          let next :=
            match child seg cur with
            | Some c => if is_container c then c else VObj []
            | None => VObj []
            end in
          put_child seg (set_segs val rest next) cur
      end
  end.

(** Modelled from the spec: [setValueForKeyPath(value, keypath, doc)] of the
    missing module [./keypath]: "walks/creates intermediate mapping nodes
    as needed (never creates array nodes implicitly - only mapping nodes)
    and assigns the leaf"; an [undefined] value "behaves as a removal".
    The mutated document is returned. *)
Definition setValueForKeyPath (val : value) (keyPath : string) (input : value)
  : value :=
  set_segs val (split keyPath) input.

Fixpoint unset_segs (segs : list string) (cur : value) : value * bool :=
  match segs with
  | [] => (cur, false)
  | seg :: rest =>
      match child seg cur with
      | None => (cur, false)
      | Some c =>
          match rest with
          | [] => (drop_child seg cur, true)
          | _ :: _ =>
              let (c', changed) := unset_segs rest c in
              (if changed then put_child seg c' cur else cur, changed)
          end
      end
  end.

(** Modelled from the spec: [unsetKeyPath(keypath, doc)] of the missing
    module [./keypath]: "removes the leaf at the path; returns whether
    removal actually changed the document (path existed)".  The spec says
    no more about an element of a sequence: it is removed in place, which
    keeps the other leaves of the document where they are.  The mutated
    document is returned with the flag. *)
Definition unsetKeyPath (keyPath : string) (obj : value) : value * bool :=
  unset_segs (split keyPath) obj.

Definition list_eqb (a b : list string) : bool :=
  if list_eq_dec string_dec a b then true else false.

Fixpoint is_prefix (p q : list string) : bool :=
  match p, q with
  | [], _ => true
  | _ :: _, [] => false
  | x :: p', y :: q' => (x =? y) && is_prefix p' q'
  end.

(** Modelled from the spec: [_keyPathContainsPath(keyPath, path)] of the
    missing module [./keypath], the strict variant used by the subsumption
    step ("for every pair of recorded unset paths with a <> b", an
    "ancestor removal subsumes descendants"): [keyPath] lies strictly below
    [path], that is, the segments of [path] are a proper prefix of the
    segments of [keyPath]. *)
Definition _keyPathContainsPath (keyPath path : string) : bool :=
  let p := split keyPath in
  let t := split path in
  (List.length t <? List.length p)%nat && is_prefix t p.

(** Modelled from the spec: [keyPathContainsPath(keyPath, ignorePath)] of
    the missing module [./keypath]: the non-strict variant, a path "is, or
    is a descendant of" the other. *)
Definition keyPathContainsPath (keyPath ignorePath : string) : bool :=
  (keyPath =? ignorePath) || _keyPathContainsPath keyPath ignorePath.

(** Modelled from the spec: [filteredKeyPaths(paths, ignore)] of the missing
    module [./keypath]: "removes any path that is, or is a descendant of,
    any path in ignore". *)
Definition filteredKeyPaths (_keyPaths ignore : list string) : list string :=
  filter (fun keyPath =>
            negb (existsb (fun ignorePath => keyPathContainsPath keyPath ignorePath)
                          ignore))
         _keyPaths.

Definition child_path (parent : option string) (el : string) : string :=
  match parent with
  | Some p => join p el
  | None => el
  end.

(** Modelled from the spec: [keyPaths(doc, options)] of the missing module
    [./keypath]: "every leaf keypath reachable from doc, in document
    traversal order (depth-first, keys in iteration order)"; with
    [allLevels], "intermediate (branch) paths are included as well";
    "traversal does not descend into arrays or into dates".  A leaf is "a
    keypath whose value is a primitive, date, or sequence". *)
Fixpoint keyPaths_in (allLevels : bool) (parent : option string) (v : value)
  {struct v} : list string :=
  match v with
  | VObj props =>
      (fix walk (l : list (string * value)) : list string :=
         match l with
         | [] => []
         | (el, c) :: rest =>
             let p := child_path parent el in
             match c with
             | VObj _ =>
                 (if allLevels then [p] else [])
                   ++ keyPaths_in allLevels (Some p) c ++ walk rest
             | _ => p :: walk rest
             end
         end) props
  | _ => []
  end.

Definition keyPaths (obj : value) (allLevels : bool) : list string :=
  keyPaths_in allLevels None obj.

End Keypath.

(* ===================================================================== *)
(** * [./containers] *)
(* ===================================================================== *)

Module Containers.
Import JS.

(** Modelled from the spec: [isEqual(actual, expected)] of the missing
    module [./containers], "deeply structurally equal": sequences element
    by element, mappings property by property whatever the order of
    their keys, dates by their instant, primitives by value. *)
Fixpoint isEqual (actual expected : value) {struct actual} : bool :=
  match actual, expected with
  | VUndefined, VUndefined => true
  | VNull, VNull => true
  | VBool x, VBool y => Bool.eqb x y
  | VNum x, VNum y => (x =? y)%Z
  | VStr x, VStr y => (x =? y)
  | VDate x, VDate y => (x =? y)%Z
  | VArr xs, VArr ys =>
      (fix all2 (l : list value) (r : list value) : bool :=
         match l, r with
         | [], [] => true
         | x :: l', y :: r' => isEqual x y && all2 l' r'
         | _, _ => false
         end) xs ys
  | VObj ps, VObj qs =>
      (List.length ps =? List.length qs)%nat
      && (fix all (l : list (string * value)) : bool :=
            match l with
            | [] => true
            | (k, x) :: l' =>
                match lookup k qs with
                | Some y => isEqual x y
                | None => false
                end && all l'
            end) ps
  | _, _ => false
  end.

(** Modelled from the spec: [clone(input)] of the missing module
    [./containers], a deep copy; values of the embedding carry no
    identity, so the copy is the value itself. *)
Definition clone (input : value) : value := input.

Definition is_empty_container (v : value) : bool :=
  match v with
  | VObj [] | VArr [] => true
  | _ => false
  end.

(** Modelled from the spec: [prune(obj)] of the missing module
    [./containers]: "prune any resulting empty container branches",
    bottom-up through the mappings (sequences are atomic leaves). *)
Fixpoint prune (obj : value) : value :=
  match obj with
  | VObj props =>
      VObj ((fix go (l : list (string * value)) : list (string * value) :=
               match l with
               | [] => []
               | (k, c) :: rest =>
                   let c' := prune c in
                   if is_empty_container c' then go rest else (k, c') :: go rest
               end) props)
  | _ => obj
  end.

(** Modelled from the spec: the entries visited by [each(iter, fn)] of the
    missing module [./containers], in iteration order: the properties of a
    mapping, the elements of a sequence under their indices. *)
Definition entries (iter : value) : list (string * value) :=
  match iter with
  | VObj props => props
  | VArr elems => combine (map index_name (seq 0 (List.length elems))) elems
  | _ => []
  end.

(** Modelled from the spec: [difference(a, b)] of the missing module
    [./containers], the elements of [a] that are not in [b] ("any keypath
    present in prev but absent from doc's own keypath set"). *)
Definition difference (a b : list string) : list string :=
  filter (fun x => negb (existsb (String.eqb x) b)) a.

(** Modelled from the spec: [union(a, b)] of the missing module
    [./containers], the elements of either list, each of them once ("unioned
    with the caller's ignore list"). *)
Definition union (a b : list string) : list string :=
  nodup string_dec (a ++ b).

(** Modelled from the spec: [contains(set, match)] of the missing module
    [./containers]: some element of the sequence is "deeply structurally
    equal" to the item. *)
Definition contains (set : list value) (item : value) : bool :=
  existsb (fun x => isEqual x item) set.

End Containers.

(* ===================================================================== *)
(** * [diff.ts] *)
(* ===================================================================== *)

Module Diff.
Import JS Check Keypath Containers.

(** [fieldsToIgnore || []]. *)
Definition or_empty (fieldsToIgnore : option (list string)) : list string :=
  match fieldsToIgnore with
  | Some l => l
  | None => []
  end.

Definition getTime (v : value) : Z :=
  match v with VDate t => t | _ => 0%Z end.

(** [shouldSet(val, prev)], lines 41-53.  The function falls off its end
    (returns [undefined]) when no branch applies; the only caller tests
    the result, so that case is [false]. *)
Definition shouldSet (val prev : value) : bool :=
  if isArray val then negb (isEqual prev val)
  else if instanceof_Date val then
    negb (instanceof_Date prev) || negb (getTime val =? getTime prev)%Z
  else if check_Number val then
    negb (strict_eq prev val) || negb (check_Number prev)
  else if not_null val && typeof_object val then negb (isEqual prev val)
  else if truthy val then negb (strict_eq prev val)
  else false.

(** [shouldUnset(val, prev)], lines 55-65; [Object.keys(val)] throws when
    [val] is [undefined]. *)
Definition shouldUnset (val prev : value) : result bool :=
  if (truthy prev || check_Number prev) && negb (truthy val || check_Number val)
  then Ok true
  else if not_null val && typeof_object prev then
    keys <- Object_keys val ;;
    if (List.length keys =? 0)%nat then Ok true else Ok false
  else Ok false.

(** Lines 71-80: the forward pass, which fills [delta.$set]. *)
Definition forward_pass (prev doc : value) (ignore : list string)
  : list (string * value) :=
  fold_left
    (fun set keyPath =>
       let val := valueForKeyPath keyPath doc in
       if shouldSet val (valueForKeyPath keyPath prev)
       then assign keyPath val set else set)
    (filteredKeyPaths (keyPaths doc false) ignore) [].

(** Lines 82-89: the backward pass, which fills [delta.$unset]. *)
Fixpoint mark_unsets (prev doc : value) (paths : list string)
  (unset : list (string * value)) : result (list (string * value)) :=
  match paths with
  | [] => Ok unset
  | keyPath :: rest =>
      let curVal := valueForKeyPath keyPath doc in
      b <- shouldUnset curVal (valueForKeyPath keyPath prev) ;;
      mark_unsets prev doc rest
        (if b then assign keyPath (VBool true) unset else unset)
  end.

Definition backward_pass (prev doc : value) (ignore : list string)
  : result (list (string * value)) :=
  mark_unsets prev doc (filteredKeyPaths (keyPaths prev true) ignore) [].

(** Lines 90-98: the two nested loops over the snapshot [keys]. *)
Definition subsume (modifier : list (string * value)) : list (string * value) :=
  let keys := map fst modifier in
  fold_left
    (fun m pathA =>
       fold_left
         (fun m' pathB =>
            if _keyPathContainsPath pathA pathB then delete pathA m' else m')
         keys m)
    keys modifier.

(** One run of the body of [diffToModifier] up to line 106: the delta with
    its empty fields deleted, or [undefined] when nothing is left. *)
Definition diff_pass (prev doc : value) (ignore : list string) : result value :=
  let set := if truthy doc then forward_pass prev doc ignore else [] in
  unset <- (if truthy prev
            then u <- backward_pass prev doc ignore ;; Ok (subsume u)
            else Ok []) ;;
  let delta := [("$set", VObj set); ("$unset", VObj unset)] in
  let delta := if (List.length set =? 0)%nat then delete "$set" delta else delta in
  let delta := if (List.length unset =? 0)%nat then delete "$unset" delta else delta in
  if negb (List.length delta =? 0)%nat then Ok (VObj delta) else Ok VUndefined.

(** [diffToModifier(prev, doc, fieldsToIgnore, pruneEmptyObjects)], lines
    67-114.  In line 109 the second argument [(clone(prev), delta)] is a
    comma expression whose value is [delta]. *)
Definition diffToModifier (prev doc : value)
  (fieldsToIgnore : option (list string)) (pruneEmptyObjects : bool)
  : result value :=
  delta <- diff_pass prev doc (or_empty fieldsToIgnore) ;;
  if truthy delta then
    if pruneEmptyObjects then
      newDelta <- diff_pass prev delta (or_empty fieldsToIgnore) ;;
      Ok (or_else newDelta delta)
    else Ok delta
  else Ok VUndefined.

(** [forwardDiffToModifier(prev, doc, fieldsToIgnore)], lines 34-39; the
    flag [pruneEmptyObjects] is not passed on. *)
Definition forwardDiffToModifier (prev doc : value)
  (fieldsToIgnore : option (list string)) : result value :=
  let filteredKeys :=
    union (difference (keyPaths prev false) (keyPaths doc false))
          (or_empty fieldsToIgnore) in
  diffToModifier prev doc (Some filteredKeys) false.

(** [modifierToObj(modifier)], lines 116-128; the function falls off its
    end (returns [undefined]) when [modifier] is falsy. *)
Definition modifierToObj (modifier : value) : result value :=
  if truthy modifier then
    setPaths <- Object_keys (or_else (field modifier "$set") (VObj [])) ;;
    let obj :=
      fold_left
        (fun obj keyPath =>
           let val := own_prop (field modifier "$set") keyPath in
           setValueForKeyPath val keyPath obj)
        setPaths (VObj []) in
    unsetPaths <- Object_keys (or_else (field modifier "$unset") (VObj [])) ;;
    Ok (fold_left
          (fun obj keyPath => setValueForKeyPath VUndefined keyPath obj)
          unsetPaths obj)
  else Ok VUndefined.

(** [objToModifier(obj)], lines 130-132. *)
Definition objToModifier (obj : value) : result value :=
  diffToModifier VUndefined obj None false.

(** [$set(dest, source)], lines 149-161; the mutated [dest] is returned.
    After the recursive call on [source.$set] the function goes on to
    the [each] over [source] itself. *)
Fixpoint dollar_set (source : value) (dest : value) {struct source} : value :=
  if negb (truthy source) then dest
  else
    let dest1 :=
      if truthy (field source "$set") || truthy (field source "$unset") then
        match source with
        | VObj props =>
            (fix find (l : list (string * value)) : value :=
               match l with
               | [] => dest
               | (k, v) :: rest =>
                   if "$set" =? k then dollar_set v dest else find rest
               end) props
        | _ => dest
        end
      else dest in
    fold_left
      (fun d '(keyPath, val) =>
         if check_Number val || truthy val
         then setValueForKeyPath val keyPath d else d)
      (entries source) dest1.

(** [$addToSet(dest, src)], lines 163-171; the mutated [dest] is
    returned. *)
Definition dollar_addToSet (dest src : value) : result value :=
  match dest with
  | VArr elems =>
      if negb (contains elems src) then Ok (VArr (elems ++ [src])) else Ok dest
  | _ => Throw (Error "$addToSet, 1st arg not array")
  end.

(** [$unset(dest, source)], lines 173-181; the mutated [dest] is returned. *)
Fixpoint dollar_unset (source : value) (dest : value) {struct source} : value :=
  if negb (truthy source) then dest
  else
    let dest1 :=
      if truthy (field source "$unset") || truthy (field source "$set") then
        match source with
        | VObj props =>
            (fix find (l : list (string * value)) : value :=
               match l with
               | [] => dest
               | (k, v) :: rest =>
                   if "$unset" =? k then dollar_unset v dest else find rest
               end) props
        | _ => dest
        end
      else dest in
    fold_left
      (fun d '(keyPath, _) => fst (unsetKeyPath keyPath d))
      (entries source) dest1.

(** [apply(dest, source)], lines 134-147. *)
Definition apply (dest source : value) : result value :=
  if negb (truthy source) then Ok dest
  else if truthy (field source "$set") || truthy (field source "$unset") then
    Ok (prune (dollar_unset source (dollar_set source dest)))
  else
    modifier <- objToModifier source ;;
    Ok (prune (dollar_unset modifier (dollar_set modifier dest))).

(** The collaborators of [update].  [get] is the document returned by
    [options.get()] when that is a function.  A setter receives the
    mutated copy; it may also reach the model it was read from, so it is
    given both and returns what they hold afterwards (a setter that only
    stores its argument returns them unchanged). *)
Record Collection : Type := {
  findOne : value -> value
}.

Record UpdateOptions : Type := {
  get : option value;
  set : option (value -> value -> value * value);
  collection : option Collection;
  ignore : option (list string)
}.

(** The calls that [update] makes on its collaborators. *)
Inductive event : Type :=
| GetCalled
| FindOneCalled (query : value)
| SetCalled (copy : value)
| CollectionUpdate (query modifier : value).

(** Lines 184-189: the model, and the call that fetched it. *)
Definition fetch_model (doc : value) (options : UpdateOptions)
  : list event * value :=
  match get options with
  | Some m => ([GetCalled], m)
  | None =>
      if truthy (field doc "_id") then
        match collection options with
        | Some c =>
            let query := VObj [("_id", field doc "_id")] in
            ([FindOneCalled query], findOne c query)
        | None => ([], VUndefined)
        end
      else ([], VUndefined)
  end.

(** [update(doc, options)], lines 183-210: the calls made on the
    collaborators, in order, and the outcome. *)
Definition update (doc : value) (options : UpdateOptions)
  : list event * result value :=
  let (reads, model) := fetch_model doc options in
  if negb (truthy model)
  then (reads, Throw (Error "Diff: no doc to diff against"))
  else
    match diffToModifier model doc (ignore options) false with
    | Throw e => (reads, Throw e)
    | Ok diff =>
        if truthy diff then
          match set options, collection options with
          | None, None => (reads, Throw (Error "Diff: no setter provided"))
          | Some setter, _ =>
              match apply (clone model) diff with
              | Throw e => (reads, Throw e)
              | Ok copy =>
                  let (copy', model') := setter copy model in
                  if negb (isEqual copy' model')
                  then (reads ++ [SetCalled copy],
                        Throw (Error "Diff: not equal after update"))
                  else (reads ++ [SetCalled copy], Ok diff)
              end
          | None, Some _ =>
              (reads ++ [CollectionUpdate (VObj [("_id", field model "_id")])
                                          (VObj [("$set", diff)])], Ok diff)
          end
        else (reads, Ok diff)
    end.

(** [x == null]. *)
Definition is_nullish (v : value) : bool :=
  match v with VUndefined | VNull => true | _ => false end.

(** [valueModifier[f][path] = v], after [valueModifier[f] = {}] when the
    field is still nullish. *)
Definition store_in_field (f path : string) (v : value)
  (valueModifier : list (string * value)) : list (string * value) :=
  let vm :=
    if is_nullish (field (VObj valueModifier) f)
    then assign f (VObj []) valueModifier else valueModifier in
  assign f (put_child path v (field (VObj vm) f)) vm.

Fixpoint map_paths (from : value) (f key : string) (paths : list string)
  (valueModifier : list (string * value)) : result (list (string * value)) :=
  match paths with
  | [] => Ok valueModifier
  | keyPath :: rest =>
      v <- get_prop from keyPath ;;
      map_paths from f key rest (store_in_field f (join key keyPath) v valueModifier)
  end.

(** [mapModifierToKey(modifier, key)], lines 213-231.  Both loops read
    their values from [modifier.$set] (lines 222 and 228). *)
Definition mapModifierToKey (modifier : value) (key : string) : result value :=
  if negb (truthy modifier)
  then Throw (Error "called mapModifierToKey on undefined")
  else
    setPaths <- Object_keys (or_else (field modifier "$set") (VObj [])) ;;
    vm1 <- map_paths (field modifier "$set") "$set" key setPaths [] ;;
    unsetPaths <- Object_keys (or_else (field modifier "$unset") (VObj [])) ;;
    vm2 <- map_paths (field modifier "$set") "$unset" key unsetPaths vm1 ;;
    Ok (VObj vm2).

End Diff.

Import JS Check Keypath Containers Diff.

(* ===================================================================== *)
(** * Vocabulary of the statements *)
(* ===================================================================== *)

(** The paths recorded in the [$set] and in the [$unset] mapping of a
    modifier. *)
Definition set_paths (m : value) : list string :=
  map fst (entries (field m "$set")).

Definition unset_paths (m : value) : list string :=
  map fst (entries (field m "$unset")).

(** [a] is a descendant of [b] under the dot-segment grammar. *)
Definition is_descendant (a b : string) : Prop :=
  exists extra, extra <> [] /\ split a = split b ++ extra.

(** Sample documents. *)
Definition doc_a_1 : value := VObj [("a", VNum 1)].
Definition doc_a_0 : value := VObj [("a", VNum 0)].
Definition doc_a_false : value := VObj [("a", VBool false)].
Definition doc_a_null : value := VObj [("a", VNull)].
Definition doc_a_5 : value := VObj [("a", VNum 5)].
Definition doc_a_b1 : value := VObj [("a", VObj [("b", VNum 1)])].
Definition doc_empty : value := VObj [].
Definition doc_branch : value :=
  VObj [("a", VObj [("b", VNum 1); ("c", VNum 2)])].

(* ===================================================================== *)
(** * Association lists *)
(* ===================================================================== *)

Section PropertyTables.

Lemma lookup_assign_same k v props : lookup k (assign k v props) = Some v.
Proof.
  induction props as [|[k' v'] rest IH]; simpl.
  - now rewrite String.eqb_refl.
  - destruct (k =? k') eqn:E; simpl.
    + now rewrite String.eqb_refl.
    + now rewrite E.
Qed.

Lemma lookup_assign_other k k' v props :
  k' <> k -> lookup k' (assign k v props) = lookup k' props.
Proof.
  intros Hne.
  induction props as [|[k0 v0] rest IH]; simpl.
  - apply String.eqb_neq in Hne. now rewrite Hne.
  - destruct (k =? k0) eqn:E; simpl.
    + apply String.eqb_eq in E. subst k0.
      apply String.eqb_neq in Hne. now rewrite Hne.
    + destruct (k' =? k0); auto.
Qed.

Lemma lookup_delete_same k props : lookup k (delete k props) = None.
Proof.
  induction props as [|[k' v'] rest IH]; simpl; auto.
  destruct (k =? k') eqn:E; simpl; auto. now rewrite E.
Qed.

Lemma lookup_delete_other k k' props :
  k' <> k -> lookup k' (delete k props) = lookup k' props.
Proof.
  intros Hne.
  induction props as [|[k0 v0] rest IH]; simpl; auto.
  destruct (k =? k0) eqn:E; simpl.
  - apply String.eqb_eq in E. subst k0.
    apply String.eqb_neq in Hne. now rewrite Hne.
  - destruct (k' =? k0); auto.
Qed.

Lemma in_keys_delete a k props :
  In a (map fst (delete k props)) <-> a <> k /\ In a (map fst props).
Proof.
  induction props as [|[k0 v0] rest IH]; simpl.
  - tauto.
  - destruct (k =? k0) eqn:E; simpl.
    + apply String.eqb_eq in E. subst k0. rewrite IH.
      split; [tauto|]. intros [Hne [Heq|Hin]]; [congruence|tauto].
    + apply String.eqb_neq in E. rewrite IH.
      split; [intros [Heq|[Hne Hin]]|intros [Hne [Heq|Hin]]]; subst; auto.
Qed.

Lemma in_keys_assign a k v props :
  In a (map fst (assign k v props)) <-> a = k \/ In a (map fst props).
Proof.
  induction props as [|[k0 v0] rest IH]; simpl.
  - intuition.
  - destruct (k =? k0) eqn:E; simpl.
    + apply String.eqb_eq in E. subst k0. intuition.
    + rewrite IH. intuition.
Qed.

Lemma lookup_in_keys k props v :
  lookup k props = Some v -> In k (map fst props).
Proof.
  induction props as [|[k0 v0] rest IH]; simpl; [discriminate|].
  destruct (k =? k0) eqn:E.
  - apply String.eqb_eq in E. auto.
  - auto.
Qed.

Lemma lookup_none_not_in k props :
  lookup k props = None <-> ~ In k (map fst props).
Proof.
  induction props as [|[k0 v0] rest IH]; simpl; [tauto|].
  destruct (k =? k0) eqn:E.
  - apply String.eqb_eq in E. subst. split; [discriminate|tauto].
  - apply String.eqb_neq in E. rewrite IH. intuition.
Qed.

End PropertyTables.

(* ===================================================================== *)
(** * The subsumption step of [diffToModifier] *)
(* ===================================================================== *)

Section Subsumption.

Lemma is_prefix_app p q :
  is_prefix p q = true <-> exists extra, q = p ++ extra.
Proof.
  revert q. induction p as [|x p IH]; intros q; simpl.
  - split; eauto.
  - destruct q as [|y q].
    + split; [discriminate|]. intros [e He]. discriminate.
    + rewrite andb_true_iff, String.eqb_eq, IH. split.
      * intros [-> [e ->]]. eauto.
      * intros [e He]. injection He as -> ->. eauto.
Qed.

Lemma keyPathContainsPath_descendant a b :
  _keyPathContainsPath a b = true <-> is_descendant a b.
Proof.
  unfold _keyPathContainsPath, is_descendant.
  rewrite andb_true_iff, Nat.ltb_lt, is_prefix_app. split.
  - intros [Hlen [e He]]. exists e. split; auto.
    intros ->. rewrite He, app_nil_r in Hlen. lia.
  - intros [e [Hne He]]. split; eauto.
    rewrite He, length_app. destruct e; [congruence|simpl; lia].
Qed.

(** The inner loop deletes [pathA] as soon as one snapshot key contains
    it, and touches no other key. *)
Lemma inner_loop_keys pathA keys m a :
  In a (map fst
          (fold_left
             (fun m' pathB =>
                if _keyPathContainsPath pathA pathB then delete pathA m' else m')
             keys m)) <->
  In a (map fst m) /\
  (a = pathA -> forall b, In b keys -> _keyPathContainsPath pathA b = false).
Proof.
  revert m. induction keys as [|b0 keys IH]; intros m; simpl.
  - intuition.
  - rewrite IH. destruct (_keyPathContainsPath pathA b0) eqn:E.
    + rewrite in_keys_delete. split.
      * intros [[Hne Hin] H]. split; auto. intros ->. congruence.
      * intros [Hin H]. assert (Hne : a <> pathA).
        { intros ->. specialize (H eq_refl b0 (or_introl eq_refl)). congruence. }
        split; [split; assumption|]. intros ->. congruence.
    + split.
      * intros [Hin H]. split; auto. intros -> b [<-|Hb]; auto.
      * intros [Hin H]. split; auto.
Qed.

Lemma outer_loop_keys keys0 keys m a :
  In a (map fst
          (fold_left
             (fun m pathA =>
                fold_left
                  (fun m' pathB =>
                     if _keyPathContainsPath pathA pathB
                     then delete pathA m' else m')
                  keys0 m)
             keys m)) <->
  In a (map fst m) /\
  (In a keys -> forall b, In b keys0 -> _keyPathContainsPath a b = false).
Proof.
  revert m. induction keys as [|a0 keys IH]; intros m; simpl.
  - intuition.
  - rewrite IH, inner_loop_keys. split.
    + intros [[Hin H0] H]. split; auto. intros [->|Ha]; auto.
    + intros [Hin H]. repeat split; auto. intros ->. auto.
Qed.

(** What survives [subsume]: the recorded paths that lie below no
    recorded path. *)
Lemma subsume_keys m a :
  In a (map fst (subsume m)) <->
  In a (map fst m) /\
  forall b, In b (map fst m) -> _keyPathContainsPath a b = false.
Proof.
  unfold subsume. rewrite outer_loop_keys. intuition.
Qed.

Lemma subsume_antichain m a b :
  In a (map fst (subsume m)) -> In b (map fst (subsume m)) ->
  _keyPathContainsPath a b = false.
Proof.
  rewrite !subsume_keys. intros [_ Ha] [Hb _]. auto.
Qed.

(** Every run of the body of [diffToModifier] returns an [$unset] whose
    paths are pairwise unrelated. *)
Lemma diff_pass_antichain prev doc ignore m a b :
  diff_pass prev doc ignore = Ok m ->
  In a (unset_paths m) -> In b (unset_paths m) ->
  _keyPathContainsPath a b = false.
Proof.
  unfold diff_pass, unset_paths.
  destruct (truthy prev).
  - destruct (backward_pass prev doc ignore) as [u|e]; simpl; [|discriminate].
    set (set := if truthy doc then _ else _).
    destruct (length set =? 0)%nat, (length (subsume u) =? 0)%nat eqn:E;
      simpl; intros [= <-]; simpl; try tauto; apply subsume_antichain.
  - simpl. set (set := if truthy doc then _ else _).
    destruct (length set =? 0)%nat; simpl; intros [= <-]; simpl; tauto.
Qed.

End Subsumption.

(* ===================================================================== *)
(** * Worked runs of [diff.ts] *)
(* ===================================================================== *)

(** A setter that only stores the document it receives. *)
Definition store_only (copy model : value) : value * value := (copy, model).

Definition options_get_set (model : value) : UpdateOptions :=
  {| get := Some model; set := Some store_only; collection := None;
     ignore := None |}.

Definition model_a1 : value := VObj [("_id", VStr "1"); ("a", VNum 1)].
Definition doc_a2 : value := VObj [("_id", VStr "1"); ("a", VNum 2)].

(** C3.  [update] checks the mutated copy against [model] (line 202), not
    against [doc]: with the model [{_id: "1", a: 1}], the document
    [{_id: "1", a: 2}] and a setter that only stores, the copy handed to the
    setter is deeply equal to [doc], and [update] still fails with "not
    equal after update". *)
Theorem update_checks_copy_against_model :
  update doc_a2 (options_get_set model_a1)
  = ([GetCalled; SetCalled doc_a2],
     Throw (Error "Diff: not equal after update"))
  /\ isEqual doc_a2 doc_a2 = true
  /\ isEqual doc_a2 model_a1 = false.
Proof. repeat split. Qed.

(** C4.  [mapModifierToKey] reads the values of the prefixed [$unset]
    paths from [modifier.$set] (line 228): without a [$set] field the call
    fails with a [TypeError], and with one the prefixed path is mapped to
    [undefined], not to [true]. *)
Theorem mapModifierToKey_unset_reads_set :
  mapModifierToKey (VObj [("$unset", VObj [("a", VBool true)])]) "k"
  = Throw (TypeError "Cannot read properties of undefined")
  /\ mapModifierToKey
       (VObj [("$set", VObj [("b", VNum 1)]);
              ("$unset", VObj [("a", VBool true)])]) "k"
     = Ok (VObj [("$set", VObj [("k.b", VNum 1)]);
                 ("$unset", VObj [("k.a", VUndefined)])]).
Proof. split; reflexivity. Qed.

(** C5, as stated: the modifier for [{a: 1}] against [{a: 0}] would have
    [$unset = {a: true}] and no [$set] entry for [a].  It has neither. *)
Lemma falsy_rule_fails_on_zero :
  ~ (exists m,
        diffToModifier doc_a_1 doc_a_0 None false = Ok m
        /\ field m "$unset" = VObj [("a", VBool true)]
        /\ ~ In "a" (set_paths m)).
Proof.
  intros [m [H [Hu _]]]. vm_compute in H. injection H as <-. discriminate.
Qed.

(** C6.  For [prev = {a: {b: 1}}] and [doc = {a: 5}] the path [a] is
    recorded in [$set] and in [$unset]: [shouldUnset(5, {b: 1})] takes the
    branch of line 59, where [Object.keys(5)] is empty. *)
Theorem set_and_unset_share_a_path :
  diffToModifier doc_a_b1 doc_a_5 None false
  = Ok (VObj [("$set", VObj [("a", VNum 5)]);
              ("$unset", VObj [("a", VBool true)])])
  /\ shouldSet (VNum 5) (VObj [("b", VNum 1)]) = true
  /\ shouldUnset (VNum 5) (VObj [("b", VNum 1)]) = Ok true.
Proof. repeat split. Qed.

(** C9.  [$set(dest, source)] on the modifier [{$set: {a: 1}}] and the
    empty [dest]: after the recursive call on [source.$set] the [each] of
    line 156 runs over [source] itself and writes its [$set] field into
    [dest]. *)
Theorem dollar_set_writes_modifier_fields :
  dollar_set (VObj [("$set", VObj [("a", VNum 1)])]) (VObj [])
  = VObj [("a", VNum 1); ("$set", VObj [("a", VNum 1)])].
Proof. reflexivity. Qed.

(** C10.  [prev = {a: null}], [doc = {}]: [shouldUnset(undefined, null)]
    reaches [Object.keys(undefined)] in line 60, and [diffToModifier]
    fails with a [TypeError]. *)
Theorem diff_throws_on_null_leaf :
  shouldUnset VUndefined VNull
  = Throw (TypeError "Cannot convert undefined or null to object")
  /\ diffToModifier doc_a_null doc_empty None false
     = Throw (TypeError "Cannot convert undefined or null to object").
Proof. split; reflexivity. Qed.

(* ===================================================================== *)
(** * Well-formed documents *)
(* ===================================================================== *)

(** Structural induction on values, through the lists of children. *)
Fixpoint value_induction (P : value -> Prop)
  (Hundefined : P VUndefined) (Hnull : P VNull)
  (Hbool : forall b, P (VBool b)) (Hnum : forall n, P (VNum n))
  (Hstr : forall s, P (VStr s)) (Hdate : forall t, P (VDate t))
  (Harr : forall elems, Forall P elems -> P (VArr elems))
  (Hobj : forall props, Forall (fun kv => P (snd kv)) props -> P (VObj props))
  (v : value) {struct v} : P v :=
  let rec := value_induction P Hundefined Hnull Hbool Hnum Hstr Hdate Harr Hobj in
  match v with
  | VUndefined => Hundefined
  | VNull => Hnull
  | VBool b => Hbool b
  | VNum n => Hnum n
  | VStr s => Hstr s
  | VDate t => Hdate t
  | VArr elems =>
      Harr elems
        ((fix all (l : list value) : Forall P l :=
            match l with
            | [] => Forall_nil P
            | x :: l' => Forall_cons x (rec x) (all l')
            end) elems)
  | VObj props =>
      Hobj props
        ((fix all (l : list (string * value)) : Forall (fun kv => P (snd kv)) l :=
            match l with
            | [] => Forall_nil _
            | kv :: l' => Forall_cons kv (rec (snd kv)) (all l')
            end) props)
  end.

Fixpoint unique_keys (keys : list string) : bool :=
  match keys with
  | [] => true
  | k :: rest => negb (existsb (String.eqb k) rest) && unique_keys rest
  end.

(** Property names are unique in every object of the value. *)
Fixpoint wf (v : value) : bool :=
  match v with
  | VArr elems => forallb wf elems
  | VObj props =>
      unique_keys (map fst props) && forallb (fun '(_, c) => wf c) props
  | _ => true
  end.

(** The values of type 'object' that have no own keys: dates, empty
    sequences, empty mappings. *)
Definition keyless (v : value) : bool :=
  match v with
  | VDate _ | VArr [] | VObj [] => true
  | _ => false
  end.

(** No value strictly inside [v] is keyless. *)
Fixpoint no_keyless (v : value) : bool :=
  match v with
  | VArr elems => forallb (fun c => negb (keyless c) && no_keyless c) elems
  | VObj props =>
      forallb (fun '(_, c) => negb (keyless c) && no_keyless c) props
  | _ => true
  end.

Definition doc_a_empty_object : value := VObj [("a", VObj [])].

Section Reflexivity.

Lemma unique_keys_lookup props k v :
  unique_keys (map fst props) = true -> In (k, v) props ->
  lookup k props = Some v.
Proof.
  induction props as [|[k0 v0] rest IH]; simpl; [tauto|].
  rewrite andb_true_iff, negb_true_iff. intros [Hfresh Hu] [Heq|Hin].
  - injection Heq as -> ->. now rewrite String.eqb_refl.
  - destruct (k =? k0) eqn:E; auto.
    apply String.eqb_eq in E. subst k0. exfalso.
    assert (existsb (String.eqb k) (map fst rest) = true); [|congruence].
    apply existsb_exists. exists k. split; [|apply String.eqb_refl].
    apply in_map_iff. now exists (k, v).
Qed.

Lemma isEqual_refl v : wf v = true -> isEqual v v = true.
Proof.
  induction v as [| |b|n|s|t|elems IH|props IH] using value_induction;
    simpl; intros Hwf; auto.
  - apply Bool.eqb_reflx.
  - apply Z.eqb_refl.
  - apply String.eqb_refl.
  - apply Z.eqb_refl.
  - induction IH as [|x l Hx _ IHl]; [reflexivity|].
    simpl in Hwf. apply andb_true_iff in Hwf as [Hwx Hwl].
    rewrite Hx by assumption. simpl. auto.
  - rewrite Nat.eqb_refl. simpl.
    apply andb_true_iff in Hwf as [Hu Hall].
    assert (Hlk : forall k x, In (k, x) props -> lookup k props = Some x)
      by (intros; now apply unique_keys_lookup).
    assert (Hrefl : forall k x, In (k, x) props -> isEqual x x = true).
    { intros k x Hin. rewrite Forall_forall in IH.
      apply (IH (k, x) Hin). rewrite forallb_forall in Hall.
      apply (Hall (k, x) Hin). }
    match goal with |- ?F props = true =>
      assert (Hall' : forall l, incl l props -> F l = true) end.
    { induction l as [|[k x] l IHl]; intros Hincl; [reflexivity|].
      rewrite (Hlk k x), (Hrefl k x) by (apply Hincl; left; reflexivity).
      simpl. apply IHl. intros y Hy. apply Hincl. now right. }
    apply Hall'. apply incl_refl.
Qed.

End Reflexivity.

(* ===================================================================== *)
(** * Diffing a document against itself *)
(* ===================================================================== *)

Section SelfDiff.

Lemma split_nonempty s : split s <> [].
Proof.
  destruct s as [|c rest]; simpl; [discriminate|].
  destruct (is_dot c); [discriminate|].
  destruct (split rest); discriminate.
Qed.

Lemma lookup_In k props c : lookup k props = Some c -> In (k, c) props.
Proof.
  induction props as [|[k0 v0] rest IH]; simpl; [discriminate|].
  destruct (k =? k0) eqn:E.
  - apply String.eqb_eq in E. intros [= ->]. subst. now left.
  - intros H. right. auto.
Qed.

Lemma child_wf seg v c : child seg v = Some c -> wf v = true -> wf c = true.
Proof.
  destruct v; simpl; try discriminate.
  - destruct (index_of_segment seg); [|discriminate].
    intros Hn Hall. apply nth_error_In in Hn.
    rewrite forallb_forall in Hall. auto.
  - intros Hl Hwf. apply lookup_In in Hl.
    apply andb_true_iff in Hwf as [_ Hall].
    rewrite forallb_forall in Hall. apply (Hall _ Hl).
Qed.

Lemma get_segs_wf segs v : wf v = true -> wf (get_segs segs v) = true.
Proof.
  revert v. induction segs as [|seg rest IH]; intros v Hwf; simpl; auto.
  destruct (child seg v) as [c|] eqn:E; auto.
  apply IH. eapply child_wf; eauto.
Qed.

Lemma child_no_keyless seg v c :
  child seg v = Some c -> no_keyless v = true ->
  keyless c = false /\ no_keyless c = true.
Proof.
  destruct v; simpl; try discriminate.
  - destruct (index_of_segment seg); [|discriminate].
    intros Hn Hall. apply nth_error_In in Hn.
    rewrite forallb_forall in Hall. specialize (Hall _ Hn).
    apply andb_true_iff in Hall as [H1 H2].
    now apply negb_true_iff in H1.
  - intros Hl Hall. apply lookup_In in Hl.
    rewrite forallb_forall in Hall. specialize (Hall _ Hl). simpl in Hall.
    apply andb_true_iff in Hall as [H1 H2].
    now apply negb_true_iff in H1.
Qed.

Lemma get_segs_no_keyless segs v :
  segs <> [] -> no_keyless v = true ->
  keyless (get_segs segs v) = false /\ no_keyless (get_segs segs v) = true.
Proof.
  revert v. induction segs as [|seg rest IH]; intros v Hne Hv; [congruence|].
  simpl. destruct (child seg v) as [c|] eqn:E; [|auto].
  destruct (child_no_keyless _ _ _ E Hv) as [Hk Hc].
  destruct rest as [|seg' rest']; [simpl; auto|].
  apply IH; [discriminate|assumption].
Qed.

(** A value never has to be set over itself. *)
Lemma shouldSet_same v : wf v = true -> shouldSet v v = false.
Proof.
  intros Hwf. unfold shouldSet.
  destruct v; simpl; auto.
  - now destruct b.
  - now rewrite Z.eqb_refl.
  - rewrite String.eqb_refl. now destruct (negb (s =? "")).
  - now rewrite Z.eqb_refl.
  - change (negb (isEqual (VArr elems) (VArr elems)) = false).
    now rewrite isEqual_refl.
  - change (negb (isEqual (VObj props) (VObj props)) = false).
    now rewrite isEqual_refl.
Qed.

(** A value that is not a keyless object never has to be unset against
    itself. *)
Lemma shouldUnset_same v : keyless v = false -> shouldUnset v v = Ok false.
Proof.
  unfold shouldUnset.
  destruct (truthy v || check_Number v); simpl.
  - destruct v; simpl; try reflexivity; try discriminate.
    + destruct elems; [discriminate|reflexivity].
    + destruct props; [discriminate|reflexivity].
  - destruct v; simpl; try reflexivity; try discriminate.
    + destruct elems; [discriminate|reflexivity].
    + destruct props; [discriminate|reflexivity].
Qed.

Lemma forward_pass_same X ign :
  wf X = true -> forward_pass X X ign = [].
Proof.
  intros Hwf. unfold forward_pass.
  generalize (filteredKeyPaths (keyPaths X false) ign) as paths.
  induction paths as [|p paths IH]; simpl; auto.
  unfold valueForKeyPath at 2 3.
  rewrite shouldSet_same by now apply get_segs_wf.
  exact IH.
Qed.

Lemma mark_unsets_same X paths :
  no_keyless X = true -> mark_unsets X X paths [] = Ok [].
Proof.
  intros Hk. induction paths as [|p paths IH]; simpl; auto.
  unfold valueForKeyPath.
  rewrite shouldUnset_same; [exact IH|].
  apply get_segs_no_keyless; [apply split_nonempty|assumption].
Qed.

Lemma diff_pass_same X ign :
  wf X = true -> no_keyless X = true -> diff_pass X X ign = Ok VUndefined.
Proof.
  intros Hwf Hk. unfold diff_pass, backward_pass.
  rewrite forward_pass_same, mark_unsets_same by assumption.
  destruct (truthy X); reflexivity.
Qed.

End SelfDiff.

(** C7, as stated: [diffToModifier(X, X)] would be absent for every
    document.  For [X = {a: {}}] it is [{$unset: {a: true}}]: the empty
    mapping at [a] meets the rule of [shouldUnset] for objects with zero
    keys. *)
Lemma self_diff_of_empty_mapping :
  diffToModifier doc_a_empty_object doc_a_empty_object None false
  = Ok (VObj [("$unset", VObj [("a", VBool true)])])
  /\ shouldUnset (VObj []) (VObj []) = Ok true.
Proof. split; reflexivity. Qed.

(** C7, amended.  For every document [X] that holds no empty mapping, no
    empty sequence and no date, [diffToModifier(X, X)] returns the absent
    result, whatever the ignore list and the prune flag. *)
Theorem self_diff_is_absent X fieldsToIgnore pruneEmptyObjects :
  wf X = true -> no_keyless X = true ->
  diffToModifier X X fieldsToIgnore pruneEmptyObjects = Ok VUndefined.
Proof.
  intros Hwf Hk. unfold diffToModifier.
  rewrite diff_pass_same by assumption. reflexivity.
Qed.

Definition doc_nested : value :=
  VObj [("a", VObj [("b", VNum 1); ("c", VStr "x")]);
        ("d", VArr [VNum 1; VNull]); ("e", VBool false)].

Lemma self_diff_is_absent_witness :
  wf doc_nested = true /\ no_keyless doc_nested = true
  /\ diffToModifier doc_nested doc_nested None false = Ok VUndefined.
Proof.
  split; [reflexivity|]. split; [reflexivity|].
  apply (self_diff_is_absent doc_nested None false); reflexivity.
Defined.

(* ===================================================================== *)
(** * Documents as leaf maps *)
(* ===================================================================== *)

Definition is_mapping (v : value) : bool :=
  match v with VObj _ => true | _ => false end.

(** The leaf held at a path of segments, walking through mappings only: a
    leaf is any value that is not a mapping. *)
Fixpoint leaf_at (segs : list string) (v : value) : option value :=
  match segs with
  | [] => if is_mapping v then None else Some v
  | seg :: rest =>
      match v with
      | VObj props =>
          match lookup seg props with
          | Some c => leaf_at rest c
          | None => None
          end
      | _ => None
      end
  end.

(** Walking [segs] from [v] never steps into a sequence. *)
Fixpoint clear_of_arrays (segs : list string) (v : value) : bool :=
  match segs with
  | [] => true
  | seg :: rest =>
      match v with
      | VArr _ => false
      | VObj props =>
          match lookup seg props with
          | Some c => clear_of_arrays rest c
          | None => true
          end
      | _ => true
      end
  end.

(** No mapping of the value holds an empty container. *)
Fixpoint pruned (v : value) : bool :=
  match v with
  | VObj props =>
      forallb (fun '(_, c) => negb (is_empty_container c) && pruned c) props
  | _ => true
  end.

(** Two leaf lookups agree, up to deep equality of the leaves. *)
Definition leaf_rel (a b : option value) : Prop :=
  match a, b with
  | Some x, Some y => isEqual x y = true
  | None, None => True
  | _, _ => False
  end.

(** What [prune] leaves of a leaf: an empty sequence is removed. *)
Definition drop_empty (o : option value) : option value :=
  match o with
  | Some (VArr []) => None
  | _ => o
  end.

Section LeafMaps.

Lemma clear_empty_mapping q : clear_of_arrays q (VObj []) = true.
Proof. destruct q; reflexivity. Qed.

Lemma clear_leaf q v :
  is_mapping v = false -> isArray v = false -> clear_of_arrays q v = true.
Proof. destruct q, v; simpl; auto; discriminate. Qed.

Lemma leaf_at_empty_mapping p : leaf_at p (VObj []) = None.
Proof. destruct p; reflexivity. Qed.

Lemma leaf_at_below_leaf p v :
  is_mapping v = false -> p <> [] -> leaf_at p v = None.
Proof. destruct p, v; simpl; congruence. Qed.

Lemma leaf_at_assign seg c props x p :
  leaf_at (x :: p) (VObj (assign seg c props))
  = if seg =? x then leaf_at p c else leaf_at (x :: p) (VObj props).
Proof.
  simpl. destruct (seg =? x) eqn:E.
  - apply String.eqb_eq in E. subst. now rewrite lookup_assign_same.
  - apply String.eqb_neq in E. rewrite lookup_assign_other; congruence.
Qed.

Lemma leaf_at_delete seg props x p :
  leaf_at (x :: p) (VObj (delete seg props))
  = if seg =? x then None else leaf_at (x :: p) (VObj props).
Proof.
  simpl. destruct (seg =? x) eqn:E.
  - apply String.eqb_eq in E. subst. now rewrite lookup_delete_same.
  - apply String.eqb_neq in E. rewrite lookup_delete_other; congruence.
Qed.

Lemma set_segs_cons val seg rest cur :
  rest <> [] ->
  set_segs val (seg :: rest) cur
  = put_child seg
      (set_segs val rest
         (match child seg cur with
          | Some c => if is_container c then c else VObj []
          | None => VObj []
          end)) cur.
Proof. destruct rest; [congruence|reflexivity]. Qed.

(** The leaf map after [setValueForKeyPath]: the value sits at the path,
    nothing is left above it, and every unrelated path is untouched. *)
Lemma leaf_at_set_segs val segs : forall props p,
  segs <> [] -> val <> VUndefined ->
  clear_of_arrays segs (VObj props) = true ->
  leaf_at p (set_segs val segs (VObj props))
  = if is_prefix segs p then leaf_at (skipn (List.length segs) p) val
    else if is_prefix p segs then None
    else leaf_at p (VObj props).
Proof.
  induction segs as [|seg rest IH]; intros props p Hne Hval Hclear;
    [congruence|].
  destruct rest as [|seg' rest'].
  - assert (Hset : set_segs val [seg] (VObj props) = VObj (assign seg val props))
      by (simpl; destruct val; congruence).
    rewrite Hset. destruct p as [|x p]; [reflexivity|].
    rewrite leaf_at_assign. simpl is_prefix. simpl skipn.
    destruct (seg =? x) eqn:E; simpl; [reflexivity|].
    rewrite String.eqb_sym, E. reflexivity.
  - remember (seg' :: rest') as rest eqn:Hrest.
    assert (Hrne : rest <> []) by (subst rest; discriminate).
    rewrite set_segs_cons by assumption.
    simpl in Hclear. simpl child.
    set (next := match lookup seg props with
                 | Some c => if is_container c then c else VObj []
                 | None => VObj []
                 end).
    assert (Hnext : exists props',
               next = VObj props'
               /\ clear_of_arrays rest (VObj props') = true
               /\ forall q, q <> [] ->
                    leaf_at q (VObj props') = leaf_at (seg :: q) (VObj props)).
    { subst next. simpl leaf_at.
      destruct (lookup seg props) as [c|] eqn:E.
      - destruct c; simpl;
          try (exists []; split; [reflexivity|]; split;
               [subst rest; reflexivity|];
               intros q Hq; rewrite leaf_at_empty_mapping;
               destruct q; [congruence|reflexivity]).
        + subst rest. discriminate.
        + exists props0. split; [reflexivity|]. split; [assumption|].
          reflexivity.
      - exists []. split; [reflexivity|]. split; [subst rest; reflexivity|].
        intros q Hq. now rewrite leaf_at_empty_mapping. }
    destruct Hnext as [props' [-> [Hc' Hq]]]. simpl put_child.
    destruct p as [|x p]; [reflexivity|].
    rewrite leaf_at_assign. simpl is_prefix. simpl List.length. simpl skipn.
    destruct (seg =? x) eqn:E; simpl;
      [|rewrite String.eqb_sym, E; reflexivity].
    apply String.eqb_eq in E. subst x. rewrite String.eqb_refl. simpl.
    rewrite IH by auto.
    destruct (is_prefix rest p) eqn:E1; [reflexivity|].
    destruct (is_prefix p rest) eqn:E2; [reflexivity|].
    apply Hq. intros ->. discriminate.
Qed.

Lemma set_segs_leaf val segs v :
  is_mapping v = false -> isArray v = false -> set_segs val segs v = v.
Proof.
  destruct segs as [|seg [|seg' rest]]; simpl; auto.
  - destruct val, v; simpl; auto; discriminate.
  - destruct v; simpl; auto; discriminate.
Qed.

Lemma unset_segs_leaf segs v :
  is_mapping v = false -> isArray v = false -> unset_segs segs v = (v, false).
Proof. destruct segs, v; simpl; auto; discriminate. Qed.

Lemma unset_segs_unchanged segs : forall v v',
  unset_segs segs v = (v', false) -> v' = v.
Proof.
  induction segs as [|s r IH]; intros v v' Eu; simpl in Eu.
  - now injection Eu.
  - destruct (child s v) as [d|]; [|now injection Eu].
    destruct r; [discriminate|].
    destruct (unset_segs (s0 :: r) d) as [d' ch].
    destruct ch; [discriminate|]. now injection Eu.
Qed.

Lemma unset_segs_cons seg rest props c :
  rest <> [] -> lookup seg props = Some c ->
  unset_segs (seg :: rest) (VObj props)
  = (if snd (unset_segs rest c)
     then VObj (assign seg (fst (unset_segs rest c)) props)
     else VObj props, snd (unset_segs rest c)).
Proof.
  intros Hne E. destruct rest as [|s rest]; [congruence|].
  destruct (unset_segs (s :: rest) c) as [c' ch] eqn:Eu.
  simpl in *. rewrite E, Eu. reflexivity.
Qed.

(** The leaf map after [unsetKeyPath]: everything at and below the path
    is gone, the rest is untouched. *)
Lemma leaf_at_unset_segs segs : forall v p,
  segs <> [] -> isArray v = false -> clear_of_arrays segs v = true ->
  leaf_at p (fst (unset_segs segs v))
  = if is_prefix segs p then None else leaf_at p v.
Proof.
  induction segs as [|seg rest IH]; intros v p Hne Harr Hclear; [congruence|].
  destruct (is_mapping v) eqn:Hm.
  2:{ rewrite unset_segs_leaf by assumption. simpl fst.
      destruct (is_prefix (seg :: rest) p) eqn:Ep; [|reflexivity].
      apply leaf_at_below_leaf; [assumption|]. intros ->. discriminate. }
  destruct v as [| | | | | | |props]; try discriminate. clear Hm Harr.
  simpl in Hclear.
  destruct (lookup seg props) as [c|] eqn:E.
  - destruct rest as [|seg' rest'].
    + simpl unset_segs. rewrite E. simpl fst.
      destruct p as [|x p]; [reflexivity|].
      rewrite leaf_at_delete. simpl.
      destruct (seg =? x); reflexivity.
    + remember (seg' :: rest') as rest eqn:Hrest.
      assert (Hrne : rest <> []) by (subst rest; discriminate).
      assert (Hc : isArray c = false).
      { destruct c; auto. subst rest. discriminate. }
      rewrite (unset_segs_cons _ _ _ _ Hrne E). simpl fst.
      assert (Hgoal : forall q,
                 leaf_at q (VObj (assign seg (fst (unset_segs rest c)) props))
                 = if is_prefix (seg :: rest) q then None
                   else leaf_at q (VObj props)).
      { intros [|x q]; [reflexivity|].
        rewrite leaf_at_assign. simpl is_prefix.
        destruct (seg =? x) eqn:Ex; simpl; [|reflexivity].
        apply String.eqb_eq in Ex. subst x. rewrite E.
        now apply IH. }
      destruct (snd (unset_segs rest c)) eqn:Ech; [apply Hgoal|].
      rewrite <- Hgoal.
      rewrite (unset_segs_unchanged rest c (fst (unset_segs rest c))).
      * destruct p as [|x q]; [reflexivity|].
        rewrite leaf_at_assign. simpl.
        destruct (seg =? x) eqn:Ex; [|reflexivity].
        apply String.eqb_eq in Ex. subst x. now rewrite E.
      * rewrite <- Ech. now destruct (unset_segs rest c).
  - simpl unset_segs. rewrite E. simpl fst.
    destruct p as [|x p]; [reflexivity|].
    simpl. destruct (seg =? x) eqn:Ex; simpl; [|reflexivity].
    apply String.eqb_eq in Ex. subst x. rewrite E.
    now destruct (is_prefix rest p).
Qed.

End LeafMaps.

(* ===================================================================== *)
(** * [prune] on leaf maps, and extensionality *)
(* ===================================================================== *)

(** The property list kept by [prune]. *)
Fixpoint prune_props (l : list (string * value)) : list (string * value) :=
  match l with
  | [] => []
  | (k, c) :: rest =>
      if is_empty_container (prune c) then prune_props rest
      else (k, prune c) :: prune_props rest
  end.

Section Pruning.

Lemma prune_mapping props : prune (VObj props) = VObj (prune_props props).
Proof.
  reflexivity.
Qed.

Lemma unique_keys_fresh k rest :
  existsb (String.eqb k) rest = false <-> ~ In k rest.
Proof.
  split.
  - intros H Hin. assert (existsb (String.eqb k) rest = true); [|congruence].
    apply existsb_exists. exists k. split; auto. apply String.eqb_refl.
  - intros H. destruct (existsb (String.eqb k) rest) eqn:E; auto.
    apply existsb_exists in E as [x [Hin Hx]].
    apply String.eqb_eq in Hx. subst. contradiction.
Qed.

Lemma unique_keys_NoDup keys : unique_keys keys = true <-> NoDup keys.
Proof.
  induction keys as [|k rest IH]; simpl.
  - split; auto. constructor.
  - rewrite andb_true_iff, negb_true_iff, unique_keys_fresh, IH. split.
    + intros [H1 H2]. now constructor.
    + intros H. inversion H; auto.
Qed.

Lemma prune_props_keys props k :
  In k (map fst (prune_props props)) -> In k (map fst props).
Proof.
  induction props as [|[k0 c] rest IH]; simpl; auto.
  destruct (is_empty_container (prune c)); simpl; intuition.
Qed.

Lemma lookup_prune_props props k :
  unique_keys (map fst props) = true ->
  lookup k (prune_props props)
  = match lookup k props with
    | Some c => if is_empty_container (prune c) then None else Some (prune c)
    | None => None
    end.
Proof.
  induction props as [|[k0 c] rest IH]; simpl; auto.
  rewrite andb_true_iff, negb_true_iff, unique_keys_fresh.
  intros [Hfresh Hu].
  destruct (k =? k0) eqn:E.
  - apply String.eqb_eq in E. subst k0.
    destruct (is_empty_container (prune c)); simpl.
    + apply lookup_none_not_in. intros Hin.
      apply Hfresh. now apply prune_props_keys.
    + now rewrite String.eqb_refl.
  - destruct (is_empty_container (prune c)); simpl; [|rewrite E]; auto.
Qed.

Lemma wf_mapping props :
  wf (VObj props) = true <->
  unique_keys (map fst props) = true
  /\ forall k c, In (k, c) props -> wf c = true.
Proof.
  simpl. rewrite andb_true_iff, forallb_forall. split.
  - intros [Hu Hall]. split; auto. intros k c Hin. apply (Hall _ Hin).
  - intros [Hu Hall]. split; auto. intros [k c] Hin. eauto.
Qed.

(** [prune] leaves the leaf map of a mapping alone, but for the leaves
    that are empty sequences. *)
Lemma leaf_at_prune v : forall p,
  wf v = true -> is_mapping v = true ->
  leaf_at p (prune v) = drop_empty (leaf_at p v).
Proof.
  induction v as [| |b|n|s|t|elems IH|props IH] using value_induction;
    intros p Hwf Hm; try discriminate.
  rewrite prune_mapping. destruct p as [|x p]; [reflexivity|].
  apply wf_mapping in Hwf as [Hu Hall].
  simpl. rewrite lookup_prune_props by assumption.
  destruct (lookup x props) as [c|] eqn:E; [|reflexivity].
  pose proof (lookup_In _ _ _ E) as Hin.
  rewrite Forall_forall in IH. specialize (IH _ Hin). simpl in IH.
  specialize (fun p => IH p (Hall _ _ Hin)).
  destruct c as [| |b|n|s|t|elems|props0];
    try (destruct p; reflexivity).
  - destruct elems; destruct p; reflexivity.
  - rewrite <- (IH p eq_refl).
    destruct (is_empty_container (prune (VObj props0))) eqn:Ee; auto.
    rewrite prune_mapping in *.
    destruct (prune_props props0); [|discriminate].
    now rewrite leaf_at_empty_mapping.
Qed.

Lemma prune_pruned v : pruned (prune v) = true.
Proof.
  induction v as [| |b|n|s|t|elems IH|props IH] using value_induction;
    try reflexivity.
  rewrite prune_mapping. simpl.
  induction IH as [|[k c] rest Hc _ IHrest]; simpl; auto.
  destruct (is_empty_container (prune c)) eqn:E; simpl; auto.
  rewrite E. simpl in Hc. rewrite Hc. simpl. exact IHrest.
Qed.

Lemma prune_wf v : wf v = true -> wf (prune v) = true.
Proof.
  induction v as [| |b|n|s|t|elems IH|props IH] using value_induction;
    intros Hwf; auto.
  rewrite prune_mapping. apply wf_mapping in Hwf as [Hu Hall].
  apply wf_mapping. split.
  - clear IH Hall. induction props as [|[k c] rest IHr]; simpl in *; auto.
    apply andb_true_iff in Hu as [Hf Hu].
    destruct (is_empty_container (prune c)); simpl; auto.
    rewrite (IHr Hu), andb_true_r. apply negb_true_iff.
    apply negb_true_iff in Hf. apply unique_keys_fresh.
    rewrite unique_keys_fresh in Hf. intros Hin. apply Hf.
    now apply prune_props_keys.
  - rewrite Forall_forall in IH. intros k c Hin.
    assert (exists c0, In (k, c0) props /\ c = prune c0) as [c0 [Hin0 ->]].
    { clear - Hin. revert Hin.
      induction props as [|[k0 c0] rest IHr]; simpl; [contradiction|].
      destruct (is_empty_container (prune c0)).
      - intros Hin. destruct (IHr Hin) as [c1 [H1 H2]]. eauto.
      - intros [Heq|Hin].
        + injection Heq as <- <-. eauto.
        + destruct (IHr Hin) as [c1 [H1 H2]]. eauto. }
    apply (IH _ Hin0). eauto.
Qed.

(** A pruned value that is not the empty mapping holds a leaf. *)
Lemma pruned_has_leaf v :
  pruned v = true -> v <> VObj [] -> exists p x, leaf_at p v = Some x.
Proof.
  induction v as [| |b|n|s|t|elems IH|props IH] using value_induction;
    intros Hp Hne; try (exists []; simpl; eauto; fail).
  destruct props as [|[k c] rest]; [congruence|].
  inversion IH as [|? ? Hc _]; subst. simpl in *.
  apply andb_true_iff in Hp as [Hkc _].
  apply andb_true_iff in Hkc as [Hnc Hpc].
  destruct (Hc Hpc) as [p [x Hx]].
  { intros ->. discriminate. }
  exists (k :: p), x. simpl. now rewrite String.eqb_refl.
Qed.

Lemma pruned_child props k c :
  pruned (VObj props) = true -> In (k, c) props ->
  pruned c = true /\ c <> VObj [].
Proof.
  simpl. rewrite forallb_forall. intros H Hin.
  specialize (H _ Hin). simpl in H.
  apply andb_true_iff in H as [H1 H2]. split; auto.
  intros ->. discriminate.
Qed.

(** The keys of a pruned mapping are the first segments of its leaves. *)
Lemma leaf_maps_same_keys ps qs :
  wf (VObj ps) = true -> pruned (VObj ps) = true ->
  (forall p, leaf_at p (VObj ps) <> None -> leaf_at p (VObj qs) <> None) ->
  incl (map fst ps) (map fst qs).
Proof.
  intros Hwf Hp Hrel k Hin.
  apply in_map_iff in Hin as [[k0 c] [<- Hin]]. simpl.
  apply wf_mapping in Hwf as [Hu _].
  destruct (pruned_child _ _ _ Hp Hin) as [Hpc Hne].
  destruct (pruned_has_leaf c Hpc Hne) as [p [x Hx]].
  specialize (Hrel (k0 :: p)). simpl in Hrel.
  rewrite (unique_keys_lookup _ _ _ Hu Hin), Hx in Hrel.
  destruct (lookup k0 qs) eqn:E.
  - eapply lookup_in_keys; eauto.
  - exfalso. apply Hrel; congruence.
Qed.

Lemma leaf_rel_domain a b : leaf_rel a b -> (a <> None <-> b <> None).
Proof. destruct a, b; simpl; intuition congruence. Qed.

(** Two pruned, well-formed values with the same leaves are deeply
    equal. *)
Lemma leaf_extensionality v : forall w,
  wf v = true -> wf w = true -> pruned v = true -> pruned w = true ->
  (forall p, leaf_rel (leaf_at p v) (leaf_at p w)) ->
  isEqual v w = true.
Proof.
  induction v as [| |b|n|s|t|elems IH|ps IH] using value_induction;
    intros w Hwv Hww Hpv Hpw Hrel;
    try (specialize (Hrel []); simpl in Hrel;
         destruct (is_mapping w); [contradiction|exact Hrel]).
  destruct w as [| | | | | | |qs];
    try (specialize (Hrel []); simpl in Hrel; contradiction).
  assert (Hkeys1 : incl (map fst ps) (map fst qs)).
  { eapply leaf_maps_same_keys; eauto.
    intros p. apply (proj1 (leaf_rel_domain _ _ (Hrel p))). }
  assert (Hkeys2 : incl (map fst qs) (map fst ps)).
  { eapply leaf_maps_same_keys; eauto.
    intros p. apply (proj2 (leaf_rel_domain _ _ (Hrel p))). }
  pose proof Hwv as Hwv'. pose proof Hww as Hww'.
  apply wf_mapping in Hwv' as [Hu1 Hall1].
  apply wf_mapping in Hww' as [Hu2 Hall2].
  simpl. apply andb_true_iff. split.
  - apply Nat.eqb_eq. rewrite <- (length_map fst ps), <- (length_map fst qs).
    apply unique_keys_NoDup in Hu1, Hu2.
    apply Nat.le_antisymm; apply NoDup_incl_length; assumption.
  - match goal with |- ?F ps = true =>
      assert (Hall' : forall l, incl l ps -> F l = true) end.
    { induction l as [|[k x] l IHl]; intros Hincl; [reflexivity|].
      assert (Hin : In (k, x) ps) by (apply Hincl; now left).
      assert (Hk : In k (map fst qs)).
      { apply Hkeys1. apply in_map_iff. now exists (k, x). }
      destruct (lookup k qs) as [y|] eqn:Ey;
        [|apply lookup_none_not_in in Ey; contradiction].
      rewrite Forall_forall in IH.
      assert (Hxy : isEqual x y = true); [apply (IH _ Hin y)|].
      - eauto.
      - apply lookup_In in Ey. eauto.
      - exact (proj1 (pruned_child _ _ _ Hpv Hin)).
      - apply lookup_In in Ey. exact (proj1 (pruned_child _ _ _ Hpw Ey)).
      - intros p. specialize (Hrel (k :: p)). simpl in Hrel.
        now rewrite (unique_keys_lookup _ _ _ Hu1 Hin), Ey in Hrel.
      - rewrite Hxy. simpl. apply IHl. intros z Hz. apply Hincl. now right. }
    apply Hall'. apply incl_refl.
Qed.

End Pruning.

(* ===================================================================== *)
(** * What the keypath writes preserve *)
(* ===================================================================== *)

Section Preservation.

Lemma in_assign k c props kv :
  In kv (assign k c props) -> kv = (k, c) \/ In kv props.
Proof.
  induction props as [|[k0 c0] rest IH]; simpl.
  - intuition.
  - destruct (k =? k0); simpl; intuition.
Qed.

Lemma in_delete k props kv : In kv (delete k props) -> In kv props.
Proof.
  induction props as [|[k0 c0] rest IH]; simpl; auto.
  destruct (k =? k0); simpl; intuition.
Qed.

Lemma assign_unique k c props :
  unique_keys (map fst props) = true ->
  unique_keys (map fst (assign k c props)) = true.
Proof.
  rewrite !unique_keys_NoDup.
  induction props as [|[k0 c0] rest IH]; simpl; intros H.
  - repeat constructor. auto.
  - inversion H as [|? ? Hfresh Hrest]; subst.
    destruct (k =? k0) eqn:E; simpl.
    + apply String.eqb_eq in E. subst. now constructor.
    + apply String.eqb_neq in E. constructor; auto.
      rewrite in_keys_assign. intros [->|Hin]; congruence.
Qed.

Lemma delete_unique k props :
  unique_keys (map fst props) = true ->
  unique_keys (map fst (delete k props)) = true.
Proof.
  rewrite !unique_keys_NoDup.
  induction props as [|[k0 c0] rest IH]; simpl; intros H; auto.
  inversion H as [|? ? Hfresh Hrest]; subst.
  destruct (k =? k0) eqn:E; simpl; auto.
  constructor; auto. rewrite in_keys_delete. tauto.
Qed.

Lemma wf_store_index i c elems :
  wf c = true -> forallb wf elems = true ->
  forallb wf (store_index i c elems) = true.
Proof.
  intros Hc. revert elems.
  induction i as [|j IH]; intros [|e rest] H; simpl in *;
    try apply andb_true_iff in H as [He Hr];
    rewrite ?Hc, ?He; simpl; auto.
Qed.

Lemma wf_remove_index i elems :
  forallb wf elems = true -> forallb wf (remove_index i elems) = true.
Proof.
  revert elems. induction i as [|j IH]; intros [|e rest] H; simpl in *; auto;
    apply andb_true_iff in H as [He Hr]; auto.
  rewrite He. simpl. auto.
Qed.

Lemma wf_put_child seg c v :
  wf v = true -> wf c = true -> wf (put_child seg c v) = true.
Proof.
  intros Hv Hc. destruct v; simpl; auto.
  - destruct (index_of_segment seg); auto. simpl.
    now apply wf_store_index.
  - apply wf_mapping in Hv as [Hu Hall]. apply wf_mapping. split.
    + now apply assign_unique.
    + intros k x Hin. apply in_assign in Hin as [Heq|Hin]; eauto.
      now injection Heq as -> ->.
Qed.

Lemma wf_drop_child seg v : wf v = true -> wf (drop_child seg v) = true.
Proof.
  intros Hv. destruct v; simpl; auto.
  - destruct (index_of_segment seg); auto. simpl.
    now apply wf_remove_index.
  - apply wf_mapping in Hv as [Hu Hall]. apply wf_mapping. split.
    + now apply delete_unique.
    + intros k x Hin. apply in_delete in Hin. eauto.
Qed.

Lemma wf_set_segs val segs : forall v,
  wf v = true -> wf val = true -> wf (set_segs val segs v) = true.
Proof.
  induction segs as [|seg rest IH]; intros v Hv Hval; simpl; auto.
  destruct rest as [|seg' rest'].
  - destruct val; auto using wf_put_child, wf_drop_child.
  - apply wf_put_child; auto. apply IH; auto.
    destruct (child seg v) as [c|] eqn:E; auto.
    destruct (is_container c); auto. eapply child_wf; eauto.
Qed.

Lemma wf_unset_segs segs : forall v,
  wf v = true -> wf (fst (unset_segs segs v)) = true.
Proof.
  induction segs as [|seg rest IH]; intros v Hv; simpl; auto.
  destruct (child seg v) as [c|] eqn:E; auto.
  destruct rest as [|seg' rest'].
  - simpl. now apply wf_drop_child.
  - specialize (IH c (child_wf _ _ _ E Hv)).
    destruct (unset_segs (seg' :: rest') c) as [c' ch]. simpl in *.
    destruct ch; auto using wf_put_child.
Qed.

Lemma clear_assign seg c props x q :
  clear_of_arrays (x :: q) (VObj (assign seg c props))
  = if seg =? x then clear_of_arrays q c
    else clear_of_arrays (x :: q) (VObj props).
Proof.
  simpl. destruct (seg =? x) eqn:E.
  - apply String.eqb_eq in E. subst. now rewrite lookup_assign_same.
  - apply String.eqb_neq in E. rewrite lookup_assign_other; congruence.
Qed.

Lemma clear_delete seg props q :
  clear_of_arrays q (VObj props) = true ->
  clear_of_arrays q (VObj (delete seg props)) = true.
Proof.
  destruct q as [|x q]; auto. simpl.
  destruct (string_dec x seg) as [->|Hne].
  - now rewrite lookup_delete_same.
  - now rewrite lookup_delete_other.
Qed.

(** A path that was clear of sequences stays clear after
    [setValueForKeyPath], provided the value written is clear along what
    is left of the path. *)
Lemma clear_set_segs val segs : forall props q,
  segs <> [] -> val <> VUndefined ->
  clear_of_arrays segs (VObj props) = true ->
  clear_of_arrays q (VObj props) = true ->
  (is_prefix segs q = true ->
   clear_of_arrays (skipn (List.length segs) q) val = true) ->
  clear_of_arrays q (set_segs val segs (VObj props)) = true.
Proof.
  induction segs as [|seg rest IH]; intros props q Hne Hval Hcs Hcq Hpre;
    [congruence|].
  destruct q as [|x q]; [reflexivity|].
  destruct rest as [|seg' rest'].
  - assert (Hset : set_segs val [seg] (VObj props) = VObj (assign seg val props))
      by (simpl; destruct val; congruence).
    rewrite Hset, clear_assign. simpl in Hpre.
    destruct (seg =? x); auto.
  - remember (seg' :: rest') as rest eqn:Hrest.
    assert (Hrne : rest <> []) by (subst rest; discriminate).
    rewrite set_segs_cons by assumption. simpl child.
    set (next := match lookup seg props with
                 | Some c => if is_container c then c else VObj []
                 | None => VObj []
                 end).
    simpl put_child. rewrite clear_assign.
    destruct (seg =? x) eqn:E; auto.
    apply String.eqb_eq in E. subst x.
    simpl in Hcs, Hcq, Hpre. rewrite String.eqb_refl in Hpre.
    assert (Hnext : exists props',
               next = VObj props'
               /\ clear_of_arrays rest (VObj props') = true
               /\ clear_of_arrays q (VObj props') = true).
    { subst next. destruct (lookup seg props) as [c|] eqn:El.
      - destruct c; simpl;
          try (exists []; auto using clear_empty_mapping; fail).
        + subst rest. discriminate.
        + eauto.
      - exists []. auto using clear_empty_mapping. }
    destruct Hnext as [props' [-> [H1 H2]]]. apply IH; auto.
Qed.

Lemma clear_unset_segs segs : forall v q,
  clear_of_arrays q v = true ->
  clear_of_arrays q (fst (unset_segs segs v)) = true.
Proof.
  induction segs as [|seg rest IH]; intros v q Hq; simpl; auto.
  destruct (child seg v) as [c|] eqn:E; auto.
  destruct v as [| | | | | |elems|props]; try discriminate.
  - destruct q; [reflexivity|discriminate].
  - simpl in E. destruct rest as [|seg' rest'].
    + simpl. now apply clear_delete.
    + specialize (IH c).
      destruct (unset_segs (seg' :: rest') c) as [c' ch]. simpl in *.
      destruct ch; auto. destruct q as [|x q]; [reflexivity|].
      rewrite clear_assign. destruct (seg =? x) eqn:Ex; auto.
      apply String.eqb_eq in Ex. subst x. apply IH.
      simpl in Hq. now rewrite E in Hq.
Qed.

Lemma clear_prune v : forall q,
  wf v = true -> clear_of_arrays q v = true ->
  clear_of_arrays q (prune v) = true.
Proof.
  induction v as [| |b|n|s|t|elems IH|props IH] using value_induction;
    intros q Hwf Hq; auto.
  rewrite prune_mapping. destruct q as [|x q]; [reflexivity|].
  apply wf_mapping in Hwf as [Hu Hall]. simpl in *.
  rewrite lookup_prune_props by assumption.
  destruct (lookup x props) as [c|] eqn:E; auto.
  destruct (is_empty_container (prune c)); auto.
  apply lookup_In in E. rewrite Forall_forall in IH.
  apply (IH _ E); eauto.
Qed.


Lemma is_mapping_set_segs val segs props :
  is_mapping (set_segs val segs (VObj props)) = true.
Proof.
  destruct segs as [|seg [|seg' rest]]; simpl; auto.
  destruct val; reflexivity.
Qed.

Lemma is_mapping_unset_segs segs props :
  is_mapping (fst (unset_segs segs (VObj props))) = true.
Proof.
  destruct segs as [|seg rest]; simpl; auto.
  destruct (lookup seg props) as [c|]; auto.
  destruct rest as [|seg' rest']; auto.
  destruct (unset_segs (seg' :: rest') c) as [c' ch]. simpl.
  destruct ch; reflexivity.
Qed.

End Preservation.

(* ===================================================================== *)
(** * The writes of [$set] and [$unset] *)
(* ===================================================================== *)

(** The body of the [each] callback of [$set] and of [$unset]. *)
Definition set_entry (d : value) (entry : string * value) : value :=
  let '(keyPath, val) := entry in
  if check_Number val || truthy val then setValueForKeyPath val keyPath d else d.

Definition unset_entry (d : value) (entry : string * value) : value :=
  let '(keyPath, _) := entry in fst (unsetKeyPath keyPath d).

(** The two fields of a modifier, as segments of a keypath. *)
Definition reserved (seg : string) : bool := (seg =? "$set") || (seg =? "$unset").

Definition reserved_first (p : list string) : bool :=
  match p with
  | seg :: _ => reserved seg
  | [] => false
  end.

Section Writes.

Lemma dollar_set_leaf source dest :
  is_mapping source = false -> isArray source = false ->
  dollar_set source dest = dest.
Proof.
  destruct source; simpl; try discriminate; auto.
  - now destruct b.
  - now destruct (negb (n =? 0)%Z).
  - now destruct (negb (s =? "")).
Qed.

Lemma dollar_set_mapping props dest :
  dollar_set (VObj props) dest
  = fold_left set_entry props
      (if truthy (field (VObj props) "$set")
          || truthy (field (VObj props) "$unset")
       then match lookup "$set" props with
            | Some v => dollar_set v dest
            | None => dest
            end
       else dest).
Proof.
  cbn [dollar_set truthy negb entries]. f_equal.
  destruct (truthy (field (VObj props) "$set")
            || truthy (field (VObj props) "$unset")); [|reflexivity].
  induction props as [|[k v] rest IH]; cbn [lookup]; auto.
  destruct ("$set" =? k); auto.
Qed.

Lemma dollar_unset_leaf source dest :
  is_mapping source = false -> isArray source = false ->
  dollar_unset source dest = dest.
Proof.
  destruct source; simpl; try discriminate; auto.
  - now destruct b.
  - now destruct (negb (n =? 0)%Z).
  - now destruct (negb (s =? "")).
Qed.

Lemma dollar_unset_mapping props dest :
  dollar_unset (VObj props) dest
  = fold_left unset_entry props
      (if truthy (field (VObj props) "$unset")
          || truthy (field (VObj props) "$set")
       then match lookup "$unset" props with
            | Some v => dollar_unset v dest
            | None => dest
            end
       else dest).
Proof.
  cbn [dollar_unset truthy negb entries]. f_equal.
  destruct (truthy (field (VObj props) "$unset")
            || truthy (field (VObj props) "$set")); [|reflexivity].
  induction props as [|[k v] rest IH]; cbn [lookup]; auto.
  destruct ("$unset" =? k); auto.
Qed.

(** The modifier built by [objToModifier]. *)
Lemma objToModifier_eq obj :
  truthy obj = true ->
  objToModifier obj
  = Ok (match forward_pass VUndefined obj [] with
        | [] => VUndefined
        | set => VObj [("$set", VObj set)]
        end).
Proof.
  intros Ht. unfold objToModifier, diffToModifier, diff_pass. simpl.
  rewrite Ht. destruct (forward_pass VUndefined obj []); reflexivity.
Qed.


End Writes.

(* ===================================================================== *)
(** * Keypaths of plain documents *)
(* ===================================================================== *)

(** The dot-delimited string of a path of segments. *)
Definition render (segs : list string) : string := String.concat "." segs.

Fixpoint dot_free (s : string) : bool :=
  match s with
  | EmptyString => true
  | String c rest => negb (is_dot c) && dot_free rest
  end.

(** A key that is a segment of the keypath grammar: non-empty, no dot. *)
Definition segment_like (k : string) : bool := negb (k =? "") && dot_free k.

(** The leaves that [shouldSet] sets and [shouldUnset] can unset: numbers,
    non-empty strings, [true] and dates. *)
Definition present (v : value) : bool :=
  match v with
  | VNum _ | VDate _ => true
  | VStr s => negb (s =? "")
  | VBool b => b
  | _ => false
  end.

(** The leaves of a plain document: the present primitives and dates, and
    the non-empty sequences (of values whose objects have distinct
    property names). *)
Definition settable (v : value) : bool :=
  match v with
  | VArr [] => false
  | VArr (_ :: _) => wf v
  | _ => present v
  end.

(** Mappings with unique segment-like keys, whose children are non-empty
    mappings of the same kind or settable leaves. *)
Fixpoint plain (v : value) : bool :=
  match v with
  | VObj props =>
      unique_keys (map fst props)
      && forallb (fun '(k, c) =>
                    segment_like k && negb (is_empty_container c) && plain c)
                 props
  | _ => settable v
  end.

Definition no_reserved_keys (v : value) : bool :=
  match v with
  | VObj props => forallb (fun '(k, _) => negb (reserved k)) props
  | _ => true
  end.

Definition plain_document (D : value) : bool :=
  is_mapping D && plain D && no_reserved_keys D.

(** The node reached by a path of segments, walking through mappings. *)
Fixpoint node_at (segs : list string) (v : value) : option value :=
  match segs with
  | [] => Some v
  | seg :: rest =>
      match v with
      | VObj props =>
          match lookup seg props with
          | Some c => node_at rest c
          | None => None
          end
      | _ => None
      end
  end.

(** The traversal of [keyPaths], on paths of segments. *)
Fixpoint key_segs (allLevels : bool) (prefix : list string) (v : value)
  {struct v} : list (list string) :=
  match v with
  | VObj props =>
      (fix walk (l : list (string * value)) : list (list string) :=
         match l with
         | [] => []
         | (el, c) :: rest =>
             let p := prefix ++ [el] in
             match c with
             | VObj _ =>
                 (if allLevels then [p] else [])
                   ++ key_segs allLevels p c ++ walk rest
             | _ => p :: walk rest
             end
         end) props
  | _ => []
  end.

Definition parent_of (prefix : list string) : option string :=
  match prefix with
  | [] => None
  | _ => Some (render prefix)
  end.

Section Rendering.

Lemma append_assoc (a b c : string) :
  ((a ++ b) ++ c)%string = (a ++ (b ++ c))%string.
Proof. induction a as [|x a IH]; simpl; congruence. Qed.

Lemma split_join a b : split (a ++ "." ++ b)%string = split a ++ split b.
Proof.
  induction a as [|c a IH]; [reflexivity|].
  change (String c a ++ "." ++ b)%string with (String c (a ++ "." ++ b)%string).
  cbn [split]. rewrite IH. destruct (is_dot c); [reflexivity|].
  pose proof (split_nonempty a) as Hne.
  destruct (split a); [congruence|reflexivity].
Qed.

Lemma split_dot_free s : dot_free s = true -> split s = [s].
Proof.
  induction s as [|c s IH]; [reflexivity|]. simpl.
  intros H. apply andb_true_iff in H as [Hc Hs].
  apply negb_true_iff in Hc. rewrite Hc, (IH Hs). reflexivity.
Qed.

Lemma render_snoc prefix el :
  prefix <> [] -> render (prefix ++ [el]) = join (render prefix) el.
Proof.
  unfold render, join.
  induction prefix as [|x rest IH]; [congruence|]. intros _.
  destruct rest as [|y rest]; [reflexivity|].
  change (String.concat "." ((x :: y :: rest) ++ [el]))
    with (x ++ "." ++ String.concat "." ((y :: rest) ++ [el]))%string.
  rewrite IH by discriminate.
  change (String.concat "." (x :: y :: rest))
    with (x ++ "." ++ String.concat "." (y :: rest))%string.
  now rewrite !append_assoc.
Qed.

Lemma child_path_render prefix el :
  child_path (parent_of prefix) el = render (prefix ++ [el]).
Proof.
  destruct prefix as [|x rest]; [reflexivity|].
  unfold parent_of, child_path. symmetry. apply render_snoc. discriminate.
Qed.

Lemma split_render segs :
  segs <> [] -> Forall (fun s => dot_free s = true) segs ->
  split (render segs) = segs.
Proof.
  unfold render. induction segs as [|x rest IH]; [congruence|].
  intros _ H. inversion H as [|? ? Hx Hrest]; subst.
  destruct rest as [|y rest]; [now apply split_dot_free|].
  change (String.concat "." (x :: y :: rest))
    with (x ++ "." ++ String.concat "." (y :: rest))%string.
  rewrite split_join, split_dot_free, IH by (auto; discriminate).
  reflexivity.
Qed.

Lemma key_segs_cons allLevels prefix el c rest :
  key_segs allLevels prefix (VObj ((el, c) :: rest))
  = match c with
    | VObj _ =>
        (if allLevels then [prefix ++ [el]] else [])
          ++ key_segs allLevels (prefix ++ [el]) c
    | _ => [prefix ++ [el]]
    end ++ key_segs allLevels prefix (VObj rest).
Proof.
  destruct c; try reflexivity.
  cbn [key_segs]. now rewrite <- !app_assoc.
Qed.

Lemma keyPaths_in_cons allLevels parent el c rest :
  keyPaths_in allLevels parent (VObj ((el, c) :: rest))
  = match c with
    | VObj _ =>
        (if allLevels then [child_path parent el] else [])
          ++ keyPaths_in allLevels (Some (child_path parent el)) c
    | _ => [child_path parent el]
    end ++ keyPaths_in allLevels parent (VObj rest).
Proof.
  destruct c; try reflexivity.
  cbn [keyPaths_in]. now rewrite <- !app_assoc.
Qed.

(** [keyPaths] renders the paths of [key_segs]. *)
Lemma keyPaths_in_render allLevels v : forall prefix,
  keyPaths_in allLevels (parent_of prefix) v
  = map render (key_segs allLevels prefix v).
Proof.
  induction v as [| |b|n|s|t|elems IH|props IH] using value_induction;
    intros prefix; try reflexivity.
  induction IH as [|[el c] rest Hc _ IHrest]; [reflexivity|].
  rewrite keyPaths_in_cons, key_segs_cons, map_app, IHrest.
  f_equal. rewrite child_path_render.
  destruct c; try reflexivity.
  rewrite map_app. cbn [snd] in Hc. rewrite <- (Hc (prefix ++ [el])).
  assert (Hp : parent_of (prefix ++ [el]) = Some (render (prefix ++ [el])))
    by (destruct prefix; reflexivity).
  rewrite Hp. destruct allLevels; reflexivity.
Qed.

Lemma keyPaths_render D allLevels :
  keyPaths D allLevels = map render (key_segs allLevels [] D).
Proof. apply (keyPaths_in_render allLevels D []). Qed.

End Rendering.

Section PlainDocuments.

Lemma plain_mapping props :
  plain (VObj props) = true <->
  unique_keys (map fst props) = true
  /\ forall k c, In (k, c) props ->
       segment_like k = true /\ is_empty_container c = false
       /\ plain c = true.
Proof.
  cbn [plain]. rewrite andb_true_iff, forallb_forall. split.
  - intros [Hu Hall]. split; auto. intros k c Hin.
    specialize (Hall _ Hin). cbn in Hall.
    apply andb_true_iff in Hall as [Hall H3].
    apply andb_true_iff in Hall as [H1 H2].
    apply negb_true_iff in H2. auto.
  - intros [Hu Hall]. split; auto. intros [k c] Hin.
    destruct (Hall _ _ Hin) as [H1 [H2 H3]].
    now rewrite H1, H2, H3.
Qed.

Lemma settable_leaf v :
  settable v = true -> is_mapping v = false ->
  wf v = true /\ v <> VUndefined /\ (check_Number v || truthy v) = true
  /\ is_empty_container v = false.
Proof.
  destruct v as [| |b|n|s|t|[|e l]|props]; simpl; try discriminate;
    intuition congruence.
Qed.

Lemma plain_leaf v : plain v = true -> is_mapping v = false -> settable v = true.
Proof. destruct v; simpl; auto; discriminate. Qed.

Lemma plain_wf v : plain v = true -> wf v = true.
Proof.
  induction v as [| |b|n|s|t|elems IH|props IH] using value_induction;
    try reflexivity; try discriminate.
  - destruct elems; [discriminate|auto].
  - intros H. apply plain_mapping in H as [Hu Hall].
    apply wf_mapping. split; auto. intros k c Hin.
    rewrite Forall_forall in IH. apply (IH _ Hin). apply (Hall _ _ Hin).
Qed.

Lemma plain_pruned v : plain v = true -> pruned v = true.
Proof.
  induction v as [| |b|n|s|t|elems IH|props IH] using value_induction;
    try reflexivity.
  intros H. apply plain_mapping in H as [Hu Hall].
  cbn [pruned]. apply forallb_forall. intros [k c] Hin.
  destruct (Hall _ _ Hin) as [_ [H2 H3]]. rewrite H2. simpl.
  rewrite Forall_forall in IH. apply (IH _ Hin H3).
Qed.

Lemma leaf_at_node p v :
  leaf_at p v
  = match node_at p v with
    | Some x => if is_mapping x then None else Some x
    | None => None
    end.
Proof.
  revert v. induction p as [|seg rest IH]; intros v; simpl; auto.
  destruct v; auto. destruct (lookup seg props); auto.
Qed.

Lemma get_segs_node p : forall v,
  clear_of_arrays p v = true ->
  get_segs p v = match node_at p v with Some x => x | None => VUndefined end.
Proof.
  induction p as [|seg rest IH]; intros v Hv; simpl; auto.
  destruct v; auto; [discriminate|]. simpl in *.
  destruct (lookup seg props) as [c|] eqn:E; auto.
Qed.

(** The path that leads to a node is clear of sequences. *)
Lemma node_clear p : forall v x,
  node_at p v = Some x -> clear_of_arrays p v = true.
Proof.
  induction p as [|seg rest IH]; intros v x; simpl; auto.
  destruct v; try discriminate.
  destruct (lookup seg props) as [c|]; eauto.
Qed.

Lemma node_at_app p q v :
  node_at (p ++ q) v
  = match node_at p v with Some x => node_at q x | None => None end.
Proof.
  revert v. induction p as [|seg rest IH]; intros v; simpl; auto.
  destruct v; auto. destruct (lookup seg props); auto.
Qed.

(** The nodes of a plain document are plain; below the root they are not
    empty, and the segments that lead to them have no dot. *)
Lemma plain_node p : forall v x,
  plain v = true -> node_at p v = Some x ->
  plain x = true
  /\ (p <> [] -> is_empty_container x = false)
  /\ Forall (fun s => dot_free s = true) p.
Proof.
  induction p as [|seg rest IH]; intros v x Hv; simpl.
  - intros [= <-]. repeat split; auto. congruence.
  - destruct v; try discriminate.
    destruct (lookup seg props) as [c|] eqn:E; [|discriminate].
    apply lookup_In in E. apply plain_mapping in Hv as [_ Hall].
    destruct (Hall _ _ E) as [H1 [H2 H3]]. intros Hn.
    destruct (IH c x H3 Hn) as [Hx [Hne Hdots]].
    split; auto. split.
    + intros _. destruct rest; [|apply Hne; discriminate].
      simpl in Hn. now injection Hn as <-.
    + constructor; auto. unfold segment_like in H1.
      now apply andb_true_iff in H1 as [_ H1].
Qed.

Lemma key_segs_nil allLevels prefix : key_segs allLevels prefix (VObj []) = [].
Proof. reflexivity. Qed.

(** The paths listed by [keyPaths]: the leaves, and with [allLevels] every
    node below the root. *)
Lemma key_segs_spec allLevels v : forall prefix p,
  wf v = true ->
  (In p (key_segs allLevels prefix v) <->
   exists q x, q <> [] /\ p = prefix ++ q /\ node_at q v = Some x
               /\ (allLevels = true \/ is_mapping x = false)).
Proof.
  induction v as [| |b|n|s|t|elems IH|props IH] using value_induction;
    intros prefix p Hwf;
    try (split; [contradiction|];
         intros [q [x [Hq [_ [Hn _]]]]]; destruct q; [congruence|discriminate]).
  apply wf_mapping in Hwf as [Hu Hall].
  revert Hu Hall. induction IH as [|[el c] rest Hc _ IHrest]; intros Hu Hall.
  - split; [contradiction|].
    intros [q [x [Hq [_ [Hn _]]]]]. destruct q; [congruence|discriminate].
  - cbn [map fst unique_keys] in Hu.
    apply andb_true_iff in Hu as [Hfresh Hu].
    apply negb_true_iff in Hfresh. rewrite unique_keys_fresh in Hfresh.
    assert (Hallr : forall k c0, In (k, c0) rest -> wf c0 = true)
      by (intros; eapply Hall; right; eauto).
    specialize (IHrest Hu Hallr).
    assert (Hwc : wf c = true) by (eapply Hall; left; reflexivity).
    cbn [snd] in Hc. specialize (Hc (prefix ++ [el]) p Hwc).
    rewrite key_segs_cons, in_app_iff, IHrest. clear IHrest.
    split.
    + intros [Hhead|[q [x [Hq [Hp [Hn Hx]]]]]].
      * assert (Hcases : p = prefix ++ [el] /\ (allLevels = true \/ is_mapping c = false)
                         \/ In p (key_segs allLevels (prefix ++ [el]) c)).
        { destruct c; simpl in Hhead;
            try (destruct Hhead as [<-|[]]; left; split; auto; fail).
          apply in_app_iff in Hhead as [Hh|Hh]; auto.
          destruct allLevels; [|contradiction].
          destruct Hh as [<-|[]]. left. auto. }
        destruct Hcases as [[-> Hx]|Hin].
        -- exists [el], c. repeat split; auto; [discriminate|].
           simpl. now rewrite String.eqb_refl.
        -- apply Hc in Hin as [q [x [Hq [Hp [Hn Hx]]]]].
           exists (el :: q), x. repeat split; auto; [discriminate| |].
           ++ rewrite Hp, <- app_assoc. reflexivity.
           ++ simpl. now rewrite String.eqb_refl.
      * exists q, x. repeat split; auto.
        destruct q as [|k q]; [congruence|]. simpl in *.
        destruct (lookup k rest) as [c'|] eqn:E; [|discriminate].
        destruct (k =? el) eqn:Ek; auto.
        apply String.eqb_eq in Ek. subst k.
        exfalso. apply Hfresh. eapply lookup_in_keys; eauto.
    + intros [q [x [Hq [Hp [Hn Hx]]]]].
      destruct q as [|k q]; [congruence|]. simpl in Hn.
      destruct (k =? el) eqn:Ek.
      * apply String.eqb_eq in Ek. subst k. left.
        destruct q as [|k' q'].
        -- simpl in Hn. injection Hn as <-. subst p.
           destruct c; simpl; auto.
           apply in_app_iff. left.
           destruct Hx as [->|Hx]; [now left|discriminate].
        -- assert (Hin : In p (key_segs allLevels (prefix ++ [el]) c)).
           { apply Hc. exists (k' :: q'), x. repeat split; auto; [discriminate|].
             rewrite Hp, <- app_assoc. reflexivity. }
           destruct c; try (simpl in Hn; discriminate).
           apply in_app_iff. now right.
      * right. exists (k :: q), x. repeat split; auto.
Qed.

End PlainDocuments.

(* ===================================================================== *)
(** * The two passes of [diffToModifier] *)
(* ===================================================================== *)

Section Passes.

Lemma filteredKeyPaths_nil paths : filteredKeyPaths paths [] = paths.
Proof.
  unfold filteredKeyPaths.
  induction paths as [|p paths IH]; simpl; [reflexivity|]. now f_equal.
Qed.

Lemma in_assign_same k v acc : In (k, v) (assign k v acc).
Proof.
  induction acc as [|[k0 v0] rest IH]; simpl; auto.
  destruct (k =? k0); simpl; auto.
Qed.

Lemma in_assign_other k v k0 v0 acc :
  In (k, v) acc -> k <> k0 -> In (k, v) (assign k0 v0 acc).
Proof.
  intros Hin Hne. induction acc as [|[k1 v1] rest IH]; simpl in *; auto.
  destruct (k0 =? k1) eqn:E; simpl.
  - destruct Hin as [Heq|Hin]; auto.
    apply String.eqb_eq in E. injection Heq as -> ->. congruence.
  - destruct Hin; auto.
Qed.

Variables prev doc : value.

Let val (k : string) : value := valueForKeyPath k doc.
Let cond (k : string) : bool := shouldSet (val k) (valueForKeyPath k prev).
Let step (set : list (string * value)) (k : string) : list (string * value) :=
  if cond k then assign k (val k) set else set.

Lemma forward_fold_sound paths : forall acc k v,
  In (k, v) (fold_left step paths acc) ->
  In (k, v) acc \/ (In k paths /\ cond k = true /\ v = val k).
Proof.
  induction paths as [|p paths IH]; intros acc k v Hin; simpl in *; auto.
  apply IH in Hin as [Hin|[H1 H2]]; [|tauto].
  unfold step in Hin. destruct (cond p) eqn:E; auto.
  apply in_assign in Hin as [Heq|Hin]; auto.
  injection Heq as -> ->. right. auto.
Qed.

Lemma forward_fold_keeps paths : forall acc k,
  In (k, val k) acc -> In (k, val k) (fold_left step paths acc).
Proof.
  induction paths as [|p paths IH]; intros acc k Hin; simpl; auto.
  apply IH. unfold step. destruct (cond p); auto.
  destruct (string_dec k p) as [->|Hne].
  - apply in_assign_same.
  - now apply in_assign_other.
Qed.

Lemma forward_fold_complete paths : forall acc k,
  In k paths -> cond k = true -> In (k, val k) (fold_left step paths acc).
Proof.
  induction paths as [|p paths IH]; intros acc k Hin Hc; simpl in *;
    [contradiction|].
  destruct Hin as [->|Hin]; auto.
  apply forward_fold_keeps. unfold step. rewrite Hc. apply in_assign_same.
Qed.

Lemma forward_fold_unique paths : forall acc,
  unique_keys (map fst acc) = true ->
  unique_keys (map fst (fold_left step paths acc)) = true.
Proof.
  induction paths as [|p paths IH]; intros acc Hu; simpl; auto.
  apply IH. unfold step. destruct (cond p); auto using assign_unique.
Qed.

(** The entries recorded by the forward pass, without an ignore list. *)
Lemma forward_pass_spec k v :
  In (k, v) (forward_pass prev doc []) <->
  In k (keyPaths doc false)
  /\ shouldSet (valueForKeyPath k doc) (valueForKeyPath k prev) = true
  /\ v = valueForKeyPath k doc.
Proof.
  unfold forward_pass. rewrite filteredKeyPaths_nil.
  change (In (k, v) (fold_left step (keyPaths doc false) []) <->
          In k (keyPaths doc false) /\ cond k = true /\ v = val k).
  split.
  - intros H. apply forward_fold_sound in H as [[]|H]. exact H.
  - intros [H1 [H2 ->]]. now apply forward_fold_complete.
Qed.

Lemma forward_pass_unique :
  unique_keys (map fst (forward_pass prev doc [])) = true.
Proof.
  unfold forward_pass. rewrite filteredKeyPaths_nil.
  now apply (forward_fold_unique (keyPaths doc false) []).
Qed.

(** The backward pass returns as long as [shouldUnset] does, and records
    the paths on which it answers [true]. *)
Lemma mark_unsets_spec paths : forall acc,
  (forall k, In k paths ->
     exists b, shouldUnset (valueForKeyPath k doc) (valueForKeyPath k prev) = Ok b) ->
  exists u,
    mark_unsets prev doc paths acc = Ok u
    /\ (forall k, In k (map fst u) <->
          In k (map fst acc)
          \/ (In k paths
              /\ shouldUnset (valueForKeyPath k doc) (valueForKeyPath k prev)
                 = Ok true))
    /\ (unique_keys (map fst acc) = true -> unique_keys (map fst u) = true)
    /\ (forall e, In e u -> In e acc \/ snd e = VBool true).
Proof.
  induction paths as [|p paths IH]; intros acc Hok; simpl.
  - exists acc. repeat split; auto. intros [H|[[] _]]. exact H.
  - destruct (Hok p (or_introl eq_refl)) as [b Hb]. rewrite Hb. simpl.
    destruct (IH (if b then assign p (VBool true) acc else acc)) as
      [u [Hu [Hkeys [Huniq Hvals]]]].
    { intros k Hk. apply Hok. now right. }
    exists u. split; [exact Hu|]. split; [|split].
    + intros k. rewrite Hkeys. destruct b.
      * rewrite in_keys_assign. split.
        -- intros [[->|H]|[H1 H2]]; auto.
        -- intros [H|[[->|H1] H2]]; auto.
      * split.
        -- intros [H|[H1 H2]]; auto.
        -- intros [H|[[->|H1] H2]]; auto. congruence.
    + intros H. apply Huniq. destruct b; auto using assign_unique.
    + intros e He. apply Hvals in He as [He|He]; auto.
      destruct b; auto. apply in_assign in He as [->|He]; auto.
Qed.

End Passes.

Section SubsumeList.

Lemma subsume_inner_sub pathA keys : forall m e,
  In e (fold_left
          (fun m' pathB =>
             if _keyPathContainsPath pathA pathB then delete pathA m' else m')
          keys m) -> In e m.
Proof.
  induction keys as [|b keys IH]; intros m e H; simpl in *; auto.
  apply IH in H. destruct (_keyPathContainsPath pathA b); auto.
  now apply in_delete in H.
Qed.

Lemma subsume_inner_unique pathA keys : forall m,
  unique_keys (map fst m) = true ->
  unique_keys
    (map fst
       (fold_left
          (fun m' pathB =>
             if _keyPathContainsPath pathA pathB then delete pathA m' else m')
          keys m)) = true.
Proof.
  induction keys as [|b keys IH]; intros m H; simpl in *; auto.
  apply IH. destruct (_keyPathContainsPath pathA b); auto using delete_unique.
Qed.

Lemma subsume_sub m e : In e (subsume m) -> In e m.
Proof.
  unfold subsume. generalize (map fst m) at 1 as keys0.
  generalize (map fst m) as keys. intros keys. revert m.
  induction keys as [|a keys IH]; intros m keys0 H; simpl in *; auto.
  apply IH in H. now apply subsume_inner_sub in H.
Qed.

Lemma subsume_unique m :
  unique_keys (map fst m) = true -> unique_keys (map fst (subsume m)) = true.
Proof.
  unfold subsume. generalize (map fst m) at 2 as keys0.
  generalize (map fst m) at 2 as keys. intros keys. revert m.
  induction keys as [|a keys IH]; intros m keys0 H; simpl in *; auto.
  apply IH. now apply subsume_inner_unique.
Qed.

Lemma is_prefix_refl p : is_prefix p p = true.
Proof. induction p; simpl; auto. now rewrite String.eqb_refl. Qed.

Lemma is_prefix_trans p q r :
  is_prefix p q = true -> is_prefix q r = true -> is_prefix p r = true.
Proof.
  rewrite !is_prefix_app. intros [e1 ->] [e2 ->].
  exists (e1 ++ e2). now rewrite app_assoc.
Qed.

(** Every recorded path has an ancestor, or itself, that survives the
    subsumption. *)
Lemma subsume_covers m : forall a,
  In a (map fst m) ->
  exists u, In u (map fst (subsume m))
            /\ is_prefix (split u) (split a) = true.
Proof.
  assert (H : forall n a, List.length (split a) <= n -> In a (map fst m) ->
             exists u, In u (map fst (subsume m))
                       /\ is_prefix (split u) (split a) = true).
  { induction n as [|n IH]; intros a Hlen Hin.
    - pose proof (split_nonempty a). destruct (split a); [congruence|].
      simpl in Hlen. lia.
    - destruct (existsb (fun b => _keyPathContainsPath a b) (map fst m)) eqn:E.
      + apply existsb_exists in E as [b [Hb Hab]].
        pose proof Hab as Hab'. unfold _keyPathContainsPath in Hab'.
        apply andb_true_iff in Hab' as [Hlt Hpre]. apply Nat.ltb_lt in Hlt.
        destruct (IH b) as [u [Hu Hub]]; [lia|assumption|].
        exists u. split; auto. eapply is_prefix_trans; eauto.
      + exists a. split; [|apply is_prefix_refl].
        apply subsume_keys. split; auto. intros b Hb.
        destruct (_keyPathContainsPath a b) eqn:Eab; auto.
        assert (existsb (fun b => _keyPathContainsPath a b) (map fst m) = true);
          [|congruence].
        apply existsb_exists. eauto. }
  intros a. apply (H (List.length (split a))). lia.
Qed.

End SubsumeList.

(* ===================================================================== *)
(** * The leaf map after a run of sets and a run of unsets *)
(* ===================================================================== *)

Definition comparable (p q : list string) : bool :=
  is_prefix p q || is_prefix q p.

(** What the [each] of [$set] leaves at the path [p], from what was there. *)
Fixpoint after_sets (entries : list (string * value)) (p : list string)
  (base : option value) : option value :=
  match entries with
  | [] => base
  | (keyPath, val) :: rest =>
      after_sets rest p
        (if check_Number val || truthy val then
           if is_prefix (split keyPath) p
           then leaf_at (skipn (List.length (split keyPath)) p) val
           else if is_prefix p (split keyPath) then None else base
         else base)
  end.

(** What the [each] of [$unset] leaves at the path [p]. *)
Definition after_unsets (entries : list (string * value)) (p : list string)
  (base : option value) : option value :=
  if existsb (fun e => is_prefix (split (fst e)) p) entries then None else base.

(** The documents on which the writes along the paths [P] can be followed
    leaf by leaf: mappings with unique keys in which no path of [P] walks
    into a sequence. *)
Definition safe (P : list (list string)) (D : value) : Prop :=
  is_mapping D = true /\ wf D = true
  /\ forall q, In q P -> clear_of_arrays q D = true.

(** An entry of a run of sets over [P]: its path is one of [P], and no
    path of [P] walks into a sequence of the value it writes. *)
Definition entry_ok (P : list (list string)) (e : string * value) : Prop :=
  In (split (fst e)) P /\ wf (snd e) = true
  /\ forall q, In q P -> is_prefix (split (fst e)) q = true ->
       clear_of_arrays (skipn (List.length (split (fst e))) q) (snd e) = true.

(** A value that [$set] writes as a leaf. *)
Definition written_leaf (v : value) : Prop :=
  is_mapping v = false /\ (check_Number v || truthy v) = true.

Section Runs.

Variable P : list (list string).

Lemma safe_set_entry D e : safe P D -> entry_ok P e -> safe P (set_entry D e).
Proof.
  intros [Hm [Hw Hc]] [Hin [Hwv Hcv]]. destruct e as [k v]. simpl in *.
  destruct (check_Number v || truthy v) eqn:E; [|repeat split; auto].
  destruct D as [| | | | | | |props]; try discriminate.
  unfold setValueForKeyPath. repeat split.
  - apply is_mapping_set_segs.
  - now apply wf_set_segs.
  - intros q Hq. apply clear_set_segs; auto.
    + apply split_nonempty.
    + intros ->. discriminate.
Qed.

Lemma safe_unset_entry D e : safe P D -> safe P (unset_entry D e).
Proof.
  intros [Hm [Hw Hc]]. destruct e as [k v]. simpl.
  destruct D as [| | | | | | |props]; try discriminate.
  unfold unsetKeyPath. repeat split.
  - apply is_mapping_unset_segs.
  - now apply wf_unset_segs.
  - intros q Hq. apply clear_unset_segs; auto.
Qed.

Lemma safe_prune D : safe P D -> safe P (prune D).
Proof.
  intros [Hm [Hw Hc]]. repeat split.
  - destruct D; try discriminate. reflexivity.
  - now apply prune_wf.
  - intros q Hq. apply clear_prune; auto.
Qed.

Lemma leaf_at_fold_set entries : forall D,
  safe P D -> (forall e, In e entries -> entry_ok P e) ->
  safe P (fold_left set_entry entries D)
  /\ forall p, leaf_at p (fold_left set_entry entries D)
               = after_sets entries p (leaf_at p D).
Proof.
  induction entries as [|[k v] rest IH]; intros D HD Hall; simpl; auto.
  pose proof (Hall (k, v) (or_introl eq_refl)) as Hok.
  pose proof (safe_set_entry D (k, v) HD Hok) as Hsafe.
  destruct (IH _ Hsafe) as [Hg Hleaf].
  { intros e He. apply Hall. now right. }
  split; auto. intros p. rewrite Hleaf. f_equal.
  unfold set_entry. destruct (check_Number v || truthy v) eqn:E; auto.
  destruct HD as [Hm [Hwf Hc]]. destruct Hok as [Hin _].
  destruct D as [| | | | | | |props]; try discriminate.
  unfold setValueForKeyPath. apply leaf_at_set_segs; auto.
  - apply split_nonempty.
  - intros ->. discriminate.
Qed.

Lemma leaf_at_fold_unset entries : forall D,
  safe P D -> (forall e, In e entries -> In (split (fst e)) P) ->
  safe P (fold_left unset_entry entries D)
  /\ forall p, leaf_at p (fold_left unset_entry entries D)
               = after_unsets entries p (leaf_at p D).
Proof.
  unfold after_unsets.
  induction entries as [|[k v] rest IH]; intros D HD Hall; simpl; auto.
  pose proof (safe_unset_entry D (k, v) HD) as Hsafe.
  destruct (IH _ Hsafe) as [Hg Hleaf].
  { intros e He. apply Hall. now right. }
  split; auto. intros p. rewrite Hleaf.
  destruct (existsb (fun e => is_prefix (split (fst e)) p) rest);
    [now rewrite orb_true_r|]. rewrite orb_false_r.
  destruct HD as [Hm [Hwf Hc]].
  destruct D as [| | | | | | |props]; try discriminate.
  unfold unset_entry, unsetKeyPath. apply leaf_at_unset_segs; auto.
  - apply split_nonempty.
  - apply Hc. apply (Hall (k, v)). now left.
Qed.

End Runs.

Section RunsOnLeaves.

Lemma after_sets_miss entries p : forall base,
  (forall e, In e entries -> comparable (split (fst e)) p = false) ->
  after_sets entries p base = base.
Proof.
  induction entries as [|[k v] rest IH]; intros base H; simpl; auto.
  rewrite IH by (intros e He; apply H; now right).
  specialize (H (k, v) (or_introl eq_refl)). unfold comparable in H. simpl in H.
  apply orb_false_iff in H as [H1 H2]. rewrite H1, H2.
  now destruct (check_Number v || truthy v).
Qed.

Lemma skipn_prefix_nonempty (p q : list string) :
  is_prefix p q = true -> p <> q -> skipn (List.length p) q <> [].
Proof.
  rewrite is_prefix_app. intros [e ->] Hne.
  rewrite skipn_app, Nat.sub_diag, skipn_all. simpl.
  intros ->. apply Hne. now rewrite app_nil_r.
Qed.

Lemma after_sets_hit entries p k v : forall base,
  (forall e, In e entries -> written_leaf (snd e)) ->
  In (k, v) entries -> split k = p ->
  (forall e, In e entries -> comparable (split (fst e)) p = true -> e = (k, v)) ->
  after_sets entries p base = Some v.
Proof.
  induction entries as [|[k0 v0] rest IH]; intros base Hpres Hin Hk Honly;
    [contradiction|]. simpl.
  destruct (existsb (fun e => comparable (split (fst e)) p) rest) eqn:E.
  - apply existsb_exists in E as [e [He Hcmp]].
    apply IH; auto.
    + intros e' He'. apply Hpres. now right.
    + rewrite <- (Honly e (or_intror He) Hcmp). exact He.
    + intros e' He'. apply Honly. now right.
  - rewrite after_sets_miss.
    2:{ intros e He. destruct (comparable (split (fst e)) p) eqn:Ec; auto.
        assert (existsb (fun e => comparable (split (fst e)) p) rest = true);
          [|congruence].
        apply existsb_exists. eauto. }
    destruct Hin as [Heq|Hin].
    + injection Heq as -> ->.
      destruct (Hpres (k, v) (or_introl eq_refl)) as [Hm Hc]. simpl in Hm, Hc.
      rewrite Hc, Hk, is_prefix_refl, skipn_all. simpl. now rewrite Hm.
    + exfalso.
      assert (existsb (fun e => comparable (split (fst e)) p) rest = true);
        [|congruence].
      apply existsb_exists. exists (k, v). split; auto.
      unfold comparable. simpl. now rewrite Hk, is_prefix_refl.
Qed.

Lemma after_sets_shadow entries p : forall base,
  (forall e, In e entries -> written_leaf (snd e)) ->
  (exists e, In e entries /\ comparable (split (fst e)) p = true) ->
  (forall e, In e entries -> split (fst e) <> p) ->
  after_sets entries p base = None.
Proof.
  induction entries as [|[k0 v0] rest IH]; intros base Hpres Hex Hne.
  - destruct Hex as [e [[] _]].
  - simpl.
    destruct (existsb (fun e => comparable (split (fst e)) p) rest) eqn:E.
    + apply existsb_exists in E as [e [He Hcmp]].
      apply IH; eauto.
      * intros e' He'. apply Hpres. now right.
      * intros e' He'. apply Hne. now right.
    + rewrite after_sets_miss.
      2:{ intros e He. destruct (comparable (split (fst e)) p) eqn:Ec; auto.
          assert (existsb (fun e => comparable (split (fst e)) p) rest = true);
            [|congruence].
          apply existsb_exists. eauto. }
      destruct Hex as [e [[<-|He] Hcmp]].
      * destruct (Hpres (k0, v0) (or_introl eq_refl)) as [Hm Hc].
        simpl in Hm, Hc.
        rewrite Hc. simpl in Hcmp. unfold comparable in Hcmp.
        destruct (is_prefix (split k0) p) eqn:E1.
        -- apply leaf_at_below_leaf; auto.
           apply skipn_prefix_nonempty; auto.
           apply (Hne (k0, v0)). now left.
        -- simpl in Hcmp. now rewrite Hcmp.
      * exfalso.
        assert (existsb (fun e => comparable (split (fst e)) p) rest = true);
          [|congruence].
        apply existsb_exists. eauto.
Qed.



End RunsOnLeaves.

(* ===================================================================== *)
(** * [apply] as a run of sets, a run of unsets and [prune] *)
(* ===================================================================== *)

(** The entries that [$set(dest, source)] hands to [setValueForKeyPath],
    in order: those of [source.$set] when [source] looks like a modifier,
    then those of [source] itself. *)
Fixpoint set_run (source : value) : list (string * value) :=
  match source with
  | VObj props =>
      (if truthy (field source "$set") || truthy (field source "$unset") then
         (fix find (l : list (string * value)) : list (string * value) :=
            match l with
            | [] => []
            | (k, v) :: rest => if "$set" =? k then set_run v else find rest
            end) props
       else []) ++ props
  | VArr _ => entries source
  | _ => []
  end.

(** The entries whose paths [$unset(dest, source)] hands to
    [unsetKeyPath], in order. *)
Fixpoint unset_run (source : value) : list (string * value) :=
  match source with
  | VObj props =>
      (if truthy (field source "$unset") || truthy (field source "$set") then
         (fix find (l : list (string * value)) : list (string * value) :=
            match l with
            | [] => []
            | (k, v) :: rest => if "$unset" =? k then unset_run v else find rest
            end) props
       else []) ++ props
  | VArr _ => entries source
  | _ => []
  end.

(** The modifier that [apply] works with: the source itself when it has a
    [$set] or an [$unset], the result of [objToModifier] otherwise. *)
Definition effective (source : value) : value :=
  if truthy (field source "$set") || truthy (field source "$unset") then source
  else match objToModifier source with
       | Ok m => m
       | Throw _ => VUndefined
       end.

(** The paths that [apply(dest, source)] writes or removes. *)
Definition written_paths (source : value) : list (list string) :=
  map (fun e => split (fst e))
      (set_run (effective source) ++ unset_run (effective source)).



Section ApplyRuns.

Lemma set_run_mapping props :
  set_run (VObj props)
  = (if truthy (field (VObj props) "$set")
        || truthy (field (VObj props) "$unset")
     then match lookup "$set" props with
          | Some v => set_run v
          | None => []
          end
     else []) ++ props.
Proof.
  cbn [set_run]. f_equal.
  destruct (truthy (field (VObj props) "$set")
            || truthy (field (VObj props) "$unset")); [|reflexivity].
  induction props as [|[k v] rest IH]; cbn [lookup]; auto.
  destruct ("$set" =? k); auto.
Qed.

Lemma unset_run_mapping props :
  unset_run (VObj props)
  = (if truthy (field (VObj props) "$unset")
        || truthy (field (VObj props) "$set")
     then match lookup "$unset" props with
          | Some v => unset_run v
          | None => []
          end
     else []) ++ props.
Proof.
  cbn [unset_run]. f_equal.
  destruct (truthy (field (VObj props) "$unset")
            || truthy (field (VObj props) "$set")); [|reflexivity].
  induction props as [|[k v] rest IH]; cbn [lookup]; auto.
  destruct ("$unset" =? k); auto.
Qed.

Lemma dollar_set_run source : forall dest,
  dollar_set source dest = fold_left set_entry (set_run source) dest.
Proof.
  induction source as [| |b|n|s|t|elems IH|props IH] using value_induction;
    intros dest; try (now apply dollar_set_leaf).
  - reflexivity.
  - rewrite dollar_set_mapping, set_run_mapping, fold_left_app. f_equal.
    destruct (truthy (field (VObj props) "$set")
              || truthy (field (VObj props) "$unset")); [|reflexivity].
    destruct (lookup "$set" props) as [v|] eqn:E; [|reflexivity].
    apply lookup_In in E. rewrite Forall_forall in IH. apply (IH _ E).
Qed.

Lemma dollar_unset_run source : forall dest,
  dollar_unset source dest = fold_left unset_entry (unset_run source) dest.
Proof.
  induction source as [| |b|n|s|t|elems IH|props IH] using value_induction;
    intros dest; try (now apply dollar_unset_leaf).
  - reflexivity.
  - rewrite dollar_unset_mapping, unset_run_mapping, fold_left_app. f_equal.
    destruct (truthy (field (VObj props) "$unset")
              || truthy (field (VObj props) "$set")); [|reflexivity].
    destruct (lookup "$unset" props) as [v|] eqn:E; [|reflexivity].
    apply lookup_In in E. rewrite Forall_forall in IH. apply (IH _ E).
Qed.

(** [apply] with a truthy source. *)
Lemma apply_runs dest source :
  truthy source = true ->
  apply dest source
  = Ok (prune (fold_left unset_entry (unset_run (effective source))
                 (fold_left set_entry (set_run (effective source)) dest))).
Proof.
  intros Ht. unfold apply, effective. rewrite Ht. cbn [negb].
  destruct (truthy (field source "$set") || truthy (field source "$unset")).
  - now rewrite dollar_set_run, dollar_unset_run.
  - rewrite (objToModifier_eq source Ht). cbn [bind].
    now rewrite dollar_set_run, dollar_unset_run.
Qed.




Lemma after_sets_app l1 l2 p : forall base,
  after_sets (l1 ++ l2) p base = after_sets l2 p (after_sets l1 p base).
Proof.
  induction l1 as [|[k v] l1 IH]; intros base; simpl; auto.
Qed.

Lemma after_unsets_app l1 l2 p base :
  after_unsets (l1 ++ l2) p base = after_unsets l2 p (after_unsets l1 p base).
Proof.
  unfold after_unsets. rewrite existsb_app.
  destruct (existsb _ l1); simpl; auto. now destruct (existsb _ l2).
Qed.



(** The leaf map of the document returned by [apply], for a truthy source
    whose paths stay clear of sequences. *)
Lemma apply_leaf source D :
  truthy source = true -> wf source = true ->
  safe (written_paths source) D ->
  (forall e, In e (set_run (effective source)) ->
             entry_ok (written_paths source) e) ->
  exists r,
    apply D source = Ok r
    /\ safe (written_paths source) r
    /\ pruned r = true
    /\ forall p,
         leaf_at p r
         = drop_empty (after_unsets (unset_run (effective source)) p
                         (after_sets (set_run (effective source)) p
                            (leaf_at p D))).
Proof.
  intros Ht Hw HD Hok.
  set (P := written_paths source) in *.
  destruct (leaf_at_fold_set P (set_run (effective source)) D HD Hok)
    as [H1 Hleaf1].
  destruct (leaf_at_fold_unset P (unset_run (effective source)) _ H1)
    as [H2 Hleaf2].
  { intros e He. unfold P, written_paths. apply in_map_iff.
    exists e. split; auto. apply in_or_app. now right. }
  eexists. split; [now apply apply_runs|].
  split; [now apply safe_prune|]. split; [apply prune_pruned|].
  intros p. destruct H2 as [Hm2 [Hw2 _]].
  now rewrite leaf_at_prune, Hleaf2, Hleaf1.
Qed.


End ApplyRuns.



(* ===================================================================== *)
(** * [apply] on the modifiers built by [diffToModifier] *)
(* ===================================================================== *)

(** The fields left in [delta] after lines 100-105. *)
Definition modifier_fields (set unset : list (string * value))
  : list (string * value) :=
  let delta := [("$set", VObj set); ("$unset", VObj unset)] in
  let delta := if (List.length set =? 0)%nat then delete "$set" delta else delta in
  if (List.length unset =? 0)%nat then delete "$unset" delta else delta.

Definition modifier_of (set unset : list (string * value)) : value :=
  if negb (List.length (modifier_fields set unset) =? 0)%nat
  then VObj (modifier_fields set unset) else VUndefined.

Section ApplyDiff.

Variables set unset : list (string * value).
Hypothesis set_plain_keys :
  lookup "$set" set = None /\ lookup "$unset" set = None.
Hypothesis unset_plain_keys :
  lookup "$set" unset = None /\ lookup "$unset" unset = None.

Lemma modifier_fields_cases :
  (set = [] /\ unset = [] /\ modifier_fields set unset = [])
  \/ (set <> [] /\ unset = []
      /\ modifier_fields set unset = [("$set", VObj set)])
  \/ (set = [] /\ unset <> []
      /\ modifier_fields set unset = [("$unset", VObj unset)])
  \/ (set <> [] /\ unset <> []
      /\ modifier_fields set unset
         = [("$set", VObj set); ("$unset", VObj unset)]).
Proof.
  unfold modifier_fields. destruct set, unset; simpl.
  - left. auto.
  - right. right. left. repeat split; auto. discriminate.
  - right. left. repeat split; auto. discriminate.
  - right. right. right. repeat split; auto; discriminate.
Qed.

Lemma set_run_entries : set_run (VObj set) = set.
Proof.
  rewrite set_run_mapping. destruct set_plain_keys as [H1 H2].
  cbn [field]. now rewrite H1, H2.
Qed.

Lemma unset_run_entries : unset_run (VObj unset) = unset.
Proof.
  rewrite unset_run_mapping. destruct unset_plain_keys as [H1 H2].
  cbn [field]. now rewrite H1, H2.
Qed.

(** The two runs of [apply] on a modifier built by [diffToModifier]: the
    entries of the field, then the fields of the modifier themselves. *)
Lemma modifier_runs :
  modifier_fields set unset <> [] ->
  effective (VObj (modifier_fields set unset)) = VObj (modifier_fields set unset)
  /\ set_run (VObj (modifier_fields set unset))
     = set ++ modifier_fields set unset
  /\ unset_run (VObj (modifier_fields set unset))
     = unset ++ modifier_fields set unset.
Proof.
  intros Hne. unfold effective.
  rewrite set_run_mapping, unset_run_mapping.
  destruct modifier_fields_cases as
    [[_ [_ E]]|[[Hs [Hu E]]|[[Hs [Hu E]]|[Hs [Hu E]]]]];
    rewrite E in *; [congruence| | |].
  - subst unset. cbn [field]. simpl lookup. cbn [truthy orb].
    now rewrite set_run_entries.
  - subst set. cbn [field]. simpl lookup. cbn [truthy orb].
    now rewrite unset_run_entries.
  - cbn [field]. simpl lookup. cbn [truthy orb].
    now rewrite set_run_entries, unset_run_entries.
Qed.

Lemma modifier_of_truthy :
  modifier_fields set unset <> [] ->
  modifier_of set unset = VObj (modifier_fields set unset).
Proof.
  intros Hne. unfold modifier_of.
  destruct (modifier_fields set unset); [congruence|reflexivity].
Qed.

Lemma modifier_of_empty :
  modifier_fields set unset = [] ->
  modifier_of set unset = VUndefined /\ set = [] /\ unset = [].
Proof.
  intros He. unfold modifier_of. rewrite He.
  destruct modifier_fields_cases as
    [[-> [-> _]]|[[Hs [Hu E]]|[[Hs [Hu E]]|[Hs [Hu E]]]]];
    try (rewrite He in E; discriminate). auto.
Qed.

End ApplyDiff.

(* ===================================================================== *)
(** * Round trip *)
(* ===================================================================== *)

(** [Object.keys(v)] is empty. *)
Definition has_no_keys (v : value) : bool :=
  match Object_keys v with
  | Ok [] => true
  | _ => false
  end.

(** At no keypath of [A] does [B] hold a value without own keys (a number,
    a boolean, a date) where [A] holds a value of type 'object' (a
    mapping, a sequence, a date): the inputs on which line 59 of
    [shouldUnset] would flag a value that has just been set. *)
Definition no_object_overwritten (A B : value) : bool :=
  forallb (fun kp => negb (typeof_object (valueForKeyPath kp A)
                           && has_no_keys (valueForKeyPath kp B)))
          (keyPaths A true).

(** No keypath of one document walks into a sequence of the other: the
    keypaths of [A], branches included, stay clear of the sequences of
    [B], and the leaf keypaths of [B] stay clear of those of [A]. *)
Definition no_sequence_entered (A B : value) : bool :=
  forallb (fun kp => clear_of_arrays (split kp) B) (keyPaths A true)
  && forallb (fun kp => clear_of_arrays (split kp) A) (keyPaths B false).

Definition doc_a_xy : value :=
  VObj [("a", VObj [("x", VNum 1); ("y", VStr "s")]); ("b", VNum 2);
        ("c", VDate 5)].
Definition doc_b_xz : value :=
  VObj [("a", VObj [("x", VNum 0); ("z", VBool true)]); ("b", VStr "two");
        ("d", VObj [("e", VDate 7)])].

Definition doc_a_seq : value :=
  VObj [("a", VArr [VNum 1; VNum 2]); ("b", VNum 1);
        ("k", VArr [VStr "same"; VObj [("n", VNull)]]);
        ("o", VObj [("p", VArr [VBool false])])].
Definition doc_b_seq : value :=
  VObj [("a", VArr [VNum 1; VNum 3]); ("c", VStr "x");
        ("k", VArr [VStr "same"; VObj [("n", VNull)]]);
        ("o", VObj [("q", VArr [VNum 0; VArr []])])].

Section Classifier.

Lemma shouldUnset_total val prev :
  truthy prev || check_Number prev = true ->
  exists b, shouldUnset val prev = Ok b.
Proof.
  intros Hp. unfold shouldUnset. rewrite Hp. simpl.
  destruct (truthy val || check_Number val) eqn:Hv; simpl; [|eauto].
  destruct (not_null val && typeof_object prev); [|eauto].
  destruct val; try discriminate; simpl; eauto;
    match goal with |- context [if ?c then _ else _] => destruct c end; eauto.
Qed.

Lemma shouldUnset_absent prev :
  truthy prev || check_Number prev = true ->
  shouldUnset VUndefined prev = Ok true.
Proof. intros Hp. unfold shouldUnset. now rewrite Hp. Qed.

Lemma shouldUnset_mapping e l prev : shouldUnset (VObj (e :: l)) prev = Ok false.
Proof.
  unfold shouldUnset. simpl. rewrite andb_false_r.
  now destruct (typeof_object prev).
Qed.

Lemma shouldUnset_settable v prev :
  settable v = true -> shouldUnset v prev = Ok true ->
  typeof_object prev && has_no_keys v = true.
Proof.
  intros Hv. unfold shouldUnset.
  assert (Hm : is_mapping v = false) by (destruct v; auto; discriminate).
  destruct (settable_leaf v Hv Hm) as [_ [_ [Hc _]]].
  rewrite orb_comm in Hc. rewrite orb_comm, Hc, andb_false_r.
  destruct v as [| |b|n|s|t|[|e l]|props]; try discriminate; simpl;
    destruct (typeof_object prev); simpl; auto; try discriminate.
  unfold has_no_keys. simpl.
  destruct (map index_name (seq 0 (String.length s))); simpl; auto.
  discriminate.
Qed.

Lemma shouldSet_undefined_settable v :
  settable v = true -> shouldSet v VUndefined = true.
Proof.
  unfold shouldSet.
  destruct v as [| |b|n|s|t|[|e l]|props]; simpl; try discriminate; auto;
    intros H; now rewrite H.
Qed.

(** A settable value that [shouldSet] leaves alone is deeply equal to the
    previous value, which is a leaf as well. *)
Lemma shouldSet_false_settable v prev :
  settable v = true -> shouldSet v prev = false ->
  isEqual prev v = true /\ is_mapping prev = false.
Proof.
  unfold shouldSet. destruct v as [| |b|n|s|t|[|e l]|props]; simpl;
    try discriminate.
  - intros -> H. apply negb_false_iff in H.
    destruct prev; try discriminate. simpl in H. auto.
  - intros _ H. apply orb_false_iff in H as [H _].
    apply negb_false_iff in H. destruct prev; try discriminate. auto.
  - intros Hs. rewrite Hs. intros H. apply negb_false_iff in H.
    destruct prev; try discriminate. auto.
  - intros _ H. apply orb_false_iff in H as [H1 H2].
    destruct prev; try discriminate. simpl in H2.
    apply negb_false_iff in H2. simpl. rewrite Z.eqb_sym. auto.
  - intros _ H. apply negb_false_iff in H.
    destruct prev; try discriminate. auto.
Qed.

Lemma plain_node_live x :
  plain x = true -> is_empty_container x = false ->
  truthy x || check_Number x = true.
Proof.
  destruct x as [| |b|n|s|t|l|props]; simpl; try discriminate; auto.
  - intros ->. auto.
  - intros _ _. apply orb_true_r.
  - intros ->. auto.
Qed.

End Classifier.

Section PlainPaths.

Variable D : value.
Hypothesis D_plain : plain D = true.

(** Below a node, a path is clear of sequences when what is left of it
    is clear in the node. *)
Lemma clear_app p : forall e v y,
  node_at p v = Some y ->
  clear_of_arrays (p ++ e) v = clear_of_arrays e y.
Proof.
  induction p as [|seg rest IH]; intros e v y; simpl.
  - now intros [= ->].
  - destruct v; try discriminate.
    destruct (lookup seg props) as [c|]; [|discriminate]. apply IH.
Qed.

Lemma plain_split_render q x :
  q <> [] -> node_at q D = Some x -> split (render q) = q.
Proof.
  intros Hq Hn. apply split_render; auto.
  apply (plain_node q D x D_plain Hn).
Qed.

(** The paths of [keyPaths(D, {allLevels: true})]. *)
Lemma plain_keyPaths_all k :
  In k (keyPaths D true) <->
  exists q x, k = render q /\ split k = q /\ q <> [] /\ node_at q D = Some x.
Proof.
  rewrite keyPaths_render, in_map_iff. split.
  - intros [q [<- Hin]].
    apply key_segs_spec in Hin as [q' [x [Hq [Hp [Hn _]]]]];
      [|now apply plain_wf].
    simpl in Hp. subst q'. exists q, x. repeat split; auto.
    eapply plain_split_render; eauto.
  - intros [q [x [-> [_ [Hq Hn]]]]]. exists q. split; auto.
    apply key_segs_spec; [now apply plain_wf|].
    exists q, x. repeat split; auto.
Qed.

(** The paths of [keyPaths(D)]. *)
Lemma plain_keyPaths_leaves k :
  In k (keyPaths D false) <->
  exists q v, k = render q /\ split k = q /\ q <> [] /\ leaf_at q D = Some v.
Proof.
  rewrite keyPaths_render, in_map_iff. split.
  - intros [q [<- Hin]].
    apply key_segs_spec in Hin as [q' [x [Hq [Hp [Hn Hx]]]]];
      [|now apply plain_wf].
    simpl in Hp. subst q'. exists q, x. repeat split; auto.
    + eapply plain_split_render; eauto.
    + rewrite leaf_at_node, Hn.
      destruct Hx as [Hx|Hx]; [discriminate|now rewrite Hx].
  - intros [q [v [-> [_ [Hq Hl]]]]]. exists q. split; auto.
    apply key_segs_spec; [now apply plain_wf|].
    rewrite leaf_at_node in Hl.
    destruct (node_at q D) as [x|] eqn:Hn; [|discriminate].
    destruct (is_mapping x) eqn:Hm; [discriminate|]. injection Hl as ->.
    exists q, v. repeat split; auto.
Qed.

Lemma plain_leaf_settable q v :
  leaf_at q D = Some v -> q <> [] -> settable v = true.
Proof.
  rewrite leaf_at_node. destruct (node_at q D) as [x|] eqn:Hn; [|discriminate].
  destruct (is_mapping x) eqn:Hm; [discriminate|]. intros [= <-] _.
  apply plain_leaf; auto. apply (plain_node q D x D_plain Hn).
Qed.

(** A leaf sits below mappings, and nothing sits below a leaf. *)
Lemma leaf_above q e v :
  leaf_at (q ++ e) D = Some v ->
  exists y, node_at q D = Some y /\ leaf_at e y = Some v
            /\ (e <> [] -> exists f l, y = VObj (f :: l)).
Proof.
  rewrite leaf_at_node, node_at_app.
  destruct (node_at q D) as [y|] eqn:Hn; [|discriminate].
  intros H. exists y. split; auto. split.
  - now rewrite leaf_at_node.
  - intros He. destruct e as [|s e]; [congruence|].
    destruct y; try discriminate. simpl in H.
    destruct props; [discriminate|]. eauto.
Qed.

Lemma leaf_paths_incomparable p q v w :
  leaf_at p D = Some v -> leaf_at q D = Some w ->
  comparable p q = true -> p = q.
Proof.
  assert (H : forall p q v w, leaf_at p D = Some v -> leaf_at q D = Some w ->
                              is_prefix p q = true -> p = q).
  { clear. intros p q v w Hp Hq Hpre.
    apply is_prefix_app in Hpre as [e ->].
    destruct e as [|s e]; [now rewrite app_nil_r|].
    rewrite leaf_at_node, node_at_app in Hq. rewrite leaf_at_node in Hp.
    destruct (node_at p D) as [x|]; [|discriminate].
    destruct (is_mapping x) eqn:Hm; [discriminate|].
    destruct x; discriminate. }
  intros Hp Hq Hc. unfold comparable in Hc.
  apply orb_true_iff in Hc as [Hc|Hc]; [|symmetry]; eauto.
Qed.

Hypothesis D_mapping : is_mapping D = true.
Hypothesis D_keys : no_reserved_keys D = true.

Lemma plain_not_reserved q x :
  q <> [] -> node_at q D = Some x -> reserved_first q = false.
Proof.
  destruct q as [|s q]; [congruence|]. intros _. simpl.
  destruct D; try discriminate.
  destruct (lookup s props) as [c|] eqn:E; [|discriminate]. intros _.
  apply lookup_In in E. simpl in D_keys.
  rewrite forallb_forall in D_keys. specialize (D_keys _ E). simpl in D_keys.
  now apply negb_true_iff in D_keys.
Qed.

Lemma plain_reserved_absent p :
  p = [] \/ reserved_first p = true -> leaf_at p D = None.
Proof.
  intros [->|H].
  - simpl. now rewrite D_mapping.
  - rewrite leaf_at_node. destruct (node_at p D) as [x|] eqn:Hn; auto.
    rewrite (plain_not_reserved p x) in H; [discriminate| |assumption].
    intros ->. discriminate.
Qed.

End PlainPaths.

Section RoundTrip.

Variables A B : value.
Hypothesis A_doc : plain_document A = true.
Hypothesis B_doc : plain_document B = true.
Hypothesis no_slip : no_object_overwritten A B = true.
Hypothesis no_entry : no_sequence_entered A B = true.

Lemma plain_document_parts D :
  plain_document D = true ->
  is_mapping D = true /\ plain D = true /\ no_reserved_keys D = true.
Proof.
  unfold plain_document. intros H.
  apply andb_true_iff in H as [H H3]. apply andb_true_iff in H as [H1 H2].
  auto.
Qed.

Let A_mapping := proj1 (plain_document_parts A A_doc).
Let A_plain := proj1 (proj2 (plain_document_parts A A_doc)).
Let A_keys := proj2 (proj2 (plain_document_parts A A_doc)).
Let B_mapping := proj1 (plain_document_parts B B_doc).
Let B_plain := proj1 (proj2 (plain_document_parts B B_doc)).
Let B_keys := proj2 (proj2 (plain_document_parts B B_doc)).

(** The value of [A] at one of its keypaths is a live node. *)
Lemma backward_value k :
  In k (keyPaths A true) ->
  exists q x, split k = q /\ q <> [] /\ node_at q A = Some x
              /\ valueForKeyPath k A = x
              /\ truthy x || check_Number x = true.
Proof.
  intros Hin. apply (plain_keyPaths_all A A_plain) in Hin
    as [q [x [Hk [Hs [Hq Hn]]]]].
  exists q, x. repeat split; auto.
  - unfold valueForKeyPath.
    now rewrite Hs, (get_segs_node q A (node_clear q A x Hn)), Hn.
  - destruct (plain_node q A x A_plain Hn) as [Hx [Hne _]].
    apply plain_node_live; auto.
Qed.

Lemma backward_pass_returns :
  exists u,
    backward_pass A B [] = Ok u
    /\ (forall k, In k (map fst u) <->
          In k (keyPaths A true)
          /\ shouldUnset (valueForKeyPath k B) (valueForKeyPath k A) = Ok true)
    /\ unique_keys (map fst u) = true
    /\ (forall e, In e u -> snd e = VBool true).
Proof.
  unfold backward_pass. rewrite filteredKeyPaths_nil.
  destruct (mark_unsets_spec A B (keyPaths A true) []) as [u [Hu [Hk [Hq Hv]]]].
  - intros k Hin. destruct (backward_value k Hin) as [q [x [_ [_ [_ [-> Hx]]]]]].
    now apply shouldUnset_total.
  - exists u. split; auto. split; [|split]; auto.
    + intros k. rewrite Hk. simpl. tauto.
    + intros e He. destruct (Hv e He) as [[]|H]. exact H.
Qed.

Lemma diff_of_passes u :
  backward_pass A B [] = Ok u ->
  diffToModifier A B None false
  = Ok (modifier_of (forward_pass A B []) (subsume u)).
Proof.
  intros Hu. unfold diffToModifier, diff_pass. simpl or_empty.
  assert (HA : truthy A = true) by (destruct A; auto; discriminate).
  assert (HB : truthy B = true) by (destruct B; auto; discriminate).
  rewrite HA, HB, Hu. cbn [bind].
  unfold modifier_of, modifier_fields.
  set (fields := if (List.length (subsume u) =? 0)%nat then _ else _).
  destruct (negb (List.length fields =? 0)%nat); reflexivity.
Qed.

Variable u : list (string * value).
Hypothesis u_keys :
  forall k, In k (map fst u) <->
    In k (keyPaths A true)
    /\ shouldUnset (valueForKeyPath k B) (valueForKeyPath k A) = Ok true.
Hypothesis u_unique : unique_keys (map fst u) = true.
Hypothesis u_values : forall e, In e u -> snd e = VBool true.

Let set := forward_pass A B [].
Let unset := subsume u.

Lemma leaf_value D q v :
  plain D = true -> leaf_at q D = Some v -> get_segs q D = v.
Proof.
  intros _ Hl. rewrite leaf_at_node in Hl.
  destruct (node_at q D) as [x|] eqn:Hn; [|discriminate].
  rewrite (get_segs_node q D (node_clear q D x Hn)), Hn.
  destruct (is_mapping x); [discriminate|]. now injection Hl.
Qed.

(** What the hypothesis on sequences gives, path by path. *)
Lemma A_node_clear q x :
  q <> [] -> node_at q A = Some x -> clear_of_arrays q B = true.
Proof.
  intros Hq Hn. unfold no_sequence_entered in no_entry.
  apply andb_true_iff in no_entry as [H _]. rewrite forallb_forall in H.
  rewrite <- (plain_split_render A A_plain q x Hq Hn). apply H.
  apply (plain_keyPaths_all A A_plain). exists q, x.
  repeat split; auto. exact (plain_split_render A A_plain q x Hq Hn).
Qed.

Lemma B_leaf_clear p v :
  p <> [] -> leaf_at p B = Some v -> clear_of_arrays p A = true.
Proof.
  intros Hp Hl. unfold no_sequence_entered in no_entry.
  apply andb_true_iff in no_entry as [_ H]. rewrite forallb_forall in H.
  assert (Hs : split (render p) = p).
  { rewrite leaf_at_node in Hl.
    destruct (node_at p B) as [x|] eqn:Hn; [|discriminate].
    exact (plain_split_render B B_plain p x Hp Hn). }
  rewrite <- Hs. apply H.
  apply (plain_keyPaths_leaves B B_plain). exists p, v. repeat split; auto.
Qed.

Lemma set_entry_spec k v :
  In (k, v) set <->
  exists q, k = render q /\ split k = q /\ q <> []
            /\ leaf_at q B = Some v /\ shouldSet v (get_segs q A) = true.
Proof.
  unfold set. rewrite forward_pass_spec, (plain_keyPaths_leaves B B_plain).
  unfold valueForKeyPath. split.
  - intros [[q [w [Hk [Hs [Hq Hl]]]]] [Hset ->]].
    exists q. rewrite Hs in *. rewrite (leaf_value B q w B_plain Hl) in *.
    repeat split; assumption.
  - intros [q [Hk [Hs [Hq [Hl Hset]]]]]. rewrite Hs.
    rewrite (leaf_value B q v B_plain Hl). split; [|split]; auto.
    exists q, v. repeat split; assumption.
Qed.

Lemma unset_key_spec k :
  In k (map fst unset) ->
  exists q x, split k = q /\ q <> [] /\ node_at q A = Some x
              /\ shouldUnset (get_segs q B) x = Ok true
              /\ In k (keyPaths A true) /\ valueForKeyPath k A = x.
Proof.
  unfold unset. rewrite subsume_keys. intros [Hin _].
  apply u_keys in Hin as [Hk Hunset].
  destruct (backward_value k Hk) as [q [x [Hs [Hq [Hn [Hv _]]]]]].
  exists q, x. repeat split; auto.
  unfold valueForKeyPath in *. rewrite Hs in *. now rewrite Hv in Hunset.
Qed.

Lemma set_settable e : In e set -> settable (snd e) = true.
Proof.
  destruct e as [k v]. intros Hin.
  apply set_entry_spec in Hin as [q [_ [_ [Hq [Hl _]]]]].
  apply (plain_leaf_settable B B_plain q v Hl Hq).
Qed.

Lemma settable_not_mapping v : settable v = true -> is_mapping v = false.
Proof. destruct v; auto; discriminate. Qed.

Lemma set_written e : In e set -> written_leaf (snd e).
Proof.
  intros He. pose proof (set_settable e He) as Hs.
  pose proof (settable_not_mapping _ Hs) as Hm.
  split; auto. now destruct (settable_leaf _ Hs Hm) as [_ [_ [? _]]].
Qed.

Lemma set_is_wf : wf (VObj set) = true.
Proof.
  apply wf_mapping. split; [apply forward_pass_unique|].
  intros k v Hin. pose proof (set_settable (k, v) Hin) as Hs.
  now destruct (settable_leaf v Hs (settable_not_mapping v Hs)) as [? _].
Qed.

Lemma unset_value e : In e unset -> snd e = VBool true.
Proof. intros H. apply u_values. now apply subsume_sub. Qed.

Lemma unset_is_wf : wf (VObj unset) = true.
Proof.
  apply wf_mapping. split; [now apply subsume_unique|].
  intros k v Hin. apply unset_value in Hin. simpl in Hin. now subst.
Qed.

Lemma set_key_plain k : reserved k = true -> lookup k set = None.
Proof.
  intros Hr. destruct (lookup k set) as [v|] eqn:E; auto.
  apply lookup_In, set_entry_spec in E as [q [Hk [Hs [Hq [Hl _]]]]].
  rewrite leaf_at_node in Hl.
  destruct (node_at q B) as [x|] eqn:Hn; [|discriminate].
  pose proof (plain_not_reserved B B_plain B_mapping B_keys q x Hq Hn) as Hnr.
  assert (Hsk : split k = [k]).
  { unfold reserved in Hr. apply orb_true_iff in Hr as [Hr|Hr];
      apply String.eqb_eq in Hr; subst k; reflexivity. }
  rewrite Hsk in Hs. subst q. simpl in Hnr. congruence.
Qed.

Lemma unset_key_plain k : reserved k = true -> lookup k unset = None.
Proof.
  intros Hr. destruct (lookup k unset) as [v|] eqn:E; auto.
  apply lookup_in_keys, unset_key_spec in E as [q [x [Hs [Hq [Hn _]]]]].
  pose proof (plain_not_reserved A A_plain A_mapping A_keys q x Hq Hn) as Hnr.
  assert (Hsk : split k = [k]).
  { unfold reserved in Hr. apply orb_true_iff in Hr as [Hr|Hr];
      apply String.eqb_eq in Hr; subst k; reflexivity. }
  rewrite Hsk in Hs. subst q. simpl in Hnr. congruence.
Qed.

Lemma leaf_at_app p e D :
  leaf_at (p ++ e) D
  = match node_at p D with Some y => leaf_at e y | None => None end.
Proof.
  rewrite leaf_at_node, node_at_app.
  destruct (node_at p D); auto. now rewrite leaf_at_node.
Qed.

(** No surviving unset path lies on the way to a leaf of [B]. *)
Lemma unsets_spare_leaves p v :
  leaf_at p B = Some v -> p <> [] ->
  existsb (fun e => is_prefix (split (fst e)) p) unset = false.
Proof.
  intros HB Hp.
  destruct (existsb (fun e => is_prefix (split (fst e)) p) unset) eqn:E; auto.
  exfalso. apply existsb_exists in E as [e [He Hpre]].
  assert (Hk : In (fst e) (map fst unset)) by (apply in_map; exact He).
  apply unset_key_spec in Hk as [q [x [Hs [Hq [Hn [Hun [Hin Hv]]]]]]].
  pose proof (A_node_clear q x Hq Hn) as Hclear.
  rewrite Hs in Hpre. apply is_prefix_app in Hpre as [ext ->].
  destruct (leaf_above B q ext v HB) as [y [HnB [Hl Hext]]].
  rewrite (get_segs_node q B Hclear), HnB in Hun.
  destruct ext as [|s ext].
  - simpl in Hl. destruct (is_mapping y) eqn:Hm; [discriminate|].
    injection Hl as ->. rewrite app_nil_r in *.
    pose proof (plain_leaf_settable B B_plain q v HB Hq) as Hpres.
    pose proof (shouldUnset_settable v x Hpres Hun) as Hslip.
    unfold no_object_overwritten in no_slip.
    rewrite forallb_forall in no_slip. specialize (no_slip _ Hin).
    rewrite Hv in no_slip.
    assert (HvB : valueForKeyPath (fst e) B = v).
    { unfold valueForKeyPath. rewrite Hs.
      now rewrite (get_segs_node q B Hclear), HnB. }
    rewrite HvB, Hslip in no_slip. discriminate.
  - destruct Hext as [f [l ->]]; [discriminate|].
    rewrite shouldUnset_mapping in Hun. discriminate.
Qed.

Lemma set_entry_of_leaf p v :
  leaf_at p B = Some v -> p <> [] -> shouldSet v (get_segs p A) = true ->
  In (render p, v) set /\ split (render p) = p.
Proof.
  intros HB Hp Hset.
  assert (Hs : split (render p) = p).
  { rewrite leaf_at_node in HB.
    destruct (node_at p B) as [x|] eqn:Hn; [|discriminate].
    eapply (plain_split_render B B_plain); eauto. }
  split; auto. apply set_entry_spec. exists p. repeat split; auto.
Qed.

Lemma set_entry_comparable e p v :
  In e set -> leaf_at p B = Some v -> comparable (split (fst e)) p = true ->
  e = (render p, v) /\ shouldSet v (get_segs p A) = true.
Proof.
  destruct e as [k w]. intros He HB Hc.
  apply set_entry_spec in He as [q [Hk [Hs [Hq [Hl Hset]]]]].
  simpl in Hc. rewrite Hs in Hc.
  pose proof (leaf_paths_incomparable B q p w v Hl HB Hc) as ->.
  rewrite HB in Hl. injection Hl as ->. subst k. auto.
Qed.

(** The paths of [A] and [B] outside the reserved fields: the run of
    sets and the run of unsets leave exactly the leaves of [B], up to deep
    equality of the sequences that were left alone. *)
Lemma core_leaf p :
  p <> [] ->
  leaf_rel (after_unsets unset p (after_sets set p (leaf_at p A)))
           (leaf_at p B).
Proof.
  intros Hp. unfold after_unsets.
  destruct (leaf_at p B) as [v|] eqn:HB.
  - rewrite (unsets_spare_leaves p v HB Hp).
    pose proof (plain_leaf_settable B B_plain p v HB Hp) as Hpres.
    pose proof (settable_leaf v Hpres (settable_not_mapping v Hpres))
      as [Hwv [Hvu _]].
    destruct (shouldSet v (get_segs p A)) eqn:Hset.
    + destruct (set_entry_of_leaf p v HB Hp Hset) as [Hin Hs].
      rewrite (after_sets_hit set p (render p) v); auto using set_written.
      * simpl. now apply isEqual_refl.
      * intros e He Hc. now apply (set_entry_comparable e p v).
    + rewrite after_sets_miss.
      * apply shouldSet_false_settable in Hset as [Heq Hm]; auto.
        rewrite (get_segs_node p A (B_leaf_clear p v Hp HB)) in Heq, Hm.
        rewrite leaf_at_node.
        destruct (node_at p A) as [x|].
        -- rewrite Hm. exact Heq.
        -- destruct v; discriminate.
      * intros e He. destruct (comparable (split (fst e)) p) eqn:Hc; auto.
        destruct (set_entry_comparable e p v He HB Hc) as [_ H]. congruence.
  - assert (Hnone : (if existsb (fun e => is_prefix (split (fst e)) p) unset
                     then None else after_sets set p (leaf_at p A)) = None);
      [|now rewrite Hnone].
    destruct (existsb (fun e => is_prefix (split (fst e)) p) unset) eqn:Eu;
      [reflexivity|].
    assert (Hne : forall e, In e set -> split (fst e) <> p).
    { intros [k w] He Hk. apply set_entry_spec in He
        as [q [_ [Hs [_ [Hl _]]]]]. simpl in Hk. congruence. }
    destruct (existsb (fun e => comparable (split (fst e)) p) set) eqn:Es.
    + apply existsb_exists in Es as [e [He Hc]].
      apply after_sets_shadow; eauto using set_written.
    + rewrite after_sets_miss.
      2:{ intros e He. destruct (comparable (split (fst e)) p) eqn:Hc; auto.
          assert (existsb (fun e => comparable (split (fst e)) p) set = true);
            [|congruence].
          apply existsb_exists. eauto. }
      destruct (leaf_at p A) as [w|] eqn:HA; [exfalso|reflexivity].
      pose proof (plain_leaf_settable A A_plain p w HA Hp) as Hw.
      pose proof (settable_not_mapping w Hw) as Hwm.
      destruct (settable_leaf w Hw Hwm) as [_ [_ [Hlive Hwe]]].
      assert (HnA : node_at p A = Some w).
      { rewrite leaf_at_node in HA. destruct (node_at p A) as [x|];
          [|discriminate]. destruct (is_mapping x); [discriminate|].
        congruence. }
      destruct (node_at p B) as [y|] eqn:HnB.
      * (* [B] holds a mapping at [p]: one of its leaves has been set *)
        destruct (plain_node p B y B_plain HnB) as [Hy [Hye _]].
        assert (Hym : is_mapping y = true).
        { rewrite leaf_at_node, HnB in HB.
          destruct (is_mapping y); auto. discriminate. }
        destruct (pruned_has_leaf y (plain_pruned y Hy)) as [e [v' Hl]].
        { intros ->. specialize (Hye Hp). discriminate. }
        assert (He : e <> []).
        { intros ->. simpl in Hl. rewrite Hym in Hl. discriminate. }
        assert (HB' : leaf_at (p ++ e) B = Some v')
          by (now rewrite leaf_at_app, HnB).
        assert (Hpe : p ++ e <> []) by (destruct p; [congruence|discriminate]).
        pose proof (plain_leaf_settable B B_plain _ _ HB' Hpe) as Hv'.
        assert (Hset : shouldSet v' (get_segs (p ++ e) A) = true).
        { rewrite (get_segs_node _ A (B_leaf_clear _ _ Hpe HB')).
          rewrite node_at_app, HnA.
          destruct e as [|s e]; [congruence|].
          destruct w; try discriminate; simpl;
            now apply shouldSet_undefined_settable. }
        destruct (set_entry_of_leaf _ _ HB' Hpe Hset) as [Hin Hs].
        assert (existsb (fun e => comparable (split (fst e)) p) set = true);
          [|congruence].
        apply existsb_exists. exists (render (p ++ e), v'). split; auto.
        simpl. rewrite Hs. unfold comparable.
        assert (is_prefix p (p ++ e) = true) by (apply is_prefix_app; eauto).
        rewrite H. apply orb_true_r.
      * (* [B] holds nothing at [p]: the path has been unset *)
        assert (Hin : In (render p) (keyPaths A true)).
        { apply (plain_keyPaths_all A A_plain). exists p, w.
          repeat split; auto. eapply (plain_split_render A A_plain); eauto. }
        assert (Hs : split (render p) = p)
          by (eapply (plain_split_render A A_plain); eauto).
        assert (Hk : In (render p) (map fst u)).
        { apply u_keys. split; auto. unfold valueForKeyPath. rewrite Hs.
          rewrite (get_segs_node p B (A_node_clear p w Hp HnA)), HnB.
          rewrite (get_segs_node p A (node_clear p A w HnA)), HnA.
          apply shouldUnset_absent. now rewrite orb_comm. }
        destruct (subsume_covers u _ Hk) as [u0 [Hu0 Hpre]].
        fold unset in Hu0. rewrite Hs in Hpre.
        apply in_map_iff in Hu0 as [e [<- He]].
        assert (existsb (fun e => is_prefix (split (fst e)) p) unset = true);
          [|congruence].
        apply existsb_exists. eauto.
Qed.

Lemma modifier_fields_keys s0 u0 e :
  In e (modifier_fields s0 u0) -> fst e = "$set" \/ fst e = "$unset".
Proof.
  unfold modifier_fields. destruct s0, u0; simpl; intuition; subst; auto.
Qed.

Lemma comparable_first p q :
  p <> [] -> q <> [] -> comparable p q = true ->
  reserved_first p = reserved_first q.
Proof.
  destruct p as [|x p], q as [|y q]; try congruence. intros _ _.
  unfold comparable. simpl. rewrite (String.eqb_sym y x).
  destruct (x =? y) eqn:E; [|discriminate].
  apply String.eqb_eq in E. now subst.
Qed.

Lemma field_path e :
  In e (modifier_fields set unset) ->
  split (fst e) = [fst e] /\ reserved (fst e) = true.
Proof.
  intros He. apply modifier_fields_keys in He as [Hk|Hk]; rewrite Hk;
    split; reflexivity.
Qed.

Lemma field_not_comparable e p :
  In e (modifier_fields set unset) -> p <> [] ->
  is_prefix (split (fst e)) p = false ->
  comparable (split (fst e)) p = false.
Proof.
  intros He Hp Hpre. unfold comparable. rewrite Hpre.
  destruct (field_path e He) as [Hs _]. rewrite Hs in *.
  destruct p as [|x p]; [congruence|]. cbn [is_prefix orb] in *.
  rewrite andb_true_r in Hpre. rewrite String.eqb_sym, Hpre. reflexivity.
Qed.

Lemma field_misses e p :
  In e (modifier_fields set unset) -> p <> [] -> reserved_first p = false ->
  is_prefix (split (fst e)) p = false.
Proof.
  intros He Hp Hr. destruct (field_path e He) as [Hs Hres]. rewrite Hs.
  destruct p as [|x p]; [congruence|]. cbn [is_prefix reserved_first] in *.
  destruct (fst e =? x) eqn:E; auto.
  apply String.eqb_eq in E. congruence.
Qed.

(** The leaves of the document left by the two runs are the leaves of
    [B]. *)
Lemma final_leaf p :
  p <> [] ->
  leaf_rel
    (after_unsets (modifier_fields set unset) p
       (after_unsets unset p
          (after_sets (modifier_fields set unset) p
             (after_sets set p (leaf_at p A)))))
    (leaf_at p B).
Proof.
  intros Hp. destruct (reserved_first p) eqn:Hr.
  - rewrite (plain_reserved_absent B B_plain B_mapping B_keys p) by auto.
    match goal with |- leaf_rel ?X None => assert (E : X = None) end;
      [|now rewrite E].
    unfold after_unsets.
    destruct (existsb _ (modifier_fields set unset)) eqn:Ef; [reflexivity|].
    destruct (existsb _ unset); [reflexivity|].
    rewrite after_sets_miss.
    + rewrite after_sets_miss.
      * apply (plain_reserved_absent A A_plain A_mapping A_keys). auto.
      * intros [k w] He.
        destruct (comparable (split (fst (k, w))) p) eqn:Hc; auto.
        apply set_entry_spec in He as [q [_ [Hs [Hq [Hl _]]]]].
        simpl in Hc. rewrite Hs in Hc.
        apply comparable_first in Hc; auto.
        rewrite leaf_at_node in Hl.
        destruct (node_at q B) as [x|] eqn:Hn; [|discriminate].
        rewrite (plain_not_reserved B B_plain B_mapping B_keys q x Hq Hn) in Hc.
        congruence.
    + intros e He. apply field_not_comparable; auto.
      destruct (is_prefix (split (fst e)) p) eqn:Hpre; auto.
      assert (existsb (fun e => is_prefix (split (fst e)) p)
                      (modifier_fields set unset) = true); [|congruence].
      apply existsb_exists. eauto.
  - assert (Hf : existsb (fun e => is_prefix (split (fst e)) p)
                         (modifier_fields set unset) = false).
    { destruct (existsb _ (modifier_fields set unset)) eqn:Ef; auto.
      apply existsb_exists in Ef as [e [He Hpre]].
      rewrite (field_misses e p He Hp Hr) in Hpre. discriminate. }
    unfold after_unsets at 1. rewrite Hf.
    rewrite (after_sets_miss (modifier_fields set unset)).
    + now apply core_leaf.
    + intros e He. apply field_not_comparable; auto.
      now apply field_misses.
Qed.

(** [prune] removes no leaf of a document that is to equal [B]: the
    sequences of [B] are not empty. *)
Lemma leaf_rel_drop_empty o p :
  p <> [] -> leaf_rel o (leaf_at p B) -> leaf_rel (drop_empty o) (leaf_at p B).
Proof.
  intros Hp. destruct o as [[| | | | | |[|e l]|]|]; simpl; auto.
  destruct (leaf_at p B) as [v|] eqn:E; auto. intros H.
  pose proof (plain_leaf_settable B B_plain p v E Hp) as Hv.
  destruct v as [| | | | | |[|e l]|]; discriminate.
Qed.

Lemma modifier_fields_values e :
  In e (modifier_fields set unset) -> snd e = VObj set \/ snd e = VObj unset.
Proof.
  unfold modifier_fields. destruct set, unset; simpl; intuition; subst; auto.
Qed.

Lemma modifier_is_wf : wf (VObj (modifier_fields set unset)) = true.
Proof.
  apply wf_mapping. split.
  - unfold modifier_fields. now destruct set, unset.
  - intros k c Hin. apply modifier_fields_values in Hin as [H|H];
      simpl in H; subst c; auto using set_is_wf, unset_is_wf.
Qed.

(** The paths that the modifier writes. *)
Lemma modifier_paths q :
  modifier_fields set unset <> [] ->
  In q (written_paths (VObj (modifier_fields set unset))) ->
  (exists v, leaf_at q B = Some v /\ q <> [])
  \/ (exists x, node_at q A = Some x /\ q <> [])
  \/ (exists f, q = [f] /\ reserved f = true).
Proof.
  intros Hne. unfold written_paths.
  destruct (modifier_runs set unset
              (conj (set_key_plain "$set" eq_refl)
                    (set_key_plain "$unset" eq_refl))
              (conj (unset_key_plain "$set" eq_refl)
                    (unset_key_plain "$unset" eq_refl)) Hne)
    as [-> [-> ->]].
  rewrite in_map_iff. intros [e [<- He]].
  assert (Hfield : In e (modifier_fields set unset) ->
                   exists f, split (fst e) = [f] /\ reserved f = true).
  { intros Hf. exists (fst e). now apply field_path. }
  apply in_app_or in He as [He|He]; apply in_app_or in He as [He|He];
    try (right; right; destruct (Hfield He) as [f [-> Hf]]; now exists f).
  - left. destruct e as [k v].
    apply set_entry_spec in He as [q [_ [Hs [Hq [Hl _]]]]]. simpl.
    rewrite Hs. eauto.
  - right. left.
    assert (Hk : In (fst e) (map fst unset)) by (apply in_map; exact He).
    apply unset_key_spec in Hk as [q [x [Hs [Hq [Hn _]]]]].
    rewrite Hs. eauto.
Qed.

Lemma clear_single f D : is_mapping D = true -> clear_of_arrays [f] D = true.
Proof.
  destruct D; try discriminate. intros _. simpl. now destruct (lookup f props).
Qed.

Lemma modifier_safe :
  modifier_fields set unset <> [] ->
  safe (written_paths (VObj (modifier_fields set unset))) A.
Proof.
  intros Hne. split; [exact A_mapping|]. split; [now apply plain_wf|].
  intros q Hq. destruct (modifier_paths q Hne Hq)
    as [[v [Hl Hp]]|[[x [Hn Hp]]|[f [-> _]]]].
  - exact (B_leaf_clear q v Hp Hl).
  - exact (node_clear q A x Hn).
  - now apply clear_single.
Qed.

Lemma skipn_prefix_single (p : list string) f :
  p <> [] -> is_prefix p [f] = true -> skipn (List.length p) [f] = [].
Proof.
  destruct p as [|x [|y p]]; [congruence| |]; simpl; auto.
Qed.

Lemma modifier_entries_ok e :
  modifier_fields set unset <> [] ->
  In e (set_run (effective (VObj (modifier_fields set unset)))) ->
  entry_ok (written_paths (VObj (modifier_fields set unset))) e.
Proof.
  intros Hne He.
  pose proof (modifier_paths) as Hpaths.
  assert (Hin : In (split (fst e))
                   (written_paths (VObj (modifier_fields set unset)))).
  { unfold written_paths. apply in_map_iff. exists e. split; auto.
    apply in_or_app. now left. }
  destruct (modifier_runs set unset
              (conj (set_key_plain "$set" eq_refl)
                    (set_key_plain "$unset" eq_refl))
              (conj (unset_key_plain "$set" eq_refl)
                    (unset_key_plain "$unset" eq_refl)) Hne)
    as [He1 [He2 _]].
  rewrite He1, He2 in He. clear He1 He2.
  split; [exact Hin|].
  apply in_app_or in He as [He|He].
  - (* an entry of [$set]: a leaf of [B] *)
    pose proof (set_settable e He) as Hset.
    destruct (settable_leaf _ Hset (settable_not_mapping _ Hset)) as [Hw _].
    split; [exact Hw|]. destruct e as [k v].
    apply set_entry_spec in He as [p [_ [Hs [Hp [Hl _]]]]].
    simpl in *. rewrite Hs. intros q Hq Hpre.
    destruct (Hpaths q Hne Hq) as [[w [Hlq Hqn]]|[[x [Hn Hqn]]|[f [-> _]]]].
    + assert (p = q).
      { apply (leaf_paths_incomparable B p q v w); auto.
        unfold comparable. now rewrite Hpre. }
      subst q. now rewrite skipn_all.
    + pose proof (A_node_clear q x Hqn Hn) as Hc.
      apply is_prefix_app in Hpre as [ext ->].
      rewrite skipn_app, Nat.sub_diag, skipn_all. simpl.
      rewrite (clear_app p ext B v) in Hc; auto.
      rewrite leaf_at_node in Hl.
      destruct (node_at p B) as [y|]; [|discriminate].
      destruct (is_mapping y); [discriminate|]. congruence.
    + now rewrite skipn_prefix_single.
  - (* a field of the modifier: no other path starts with its name *)
    destruct (field_path e He) as [Hs Hres].
    split.
    { apply modifier_fields_values in He as [H|H]; rewrite H;
        auto using set_is_wf, unset_is_wf. }
    rewrite Hs. intros q Hq Hpre.
    assert (Hfirst : reserved_first q = true).
    { destruct q as [|x q]; [discriminate|]. simpl in *.
      apply andb_true_iff in Hpre as [E _].
      apply String.eqb_eq in E. congruence. }
    destruct (Hpaths q Hne Hq) as [[w [Hlq Hqn]]|[[x [Hn Hqn]]|[f [-> _]]]].
    + rewrite (plain_reserved_absent B B_plain B_mapping B_keys q) in Hlq;
        [discriminate|auto].
    + rewrite (plain_not_reserved A A_plain A_mapping A_keys q x Hqn Hn)
        in Hfirst. discriminate.
    + reflexivity.
Qed.

(** The round trip, for the modifier built from the two passes. *)
Lemma round_trip_of_passes :
  exists r,
    apply (clone A) (modifier_of set unset) = Ok r /\ isEqual r B = true.
Proof.
  pose proof (conj (set_key_plain "$set" eq_refl)
                   (set_key_plain "$unset" eq_refl)) as Hsk.
  pose proof (conj (unset_key_plain "$set" eq_refl)
                   (unset_key_plain "$unset" eq_refl)) as Huk.
  destruct (modifier_fields set unset) as [|f0 fs] eqn:Ef.
  - (* nothing to set and nothing to unset *)
    destruct (modifier_of_empty set unset Hsk Huk Ef) as [-> [Hs Hu]].
    exists A. split; [reflexivity|].
    apply leaf_extensionality; auto using plain_wf, plain_pruned.
    intros [|x p].
    + simpl. now rewrite A_mapping, B_mapping.
    + assert (Hp : x :: p <> []) by discriminate.
      pose proof (core_leaf (x :: p) Hp) as H.
      rewrite Hs, Hu in H. exact H.
  - assert (Hne : modifier_fields set unset <> []) by (rewrite Ef; discriminate).
    clear Ef.
    rewrite (modifier_of_truthy set unset Hne).
    destruct (apply_leaf (VObj (modifier_fields set unset)) A eq_refl
                modifier_is_wf (modifier_safe Hne)
                (fun e He => modifier_entries_ok e Hne He))
      as [r [Happ [[Hrm [Hrw _]] [Hrp Hleaf]]]].
    exists r. split; [exact Happ|].
    apply leaf_extensionality; auto using plain_wf, plain_pruned.
    intros [|x p].
    + simpl. now rewrite Hrm, B_mapping.
    + rewrite Hleaf.
      destruct (modifier_runs set unset Hsk Huk Hne) as [-> [-> ->]].
      rewrite after_sets_app, after_unsets_app.
      apply leaf_rel_drop_empty; [discriminate|].
      apply final_leaf. discriminate.
Qed.

End RoundTrip.

Definition doc_a_true : value := VObj [("a", VBool true)].

(** C1, as stated: for documents whose leaves are primitives, dates or
    sequences, applying [diffToModifier(A, B)] to a clone of [A] would give
    a document deeply equal to [B].  For [A = {a: 1}] and [B = {a: false}]
    the modifier is [{$unset: {a: true}}] and the result is [{}]. *)
Lemma round_trip_loses_false :
  diffToModifier doc_a_1 doc_a_false None false
  = Ok (VObj [("$unset", VObj [("a", VBool true)])])
  /\ apply (clone doc_a_1) (VObj [("$unset", VObj [("a", VBool true)])])
     = Ok (VObj [])
  /\ isEqual (VObj []) doc_a_false = false.
Proof. repeat split. Qed.

(** Why the round trip keeps keypaths out of sequences: a keypath of
    [B] that walks into a sequence of [A] is written into that sequence.
    For [A = {a: [1, 2]}] and [B = {a: {"0": 5}}] the modifier is
    [{$set: {"a.0": 5}}] and the result is [{a: [5, 2]}]. *)
Lemma round_trip_enters_sequence :
  no_sequence_entered (VObj [("a", VArr [VNum 1; VNum 2])])
                      (VObj [("a", VObj [("0", VNum 5)])]) = false
  /\ diffToModifier (VObj [("a", VArr [VNum 1; VNum 2])])
                    (VObj [("a", VObj [("0", VNum 5)])]) None false
     = Ok (VObj [("$set", VObj [("a.0", VNum 5)])])
  /\ apply (clone (VObj [("a", VArr [VNum 1; VNum 2])]))
           (VObj [("$set", VObj [("a.0", VNum 5)])])
     = Ok (VObj [("a", VArr [VNum 5; VNum 2])])
  /\ isEqual (VObj [("a", VArr [VNum 5; VNum 2])])
             (VObj [("a", VObj [("0", VNum 5)])]) = false.
Proof. repeat split. Qed.

(** C1, amended.  For every pair of documents [(A, B)] built from
    non-empty mappings whose keys are non-empty, contain no dot and are not
    [$set] or [$unset] at top level, and whose leaves are numbers,
    non-empty strings, [true], dates or non-empty sequences (of any
    values), such that [B] holds no number, boolean or date at a keypath
    where [A] holds a mapping, a sequence or a date, and no keypath of [A]
    walks into a sequence of [B] nor a leaf keypath of [B] into a sequence
    of [A]:
    [diffToModifier(A, B)] returns, applying its result to a clone of [A]
    returns, and the document obtained is deeply equal to [B]. *)
Theorem round_trip A B :
  plain_document A = true -> plain_document B = true ->
  no_object_overwritten A B = true ->
  no_sequence_entered A B = true ->
  exists m r,
    diffToModifier A B None false = Ok m
    /\ apply (clone A) m = Ok r
    /\ isEqual r B = true.
Proof.
  intros HA HB Hslip Hseq.
  destruct (backward_pass_returns A B HA) as [u [Hu [Hkeys [Huniq Hvals]]]].
  destruct (round_trip_of_passes A B HA HB Hslip Hseq u Hkeys Huniq Hvals)
    as [r [Happ Heq]].
  exists (modifier_of (forward_pass A B []) (subsume u)), r.
  split; [|split]; auto.
  now apply diff_of_passes.
Qed.

Lemma round_trip_witness :
  plain_document doc_a_seq = true /\ plain_document doc_b_seq = true
  /\ no_object_overwritten doc_a_seq doc_b_seq = true
  /\ no_sequence_entered doc_a_seq doc_b_seq = true
  /\ exists m r,
       diffToModifier doc_a_seq doc_b_seq None false = Ok m
       /\ apply (clone doc_a_seq) m = Ok r
       /\ isEqual r doc_b_seq = true.
Proof.
  split; [reflexivity|]. split; [reflexivity|]. split; [reflexivity|].
  split; [reflexivity|].
  apply (round_trip doc_a_seq doc_b_seq); reflexivity.
Defined.

(* ===================================================================== *)
(** * The change classifier *)
(* ===================================================================== *)

Section ClassifierRules.

Lemma strict_eq_eq a b : strict_eq a b = true -> a = b.
Proof.
  destruct a, b; simpl; try discriminate; auto.
  - intros H. apply Bool.eqb_prop in H. now subst.
  - intros H. apply Z.eqb_eq in H. now subst.
  - intros H. apply String.eqb_eq in H. now subst.
Qed.

End ClassifierRules.

(** X1.  [shouldSet] refuses a value whatever was there before exactly
    when the value is falsy and is not a number: [undefined], [null],
    [false] and the empty string are never written, and every other value
    is written over some previous value. *)
Theorem shouldSet_never_iff_absent val :
  (forall prev, shouldSet val prev = false)
  <-> truthy val = false /\ check_Number val = false.
Proof.
  split.
  - intros H. specialize (H VUndefined).
    destruct val as [| |[|]|n|[|c s]|t|l|l];
      try (split; reflexivity); cbv in H; discriminate.
  - intros [Ht Hn] prev.
    destruct val as [| |[|]|n|[|c s]|t|l|l]; try discriminate; reflexivity.
Qed.

(** X2.  Numeric strictness: a number is left alone only over the same
    number; over a string, a boolean, a date, a container, [null] or
    nothing it is always written. *)
Theorem shouldSet_number_strict n prev :
  shouldSet (VNum n) prev = false <-> prev = VNum n.
Proof.
  unfold shouldSet. simpl. split.
  - intros H. apply orb_false_iff in H as [H1 H2].
    apply negb_false_iff in H1. now apply strict_eq_eq in H1.
  - intros ->. simpl. now rewrite Z.eqb_refl.
Qed.

(** X3.  [shouldUnset] throws in one case only: the new value is
    [undefined] and the previous value is [null]; in every other case it
    returns a boolean. *)
Theorem shouldUnset_throws_iff val prev :
  (exists e, shouldUnset val prev = Throw e)
  <-> val = VUndefined /\ prev = VNull.
Proof.
  split.
  - intros [e H]. unfold shouldUnset in H.
    destruct ((truthy prev || check_Number prev)
              && negb (truthy val || check_Number val)) eqn:E1;
      [discriminate|].
    destruct (not_null val && typeof_object prev) eqn:E2; [|discriminate].
    apply andb_true_iff in E2 as [Hv Hp].
    destruct val; simpl in *; try discriminate;
      try (destruct (List.length _ =? 0)%nat; discriminate).
    split; auto.
    destruct prev; simpl in *; try discriminate; auto.
  - intros [-> ->]. eexists. reflexivity.
Qed.

(** X4.  The second test of [shouldUnset] does not look at what the new
    value is: over a previous value of type 'object' (a mapping, a
    sequence, a date, [null]) every new value without own keys that is not
    [null] or [undefined] - a number, a boolean, a date, the empty string,
    an empty container - is reported for removal. *)
Theorem shouldUnset_keyless_over_object val prev :
  has_no_keys val = true -> typeof_object prev = true ->
  shouldUnset val prev = Ok true.
Proof.
  intros Hk Hp. unfold shouldUnset.
  destruct ((truthy prev || check_Number prev)
            && negb (truthy val || check_Number val)); [reflexivity|].
  unfold has_no_keys in Hk.
  destruct (Object_keys val) as [[|k ks]|e] eqn:E; try discriminate.
  assert (Hn : not_null val = true) by (destruct val; auto; discriminate).
  rewrite Hn, Hp. simpl. reflexivity.
Qed.

Lemma shouldUnset_keyless_over_object_witness :
  has_no_keys (VNum 5) = true /\ typeof_object (VObj [("b", VNum 1)]) = true
  /\ shouldUnset (VNum 5) (VObj [("b", VNum 1)]) = Ok true.
Proof.
  split; [reflexivity|]. split; [reflexivity|].
  apply (shouldUnset_keyless_over_object (VNum 5) (VObj [("b", VNum 1)]));
    reflexivity.
Defined.

(* ===================================================================== *)
(** * The shape and the entries of a computed modifier *)
(* ===================================================================== *)

(** The paths on which the backward pass answers that the value has to be
    removed. *)
Definition marked (prev doc : value) (ignore : list string) (k : string) : Prop :=
  In k (filteredKeyPaths (keyPaths prev true) ignore)
  /\ shouldUnset (valueForKeyPath k doc) (valueForKeyPath k prev) = Ok true.

Section DiffShape.

Lemma keyPaths_falsy v allLevels : truthy v = false -> keyPaths v allLevels = [].
Proof. destruct v; simpl; auto; discriminate. Qed.

Lemma modifier_of_cases s u :
  (s = [] /\ u = [] /\ modifier_of s u = VUndefined)
  \/ (s <> [] /\ u = [] /\ modifier_of s u = VObj [("$set", VObj s)])
  \/ (s = [] /\ u <> [] /\ modifier_of s u = VObj [("$unset", VObj u)])
  \/ (s <> [] /\ u <> []
      /\ modifier_of s u = VObj [("$set", VObj s); ("$unset", VObj u)]).
Proof.
  destruct s, u; cbv [modifier_of modifier_fields]; simpl.
  - left. auto.
  - right. right. left. repeat split; auto. discriminate.
  - right. left. repeat split; auto. discriminate.
  - right. right. right. repeat split; auto; discriminate.
Qed.

Lemma entries_set_modifier_of s u :
  entries (field (modifier_of s u) "$set") = s.
Proof.
  destruct (modifier_of_cases s u)
    as [[-> [-> ->]]|[[_ [-> ->]]|[[-> [_ ->]]|[_ [_ ->]]]]]; reflexivity.
Qed.

Lemma entries_unset_modifier_of s u :
  entries (field (modifier_of s u) "$unset") = u.
Proof.
  destruct (modifier_of_cases s u)
    as [[-> [-> ->]]|[[_ [-> ->]]|[[-> [_ ->]]|[_ [_ ->]]]]]; reflexivity.
Qed.

Lemma field_set_modifier_of s u :
  field (modifier_of s u) "$set" = match s with [] => VUndefined | _ => VObj s end.
Proof.
  destruct (modifier_of_cases s u)
    as [[-> [-> ->]]|[[Hs [-> ->]]|[[-> [_ ->]]|[Hs [_ ->]]]]];
    try reflexivity; destruct s; try reflexivity; contradiction.
Qed.

Lemma field_unset_modifier_of s u :
  field (modifier_of s u) "$unset" = match u with [] => VUndefined | _ => VObj u end.
Proof.
  destruct (modifier_of_cases s u)
    as [[-> [-> ->]]|[[_ [-> ->]]|[[-> [Hu ->]]|[_ [Hu ->]]]]];
    try reflexivity; destruct u; try reflexivity; contradiction.
Qed.

Lemma truthy_modifier_of s u :
  truthy (modifier_of s u) = false -> modifier_of s u = VUndefined.
Proof.
  destruct (modifier_of_cases s u)
    as [[-> [-> ->]]|[[_ [-> ->]]|[[-> [_ ->]]|[_ [_ ->]]]]];
    auto; discriminate.
Qed.

(** One pass of [diffToModifier] returns the modifier made of the entries
    of the forward pass and of the subsumed entries of the backward pass. *)
Lemma diff_pass_parts prev doc ign m :
  diff_pass prev doc ign = Ok m ->
  exists u,
    (if truthy prev then backward_pass prev doc ign = Ok u else u = [])
    /\ m = modifier_of (if truthy doc then forward_pass prev doc ign else [])
                       (subsume u).
Proof.
  unfold diff_pass. intros H.
  destruct (truthy prev) eqn:Hp.
  - destruct (backward_pass prev doc ign) as [u|e] eqn:Hu; [|discriminate].
    exists u. split; auto. cbn [bind] in H.
    unfold modifier_of, modifier_fields.
    match type of H with (if negb (List.length ?f =? 0)%nat then _ else _) = _ =>
      destruct (negb (List.length f =? 0)%nat) end; now injection H as <-.
  - exists []. split; auto. cbn [bind] in H.
    unfold modifier_of, modifier_fields, subsume. simpl fold_left.
    match type of H with (if negb (List.length ?f =? 0)%nat then _ else _) = _ =>
      destruct (negb (List.length f =? 0)%nat) end; now injection H as <-.
Qed.

Lemma diff_pass_no_prev prev doc ign :
  truthy prev = false ->
  diff_pass prev doc ign
  = Ok (modifier_of (if truthy doc then forward_pass prev doc ign else []) []).
Proof.
  intros Hp. unfold diff_pass. rewrite Hp. cbn [bind].
  unfold modifier_of, modifier_fields.
  match goal with |- (if negb (List.length ?f =? 0)%nat then _ else _) = _ =>
    destruct (negb (List.length f =? 0)%nat) end; reflexivity.
Qed.

(** Without the flag [pruneEmptyObjects], [diffToModifier] is one pass. *)
Lemma diffToModifier_one_pass prev doc fieldsToIgnore m :
  diffToModifier prev doc fieldsToIgnore false = Ok m <->
  diff_pass prev doc (or_empty fieldsToIgnore) = Ok m.
Proof.
  unfold diffToModifier.
  destruct (diff_pass prev doc (or_empty fieldsToIgnore)) as [d|e] eqn:E;
    cbn [bind]; [|split; intros; discriminate].
  destruct (truthy d) eqn:Hd; [reflexivity|].
  destruct (diff_pass_parts _ _ _ _ E) as [u [_ ->]].
  now rewrite (truthy_modifier_of _ _ Hd).
Qed.

(** With the flag, the result is that of a pass over [doc] or that of a
    pass over the delta. *)
Lemma diffToModifier_some_pass prev doc fieldsToIgnore flag m :
  diffToModifier prev doc fieldsToIgnore flag = Ok m ->
  exists doc', diff_pass prev doc' (or_empty fieldsToIgnore) = Ok m.
Proof.
  destruct flag; [|intros H; exists doc; now apply diffToModifier_one_pass].
  unfold diffToModifier.
  destruct (diff_pass prev doc (or_empty fieldsToIgnore)) as [d|e] eqn:E;
    cbn [bind]; [|discriminate].
  destruct (truthy d) eqn:Hd.
  - destruct (diff_pass prev d (or_empty fieldsToIgnore)) as [d'|e] eqn:E';
      cbn [bind]; [|discriminate].
    unfold or_else. destruct (truthy d'); intros [= <-]; eauto.
  - intros [= <-]. exists doc. rewrite E. f_equal.
    destruct (diff_pass_parts _ _ _ _ E) as [u [_ ->]].
    now apply truthy_modifier_of.
Qed.

Lemma forward_pass_entries prev doc ign k v :
  In (k, v) (forward_pass prev doc ign) <->
  In k (filteredKeyPaths (keyPaths doc false) ign)
  /\ shouldSet (valueForKeyPath k doc) (valueForKeyPath k prev) = true
  /\ v = valueForKeyPath k doc.
Proof.
  unfold forward_pass. split.
  - intros H. apply forward_fold_sound in H as [[]|H]. tauto.
  - intros [H1 [H2 ->]]. now apply forward_fold_complete.
Qed.

Lemma mark_unsets_returns prev doc paths : forall acc u,
  mark_unsets prev doc paths acc = Ok u ->
  forall k, In k paths ->
    exists b, shouldUnset (valueForKeyPath k doc) (valueForKeyPath k prev) = Ok b.
Proof.
  induction paths as [|p paths IH]; intros acc u H k Hk; [contradiction|].
  simpl in H.
  destruct (shouldUnset (valueForKeyPath p doc) (valueForKeyPath p prev))
    as [b|e] eqn:E; [|discriminate].
  destruct Hk as [<-|Hk]; eauto.
Qed.

Lemma backward_pass_entries prev doc ign u :
  backward_pass prev doc ign = Ok u ->
  (forall k, In k (map fst u) <-> marked prev doc ign k)
  /\ unique_keys (map fst u) = true
  /\ forall e, In e u -> snd e = VBool true.
Proof.
  unfold backward_pass, marked. intros H.
  destruct (mark_unsets_spec prev doc _ [] (mark_unsets_returns _ _ _ _ _ H))
    as [u' [Hu' [Hkeys [Huniq Hvals]]]].
  rewrite H in Hu'. injection Hu' as <-.
  split; [|split]; auto.
  - intros k. rewrite Hkeys. simpl. tauto.
  - intros e He. apply Hvals in He as [[]|He]. exact He.
Qed.

End DiffShape.

(** X5.  Without a previous document nothing is removed: for a falsy
    [prev], [diffToModifier] returns, with or without the flag
    [pruneEmptyObjects], and its result has no [$unset] field. *)
Theorem diff_without_prev_never_unsets prev doc fieldsToIgnore flag :
  truthy prev = false ->
  exists m,
    diffToModifier prev doc fieldsToIgnore flag = Ok m
    /\ field m "$unset" = VUndefined.
Proof.
  intros Hp.
  assert (Hpass : forall d, exists s,
             diff_pass prev d (or_empty fieldsToIgnore) = Ok (modifier_of s [])).
  { intros d. eexists. now apply diff_pass_no_prev. }
  unfold diffToModifier.
  destruct (Hpass doc) as [s ->]. cbn [bind].
  destruct (truthy (modifier_of s [])) eqn:Hd;
    [|exists VUndefined; split; reflexivity].
  destruct flag.
  - destruct (Hpass (modifier_of s [])) as [s' ->]. cbn [bind].
    unfold or_else. destruct (truthy (modifier_of s' []));
      eexists; (split; [reflexivity|]); now rewrite field_unset_modifier_of.
  - eexists. split; [reflexivity|]. now rewrite field_unset_modifier_of.
Qed.

Lemma diff_without_prev_never_unsets_witness :
  truthy VNull = false
  /\ exists m,
       diffToModifier VNull doc_a_b1 None true = Ok m
       /\ field m "$unset" = VUndefined.
Proof.
  split; [reflexivity|].
  apply (diff_without_prev_never_unsets VNull doc_a_b1 None true).
  reflexivity.
Defined.

(** X6.  [objToModifier] never throws, and the modifier it returns has no
    [$unset] field: it is a pure insertion. *)
Theorem objToModifier_is_an_insertion obj :
  exists m, objToModifier obj = Ok m /\ field m "$unset" = VUndefined.
Proof.
  unfold objToModifier.
  assert (Hpass : exists s, diff_pass VUndefined obj [] = Ok (modifier_of s [])).
  { eexists. now apply diff_pass_no_prev. }
  destruct Hpass as [s Hs].
  exists (modifier_of s []). split; [|now rewrite field_unset_modifier_of].
  now apply diffToModifier_one_pass.
Qed.

(** X7.  Without a new document nothing is written: for a falsy [doc],
    the modifier returned by [diffToModifier] has no [$set] field. *)
Theorem diff_without_doc_never_sets prev doc fieldsToIgnore m :
  truthy doc = false ->
  diffToModifier prev doc fieldsToIgnore false = Ok m ->
  field m "$set" = VUndefined.
Proof.
  intros Hd H. apply diffToModifier_one_pass in H.
  destruct (diff_pass_parts _ _ _ _ H) as [u [_ ->]].
  rewrite Hd. now rewrite field_set_modifier_of.
Qed.

Lemma diff_without_doc_never_sets_witness :
  truthy VUndefined = false
  /\ diffToModifier doc_a_1 VUndefined None false
     = Ok (VObj [("$unset", VObj [("a", VBool true)])])
  /\ field (VObj [("$unset", VObj [("a", VBool true)])]) "$set" = VUndefined.
Proof.
  split; [reflexivity|]. split; [reflexivity|].
  apply (diff_without_doc_never_sets doc_a_1 VUndefined None); reflexivity.
Defined.

(** X8.  The shape of a result of [diffToModifier]: either [undefined],
    or an object holding a non-empty [$set] mapping, a non-empty [$unset]
    mapping, or both in that order, and nothing else.  An empty object and
    an empty [$set] or [$unset] are never returned. *)
Theorem diffToModifier_shape prev doc fieldsToIgnore flag m :
  diffToModifier prev doc fieldsToIgnore flag = Ok m ->
  m = VUndefined
  \/ (exists s, s <> [] /\ m = VObj [("$set", VObj s)])
  \/ (exists u, u <> [] /\ m = VObj [("$unset", VObj u)])
  \/ (exists s u, s <> [] /\ u <> []
        /\ m = VObj [("$set", VObj s); ("$unset", VObj u)]).
Proof.
  intros H. apply diffToModifier_some_pass in H as [doc' H].
  destruct (diff_pass_parts _ _ _ _ H) as [u [_ ->]].
  match goal with |- modifier_of ?s ?u = _ \/ _ =>
    destruct (modifier_of_cases s u)
      as [[_ [_ ->]]|[[Hs [_ ->]]|[[_ [Hu ->]]|[Hs [Hu ->]]]]] end; eauto 8.
Qed.

Lemma diffToModifier_shape_witness :
  diffToModifier doc_a_b1 doc_a_5 None false
  = Ok (VObj [("$set", VObj [("a", VNum 5)]); ("$unset", VObj [("a", VBool true)])])
  /\ exists s u, s <> [] /\ u <> []
       /\ VObj [("$set", VObj [("a", VNum 5)]); ("$unset", VObj [("a", VBool true)])]
          = VObj [("$set", VObj s); ("$unset", VObj u)].
Proof.
  split; [reflexivity|].
  destruct (diffToModifier_shape doc_a_b1 doc_a_5 None false _ eq_refl)
    as [H|[[s [_ H]]|[[u [_ H]]|H]]]; try discriminate H. exact H.
Defined.

Section DiffEntries.

Lemma filteredKeyPaths_in paths ign k :
  In k (filteredKeyPaths paths ign) <->
  In k paths /\ forall i, In i ign -> keyPathContainsPath k i = false.
Proof.
  unfold filteredKeyPaths. rewrite filter_In, negb_true_iff.
  split; intros [H1 H2]; split; auto.
  - intros i Hi. destruct (keyPathContainsPath k i) eqn:E; auto.
    assert (existsb (fun i => keyPathContainsPath k i) ign = true)
      by (apply existsb_exists; eauto). congruence.
  - destruct (existsb _ ign) eqn:E; auto.
    apply existsb_exists in E as [i [Hi Hc]]. rewrite H2 in Hc; auto.
Qed.

Lemma diff_pass_paths prev doc ign m k :
  diff_pass prev doc ign = Ok m ->
  In k (set_paths m ++ unset_paths m) ->
  forall i, In i ign -> keyPathContainsPath k i = false.
Proof.
  intros H Hk. destruct (diff_pass_parts _ _ _ _ H) as [u [Hu ->]].
  unfold set_paths, unset_paths in Hk.
  rewrite entries_set_modifier_of, entries_unset_modifier_of in Hk.
  apply in_app_or in Hk as [Hk|Hk].
  - destruct (truthy doc); [|contradiction].
    apply in_map_iff in Hk as [[k' v] [<- Hin]].
    apply forward_pass_entries in Hin as [Hin _].
    now apply filteredKeyPaths_in in Hin.
  - apply subsume_keys in Hk as [Hk _].
    destruct (truthy prev); [|subst u; contradiction].
    apply (backward_pass_entries _ _ _ _ Hu) in Hk as [Hk _].
    now apply filteredKeyPaths_in in Hk.
Qed.

End DiffEntries.

(** X9.  Ignored fields: no path written or removed by the modifier of
    [diffToModifier] is a path of the ignore list or lies below one. *)
Theorem ignored_paths_are_left_out prev doc ign flag m k i :
  diffToModifier prev doc (Some ign) flag = Ok m ->
  In k (set_paths m ++ unset_paths m) -> In i ign ->
  keyPathContainsPath k i = false.
Proof.
  intros H Hk Hi. apply diffToModifier_some_pass in H as [doc' H].
  exact (diff_pass_paths _ _ _ _ _ H Hk i Hi).
Qed.

Lemma ignored_paths_are_left_out_witness :
  diffToModifier (VObj [("a", VNum 1); ("b", VNum 1)])
                 (VObj [("a", VNum 2); ("b", VNum 2)]) (Some ["b"]) false
  = Ok (VObj [("$set", VObj [("a", VNum 2)])])
  /\ keyPathContainsPath "a" "b" = false.
Proof.
  split; [reflexivity|].
  apply (ignored_paths_are_left_out
           (VObj [("a", VNum 1); ("b", VNum 1)])
           (VObj [("a", VNum 2); ("b", VNum 2)]) ["b"] false
           (VObj [("$set", VObj [("a", VNum 2)])]) "a" "b").
  - reflexivity.
  - simpl. auto.
  - simpl. auto.
Defined.

(** X10.  The entries of [$set]: the modifier of [diffToModifier] maps a
    path to a value exactly when the path is a leaf keypath of [doc] that
    is not ignored, the value is the one [doc] holds there, and
    [shouldSet] accepts it over the value of [prev] at the same path. *)
Theorem set_entries_are_the_changed_leaves prev doc fieldsToIgnore m k v :
  diffToModifier prev doc fieldsToIgnore false = Ok m ->
  (In (k, v) (entries (field m "$set")) <->
   In k (filteredKeyPaths (keyPaths doc false) (or_empty fieldsToIgnore))
   /\ shouldSet (valueForKeyPath k doc) (valueForKeyPath k prev) = true
   /\ v = valueForKeyPath k doc).
Proof.
  intros H. apply diffToModifier_one_pass in H.
  destruct (diff_pass_parts _ _ _ _ H) as [u [_ ->]].
  rewrite entries_set_modifier_of.
  destruct (truthy doc) eqn:Hd; [apply forward_pass_entries|].
  rewrite (keyPaths_falsy doc false Hd). simpl. tauto.
Qed.

Lemma set_entries_are_the_changed_leaves_witness :
  diffToModifier doc_a_1 doc_a_5 None false
  = Ok (VObj [("$set", VObj [("a", VNum 5)])])
  /\ (In ("a", VNum 5) (entries (field (VObj [("$set", VObj [("a", VNum 5)])]) "$set")) <->
      In "a" (filteredKeyPaths (keyPaths doc_a_5 false) (or_empty None))
      /\ shouldSet (valueForKeyPath "a" doc_a_5) (valueForKeyPath "a" doc_a_1) = true
      /\ VNum 5 = valueForKeyPath "a" doc_a_5).
Proof.
  split; [reflexivity|].
  apply (set_entries_are_the_changed_leaves doc_a_1 doc_a_5 None). reflexivity.
Defined.

(** X11.  The entries of [$unset]: the modifier of [diffToModifier]
    removes a path exactly when the backward pass marks it (a keypath of
    [prev], branches included, that is not ignored and on which
    [shouldUnset] answers [true]) and no marked path is a proper ancestor
    of it; every entry maps its path to [true]. *)
Theorem unset_entries_are_the_top_marked_paths prev doc fieldsToIgnore m :
  diffToModifier prev doc fieldsToIgnore false = Ok m ->
  (forall k,
     In k (unset_paths m) <->
     marked prev doc (or_empty fieldsToIgnore) k
     /\ forall b, marked prev doc (or_empty fieldsToIgnore) b ->
                  _keyPathContainsPath k b = false)
  /\ forall k v, In (k, v) (entries (field m "$unset")) -> v = VBool true.
Proof.
  intros H. apply diffToModifier_one_pass in H.
  destruct (diff_pass_parts _ _ _ _ H) as [u [Hu ->]].
  unfold unset_paths. rewrite entries_unset_modifier_of.
  destruct (truthy prev) eqn:Hp.
  - destruct (backward_pass_entries _ _ _ _ Hu) as [Hkeys [_ Hvals]].
    split.
    + intros k. rewrite subsume_keys, Hkeys. split; intros [H1 H2]; split; auto.
      * intros b Hb. apply H2. now apply Hkeys.
      * intros b Hb. apply H2. now apply Hkeys.
    + intros k v Hin. apply subsume_sub in Hin. now apply Hvals in Hin.
  - subst u. split.
    + intros k. unfold marked. rewrite (keyPaths_falsy prev true Hp).
      simpl. tauto.
    + intros k v [].
Qed.

Lemma unset_entries_are_the_top_marked_paths_witness :
  diffToModifier doc_branch doc_empty None false
  = Ok (VObj [("$unset", VObj [("a", VBool true)])])
  /\ forall k v,
       In (k, v) (entries (field (VObj [("$unset", VObj [("a", VBool true)])]) "$unset")) ->
       v = VBool true.
Proof.
  split; [reflexivity|].
  apply (unset_entries_are_the_top_marked_paths doc_branch doc_empty None).
  reflexivity.
Defined.

(** X12.  Nothing marked is lost by the subsumption step: every path
    that the backward pass marks is removed by the modifier, either by an
    entry of its own or by the entry of one of its ancestors. *)
Theorem marked_paths_are_covered prev doc fieldsToIgnore m k :
  diffToModifier prev doc fieldsToIgnore false = Ok m ->
  marked prev doc (or_empty fieldsToIgnore) k ->
  exists a, In a (unset_paths m) /\ is_prefix (split a) (split k) = true.
Proof.
  intros H Hk. apply diffToModifier_one_pass in H.
  destruct (diff_pass_parts _ _ _ _ H) as [u [Hu ->]].
  unfold unset_paths. rewrite entries_unset_modifier_of.
  destruct (truthy prev) eqn:Hp.
  - apply subsume_covers. now apply (backward_pass_entries _ _ _ _ Hu).
  - destruct Hk as [Hk _]. rewrite (keyPaths_falsy prev true Hp) in Hk.
    destruct Hk.
Qed.

Lemma marked_paths_are_covered_witness :
  diffToModifier doc_branch doc_empty None false
  = Ok (VObj [("$unset", VObj [("a", VBool true)])])
  /\ marked doc_branch doc_empty (or_empty None) "a.b"
  /\ exists a, In a (unset_paths (VObj [("$unset", VObj [("a", VBool true)])]))
               /\ is_prefix (split a) (split "a.b") = true.
Proof.
  split; [reflexivity|].
  assert (Hm : marked doc_branch doc_empty (or_empty None) "a.b").
  { split; [simpl; auto|reflexivity]. }
  split; [exact Hm|].
  apply (marked_paths_are_covered doc_branch doc_empty None
           (VObj [("$unset", VObj [("a", VBool true)])]) "a.b");
    [reflexivity|exact Hm].
Defined.

(* ===================================================================== *)
(** * Subsumption and the falsy-value rule, on every computed modifier *)
(* ===================================================================== *)

Section TopLevelBranch.

Lemma keyPaths_top props a c :
  In (a, c) props -> In a (keyPaths (VObj props) true).
Proof.
  unfold keyPaths. induction props as [|[el c0] rest IH]; [contradiction|].
  intros Hin. rewrite keyPaths_in_cons. apply in_or_app.
  destruct Hin as [[= -> ->]|Hin]; [left|right; auto].
  destruct c; simpl; auto.
Qed.

Lemma top_level_not_below a b :
  dot_free a = true -> _keyPathContainsPath a b = false.
Proof.
  intros Ha. unfold _keyPathContainsPath. rewrite (split_dot_free a Ha).
  pose proof (split_nonempty b) as Hb.
  destruct (split b) as [|x l]; [congruence|]. reflexivity.
Qed.

Lemma shouldSet_live val prev :
  shouldSet val prev = true -> truthy val || check_Number val = true.
Proof.
  destruct val as [| |[|]|n|[|c s]|t|l|l]; intros H; try reflexivity;
    try (simpl; apply orb_true_r);
    unfold shouldSet in H; simpl in H; discriminate.
Qed.

(** The value that a pass sets is truthy or a number. *)
Lemma diff_pass_sets_live prev doc ign m k v :
  diff_pass prev doc ign = Ok m ->
  In (k, v) (entries (field m "$set")) ->
  shouldSet v (valueForKeyPath k prev) = true
  /\ In k (filteredKeyPaths (keyPaths doc false) ign)
  /\ v = valueForKeyPath k doc.
Proof.
  intros H Hin. destruct (diff_pass_parts _ _ _ _ H) as [u [_ ->]].
  rewrite entries_set_modifier_of in Hin.
  destruct (truthy doc); [|contradiction].
  apply forward_pass_entries in Hin as [H1 [H2 ->]]. auto.
Qed.

(** A marked path is removed by an entry of its own or of an ancestor. *)
Lemma diff_pass_covers prev doc ign m k :
  diff_pass prev doc ign = Ok m ->
  marked prev doc ign k ->
  exists a, In a (unset_paths m) /\ is_prefix (split a) (split k) = true.
Proof.
  intros H Hk. destruct (diff_pass_parts _ _ _ _ H) as [u [Hu ->]].
  unfold unset_paths. rewrite entries_unset_modifier_of.
  destruct (truthy prev) eqn:Hp.
  - apply subsume_covers. now apply (backward_pass_entries _ _ _ _ Hu).
  - destruct Hk as [Hk _]. unfold filteredKeyPaths in Hk.
    rewrite (keyPaths_falsy prev true Hp) in Hk. destruct Hk.
Qed.

(** A marked top-level key is an entry of [$unset]. *)
Lemma diff_pass_top_level props doc ign m a :
  diff_pass (VObj props) doc ign = Ok m ->
  marked (VObj props) doc ign a -> dot_free a = true ->
  In (a, VBool true) (entries (field m "$unset")).
Proof.
  intros H Hk Ha. destruct (diff_pass_parts _ _ _ _ H) as [u [Hu ->]].
  rewrite entries_unset_modifier_of. cbn [truthy] in Hu.
  destruct (backward_pass_entries _ _ _ _ Hu) as [Hkeys [_ Hvals]].
  assert (Hin : In a (map fst (subsume u))).
  { apply subsume_keys. split; [now apply Hkeys|].
    intros b _. now apply top_level_not_below. }
  apply in_map_iff in Hin as [[k v] [Hk' Hin]]. simpl in Hk'. subst k.
  pose proof (Hvals _ (subsume_sub _ _ Hin)) as Hv. simpl in Hv. now subst v.
Qed.

Lemma diffToModifier_antichain prev doc fieldsToIgnore flag m a b :
  diffToModifier prev doc fieldsToIgnore flag = Ok m ->
  In a (unset_paths m) -> In b (unset_paths m) -> ~ is_descendant a b.
Proof.
  intros H Ha Hb Hd.
  destruct (diffToModifier_some_pass _ _ _ _ _ H) as [doc' H'].
  apply keyPathContainsPath_descendant in Hd.
  rewrite (diff_pass_antichain _ _ _ _ _ _ H' Ha Hb) in Hd. discriminate.
Qed.

End TopLevelBranch.

Definition props_branches : list (string * value) :=
  [("a", VObj [("b", VNum 1); ("c", VNum 2)]); ("d", VNum 1);
   ("e", VStr "kept")].
Definition doc_branches : value := VObj props_branches.
Definition doc_kept : value := VObj [("e", VStr "kept")].
Definition doc_falsy : value :=
  VObj [("a", VObj [("b", VBool false); ("c", VNum 2)]); ("d", VNull);
        ("e", VStr "kept")].

(** C2.  Unset subsumption.  (1) In every modifier returned by
    [diffToModifier] no path of [$unset] is a descendant of another path
    of [$unset].  (2) The subsumption step loses nothing: every keypath
    of [prev] that the backward pass marks for removal is removed by the
    modifier, by an entry of its own or by the entry of one of its
    ancestors.  (3) When a top-level key [a] of [prev] holds a present
    value (a whole branch, for instance) and [doc] holds nothing at [a],
    [$unset] has the entry [a: true] and no entry for a path below [a],
    whatever else [prev] and [doc] hold.  (4) For [prev = {a: {b: 1,
    c: 2}}] and [doc = {}] the result is exactly [{$unset: {a: true}}]. *)
Theorem unset_subsumption :
  (forall prev doc fieldsToIgnore pruneEmptyObjects m,
      diffToModifier prev doc fieldsToIgnore pruneEmptyObjects = Ok m ->
      forall a b, In a (unset_paths m) -> In b (unset_paths m) ->
                  ~ is_descendant a b)
  /\ (forall prev doc fieldsToIgnore m k,
        diffToModifier prev doc fieldsToIgnore false = Ok m ->
        marked prev doc (or_empty fieldsToIgnore) k ->
        exists a, In a (unset_paths m)
                  /\ is_prefix (split a) (split k) = true)
  /\ (forall props doc fieldsToIgnore m a c,
        lookup a props = Some c -> dot_free a = true ->
        truthy c || check_Number c = true ->
        valueForKeyPath a doc = VUndefined ->
        (forall i, In i (or_empty fieldsToIgnore) ->
                   keyPathContainsPath a i = false) ->
        diffToModifier (VObj props) doc fieldsToIgnore false = Ok m ->
        In (a, VBool true) (entries (field m "$unset"))
        /\ forall k, is_descendant k a -> ~ In k (unset_paths m))
  /\ diffToModifier doc_branch doc_empty None false
     = Ok (VObj [("$unset", VObj [("a", VBool true)])]).
Proof.
  split; [|split; [|split; [|reflexivity]]].
  - intros prev doc ign flag m H a b. now apply (diffToModifier_antichain _ _ _ _ _ _ _ H).
  - intros prev doc ign m k H Hk. apply diffToModifier_one_pass in H.
    now apply (diff_pass_covers _ _ _ _ _ H).
  - intros props doc ign m a c Hc Ha Hlive Habs Hign H.
    assert (Hin : In (a, VBool true) (entries (field m "$unset"))).
    { apply diffToModifier_one_pass in H.
      apply (diff_pass_top_level _ _ _ _ _ H); auto. split.
      - apply filteredKeyPaths_in. split; auto.
        apply (keyPaths_top props a c). now apply lookup_In.
      - rewrite Habs. unfold valueForKeyPath.
        rewrite (split_dot_free a Ha). simpl. rewrite Hc.
        unfold shouldUnset. now rewrite Hlive. }
    split; [exact Hin|]. intros k Hd Hk.
    apply (diffToModifier_antichain _ _ _ _ _ k a H); auto.
    unfold unset_paths. apply in_map_iff. now exists (a, VBool true).
Qed.

Lemma unset_subsumption_witness :
  diffToModifier doc_branches doc_kept None false
  = Ok (VObj [("$unset", VObj [("a", VBool true); ("d", VBool true)])])
  /\ ~ is_descendant "a" "d"
  /\ marked doc_branches doc_kept (or_empty None) "a.c"
  /\ (exists a,
        In a (unset_paths
                (VObj [("$unset", VObj [("a", VBool true); ("d", VBool true)])]))
        /\ is_prefix (split a) (split "a.c") = true)
  /\ In ("d", VBool true)
        (entries (field (VObj [("$unset",
                                VObj [("a", VBool true); ("d", VBool true)])])
                        "$unset"))
  /\ forall k, is_descendant k "a" ->
       ~ In k (unset_paths
                 (VObj [("$unset", VObj [("a", VBool true); ("d", VBool true)])])).
Proof.
  assert (Hrun : diffToModifier doc_branches doc_kept None false
                 = Ok (VObj [("$unset",
                              VObj [("a", VBool true); ("d", VBool true)])]))
    by reflexivity.
  assert (Hm : marked doc_branches doc_kept (or_empty None) "a.c")
    by (split; [simpl; auto|reflexivity]).
  destruct unset_subsumption as [H1 [H2 [H3 _]]].
  pose proof (H3 props_branches doc_kept None _ "d" (VNum 1) eq_refl eq_refl eq_refl
                 eq_refl (fun i F => False_ind _ F) Hrun) as [Hd _].
  pose proof (H3 props_branches doc_kept None _ "a" (VObj [("b", VNum 1); ("c", VNum 2)])
                 eq_refl eq_refl eq_refl eq_refl (fun i F => False_ind _ F)
                 Hrun) as [_ Ha].
  split; [exact Hrun|]. split.
  - apply (H1 doc_branches doc_kept None false _ Hrun "a" "d"); simpl; auto.
  - split; [exact Hm|]. split; [|split; [exact Hd|exact Ha]].
    exact (H2 doc_branches doc_kept None _ "a.c" Hrun Hm).
Defined.

(** C5, amended.  [diffToModifier({a: 1}, {a: 0})] is [{$set: {a: 0}}],
    without an [$unset] field, and [diffToModifier({a: 1}, {a: false})] is
    [{$unset: {a: true}}].  A number, zero included, is set over a number
    exactly when the two differ, and is never unset over a number.  The
    values that [shouldSet] never sets, whatever the previous value, are
    exactly the falsy values that are not numbers ([undefined], [null],
    [false], the empty string), and no modifier returned by
    [diffToModifier] has such a value in [$set].  Where a keypath of
    [prev] that is not ignored holds a truthy value or a number and [doc]
    holds there a falsy value that is not a number, the modifier removes
    the keypath, by an entry of its own or of one of its ancestors, and
    has no [$set] entry for it. *)
Theorem numeric_zero_is_set :
  diffToModifier doc_a_1 doc_a_0 None false
  = Ok (VObj [("$set", VObj [("a", VNum 0)])])
  /\ diffToModifier doc_a_1 doc_a_false None false
     = Ok (VObj [("$unset", VObj [("a", VBool true)])])
  /\ (forall n p : Z,
         shouldSet (VNum n) (VNum p) = negb (p =? n)%Z
         /\ shouldUnset (VNum n) (VNum p) = Ok false)
  /\ (forall val,
         (forall prev, shouldSet val prev = false)
         <-> truthy val || check_Number val = false)
  /\ (forall prev doc fieldsToIgnore pruneEmptyObjects m k v,
         diffToModifier prev doc fieldsToIgnore pruneEmptyObjects = Ok m ->
         In (k, v) (entries (field m "$set")) ->
         truthy v || check_Number v = true)
  /\ (forall prev doc fieldsToIgnore m k,
         diffToModifier prev doc fieldsToIgnore false = Ok m ->
         In k (filteredKeyPaths (keyPaths prev true) (or_empty fieldsToIgnore)) ->
         truthy (valueForKeyPath k prev)
           || check_Number (valueForKeyPath k prev) = true ->
         truthy (valueForKeyPath k doc)
           || check_Number (valueForKeyPath k doc) = false ->
         (exists a, In a (unset_paths m)
                    /\ is_prefix (split a) (split k) = true)
         /\ ~ In k (set_paths m)).
Proof.
  split; [reflexivity|]. split; [reflexivity|]. split; [|split; [|split]].
  - intros n p. unfold shouldSet, shouldUnset. simpl.
    rewrite !orb_true_r, orb_false_r. simpl. split; reflexivity.
  - intros val. split.
    + intros H. destruct (truthy val || check_Number val) eqn:E; auto.
      destruct val as [| |[|]|n|[|c s]|t|l|l]; try discriminate.
      * specialize (H VUndefined). discriminate.
      * specialize (H VUndefined). discriminate.
      * specialize (H VUndefined). discriminate.
      * specialize (H VUndefined). discriminate.
      * specialize (H VUndefined). discriminate.
      * specialize (H VUndefined). discriminate.
    + intros H prev. destruct (shouldSet val prev) eqn:E; auto.
      apply shouldSet_live in E. congruence.
  - intros prev doc ign flag m k v H Hin.
    destruct (diffToModifier_some_pass _ _ _ _ _ H) as [doc' H'].
    destruct (diff_pass_sets_live _ _ _ _ _ _ H' Hin) as [Hs _].
    now apply shouldSet_live in Hs.
  - intros prev doc ign m k H Hk Hprev Hdoc.
    apply diffToModifier_one_pass in H. split.
    + apply (diff_pass_covers _ _ _ _ _ H). split; auto.
      unfold shouldUnset. now rewrite Hprev, Hdoc.
    + unfold set_paths. intros Hin.
      apply in_map_iff in Hin as [[k' v] [Hk' Hin]]. simpl in Hk'. subst k'.
      destruct (diff_pass_sets_live _ _ _ _ _ _ H Hin) as [Hs [_ ->]].
      apply shouldSet_live in Hs. congruence.
Qed.

Lemma numeric_zero_is_set_witness :
  diffToModifier doc_branches doc_falsy None false
  = Ok (VObj [("$unset", VObj [("a.b", VBool true); ("d", VBool true)])])
  /\ ((exists a,
         In a (unset_paths
                 (VObj [("$unset",
                         VObj [("a.b", VBool true); ("d", VBool true)])]))
         /\ is_prefix (split a) (split "a.b") = true)
      /\ ~ In "a.b"
             (set_paths
                (VObj [("$unset",
                        VObj [("a.b", VBool true); ("d", VBool true)])])))
  /\ truthy (VNum 0) || check_Number (VNum 0) = true.
Proof.
  destruct numeric_zero_is_set as [H1 [_ [_ [_ [H5 H6]]]]].
  split; [reflexivity|]. split.
  - apply (H6 doc_branches doc_falsy None _ "a.b"); try reflexivity.
    simpl. auto.
  - apply (H5 doc_a_1 doc_a_0 None false _ "a" (VNum 0) H1). simpl. auto.
Defined.

(* ===================================================================== *)
(** * [mapModifierToKey] *)
(* ===================================================================== *)

Section MapModifier.











End MapModifier.



(** X14.  A modifier that removes paths and has no [$set] cannot be
    mapped: with [$set] absent and at least one path in [$unset],
    [mapModifierToKey] throws a [TypeError]. *)
Theorem mapModifierToKey_needs_set modifier key k ks :
  truthy modifier = true ->
  is_nullish (field modifier "$set") = true ->
  Object_keys (or_else (field modifier "$unset") (VObj [])) = Ok (k :: ks) ->
  mapModifierToKey modifier key
  = Throw (TypeError "Cannot read properties of undefined").
Proof.
  intros Ht Hs Hu. unfold mapModifierToKey. rewrite Ht, Hu. simpl negb. cbv iota.
  destruct (field modifier "$set"); try discriminate; reflexivity.
Qed.

Lemma mapModifierToKey_needs_set_witness :
  mapModifierToKey (VObj [("$unset", VObj [("a", VBool true); ("b", VBool true)])]) "k"
  = Throw (TypeError "Cannot read properties of undefined").
Proof.
  apply (mapModifierToKey_needs_set
           (VObj [("$unset", VObj [("a", VBool true); ("b", VBool true)])])
           "k" "a" ["b"]); reflexivity.
Defined.

(* ===================================================================== *)
(** * [$addToSet] *)
(* ===================================================================== *)

(** X15.  [$addToSet] is idempotent on sequences: the item is in the
    sequence after one call, and a second call returns the sequence
    unchanged. *)
Theorem addToSet_idempotent elems src :
  wf src = true ->
  exists elems',
    dollar_addToSet (VArr elems) src = Ok (VArr elems')
    /\ contains elems' src = true
    /\ dollar_addToSet (VArr elems') src = Ok (VArr elems').
Proof.
  intros Hw. unfold dollar_addToSet.
  destruct (contains elems src) eqn:E; simpl.
  - exists elems. rewrite E. auto.
  - assert (Hc : contains (elems ++ [src]) src = true).
    { unfold contains. rewrite existsb_app. simpl.
      rewrite (isEqual_refl src Hw). now rewrite orb_true_r. }
    exists (elems ++ [src]). rewrite Hc. auto.
Qed.

Lemma addToSet_idempotent_witness :
  wf (VObj [("a", VNum 1)]) = true
  /\ exists elems',
       dollar_addToSet (VArr [VNum 1]) (VObj [("a", VNum 1)]) = Ok (VArr elems')
       /\ contains elems' (VObj [("a", VNum 1)]) = true
       /\ dollar_addToSet (VArr elems') (VObj [("a", VNum 1)]) = Ok (VArr elems').
Proof.
  split; [reflexivity|].
  apply (addToSet_idempotent [VNum 1] (VObj [("a", VNum 1)])). reflexivity.
Defined.

(* ===================================================================== *)
(** * [apply] and [update] *)
(* ===================================================================== *)



(** The calls of [update] after the model has been fetched. *)
Definition writes_of (doc : value) (options : UpdateOptions) : list event :=
  skipn (List.length (fst (fetch_model doc options))) (fst (update doc options)).

Section UpdateTrace.

Lemma fetch_model_reads doc options :
  (get options <> None /\ fst (fetch_model doc options) = [GetCalled])
  \/ (get options = None
      /\ exists c, collection options = Some c
         /\ truthy (field doc "_id") = true
         /\ fst (fetch_model doc options)
            = [FindOneCalled (VObj [("_id", field doc "_id")])])
  \/ (get options = None /\ fst (fetch_model doc options) = []).
Proof.
  unfold fetch_model. destruct (get options) as [m|].
  - left. split; [discriminate|reflexivity].
  - destruct (truthy (field doc "_id")); [|right; right; auto].
    destruct (collection options) as [c|]; [|right; right; auto].
    right. left. split; auto. exists c. auto.
Qed.

Lemma skipn_app_exact (A : Type) (l w : list A) :
  skipn (List.length l) (l ++ w) = w.
Proof. induction l; simpl; auto. Qed.

Lemma skipn_exact (A : Type) (l : list A) : skipn (List.length l) l = [].
Proof. induction l; simpl; auto. Qed.

(** The trace of [update] is the call that fetched the model followed by
    the writes. *)
Lemma update_trace doc options :
  fst (update doc options)
  = fst (fetch_model doc options) ++ writes_of doc options.
Proof.
  unfold writes_of, update.
  destruct (fetch_model doc options) as [reads model]. cbn [fst].
  destruct (negb (truthy model));
    [cbn [fst]; now rewrite skipn_exact, app_nil_r|].
  destruct (diffToModifier model doc (ignore options) false) as [diff|e];
    [|cbn [fst]; now rewrite skipn_exact, app_nil_r].
  destruct (truthy diff); [|cbn [fst]; now rewrite skipn_exact, app_nil_r].
  destruct (set options) as [setter|].
  - destruct (apply (clone model) diff) as [copy|e];
      [|cbn [fst]; now rewrite skipn_exact, app_nil_r].
    destruct (setter copy model) as [copy' model'].
    destruct (negb (isEqual copy' model')); cbn [fst];
      now rewrite skipn_app_exact.
  - destruct (collection options) as [c|]; cbn [fst].
    + now rewrite skipn_app_exact.
    + now rewrite skipn_exact, app_nil_r.
Qed.

Lemma update_writes doc options :
  (writes_of doc options = []
   \/ (exists copy, writes_of doc options = [SetCalled copy]
                    /\ set options <> None)
   \/ (exists query modifier,
         writes_of doc options = [CollectionUpdate query modifier]
         /\ set options = None /\ collection options <> None))
  /\ forall e,
       snd (update doc options) = Throw e ->
       e <> Error "Diff: not equal after update" ->
       writes_of doc options = [].
Proof.
  unfold writes_of, update.
  destruct (fetch_model doc options) as [reads model]. cbn [fst].
  destruct (negb (truthy model));
    [cbn [fst snd]; rewrite skipn_exact; split; auto|].
  destruct (diffToModifier model doc (ignore options) false) as [diff|e0];
    [|cbn [fst snd]; rewrite skipn_exact; split; auto].
  destruct (truthy diff); [|cbn [fst snd]; rewrite skipn_exact; split; auto].
  destruct (set options) as [setter|].
  - destruct (apply (clone model) diff) as [copy|e0];
      [|cbn [fst snd]; rewrite skipn_exact; split; auto].
    destruct (setter copy model) as [copy' model'].
    destruct (negb (isEqual copy' model')); cbn [fst snd];
      rewrite skipn_app_exact; split;
      try (right; left; exists copy; split; [reflexivity|discriminate]).
    + intros e [= <-] Hne. now elim Hne.
    + intros e H. discriminate H.
  - destruct (collection options) as [c|]; cbn [fst snd].
    + rewrite skipn_app_exact. split.
      * right. right. eexists. eexists. split; [reflexivity|].
        split; [reflexivity|discriminate].
      * intros e H. discriminate H.
    + rewrite skipn_exact. split; auto.
Qed.

End UpdateTrace.

(** X17.  The calls that [update] makes on its collaborators: first at
    most one read of the model, by [options.get()] when [get] is given,
    else by [collection.findOne({_id: doc._id})] when [doc] has an [_id]
    and a collection is given, never both; then at most one write, by
    [options.set] when a setter is given, else by [collection.update],
    never both.  An error other than the consistency error is raised
    before any write. *)
Theorem update_calls_one_collaborator doc options :
  exists reads writes,
    fst (update doc options) = reads ++ writes
    /\ ((get options <> None /\ reads = [GetCalled])
        \/ (get options = None
            /\ exists c, collection options = Some c
               /\ truthy (field doc "_id") = true
               /\ reads = [FindOneCalled (VObj [("_id", field doc "_id")])])
        \/ (get options = None /\ reads = []))
    /\ (writes = []
        \/ (exists copy, writes = [SetCalled copy] /\ set options <> None)
        \/ (exists query modifier,
              writes = [CollectionUpdate query modifier]
              /\ set options = None /\ collection options <> None))
    /\ (forall e,
          snd (update doc options) = Throw e ->
          e <> Error "Diff: not equal after update" ->
          writes = []).
Proof.
  exists (fst (fetch_model doc options)), (writes_of doc options).
  split; [apply update_trace|]. split; [apply fetch_model_reads|].
  apply update_writes.
Qed.

(** X18.  [update] of a document that is its own model: the model is
    read once, by [options.get()]; no write is made, by the setter or on
    the collection; a missing setter is not reported; and the result is
    [undefined]. *)
Theorem update_of_unchanged_document X options :
  get options = Some X ->
  truthy X = true -> wf X = true -> no_keyless X = true ->
  update X options = ([GetCalled], Ok VUndefined).
Proof.
  intros Hg Ht Hw Hk. unfold update, fetch_model. rewrite Hg, Ht.
  simpl negb. cbv iota.
  assert (Hd : diffToModifier X X (ignore options) false = Ok VUndefined).
  { apply diffToModifier_one_pass. now apply diff_pass_same. }
  rewrite Hd. reflexivity.
Qed.

Lemma update_of_unchanged_document_witness :
  update doc_nested
         {| get := Some doc_nested; set := None; collection := None;
            ignore := None |}
  = ([GetCalled], Ok VUndefined).
Proof.
  apply (update_of_unchanged_document doc_nested
           {| get := Some doc_nested; set := None; collection := None;
              ignore := None |}); reflexivity.
Defined.

(* ===================================================================== *)
(** * [forwardDiffToModifier] *)
(* ===================================================================== *)

Section ForwardDiff.

Lemma in_difference a b k : In k (difference a b) <-> In k a /\ ~ In k b.
Proof.
  unfold difference. rewrite filter_In, negb_true_iff.
  split; intros [H1 H2]; split; auto.
  - intros Hb.
    assert (existsb (String.eqb k) b = true); [|congruence].
    apply existsb_exists. exists k. split; auto. apply String.eqb_refl.
  - destruct (existsb (String.eqb k) b) eqn:E; auto.
    apply existsb_exists in E as [x [Hx Heq]].
    apply String.eqb_eq in Heq. now subst.
Qed.

Lemma in_union a b k : In k (union a b) <-> In k a \/ In k b.
Proof. unfold union. now rewrite nodup_In, in_app_iff. Qed.

Lemma filteredKeyPaths_same paths a b :
  (forall i, In i a <-> In i b) ->
  filteredKeyPaths paths a = filteredKeyPaths paths b.
Proof.
  intros H. unfold filteredKeyPaths. apply filter_ext. intros k. f_equal.
  destruct (existsb (fun i => keyPathContainsPath k i) a) eqn:Ea;
    destruct (existsb (fun i => keyPathContainsPath k i) b) eqn:Eb; auto.
  - apply existsb_exists in Ea as [i [Hi Hc]].
    assert (existsb (fun i => keyPathContainsPath k i) b = true); [|congruence].
    apply existsb_exists. exists i. split; auto. now apply H.
  - apply existsb_exists in Eb as [i [Hi Hc]].
    assert (existsb (fun i => keyPathContainsPath k i) a = true); [|congruence].
    apply existsb_exists. exists i. split; auto. now apply H.
Qed.

Lemma diff_pass_same_ignore prev doc a b :
  (forall i, In i a <-> In i b) ->
  diff_pass prev doc a = diff_pass prev doc b.
Proof.
  intros H. unfold diff_pass, forward_pass, backward_pass.
  now rewrite !(filteredKeyPaths_same _ a b H).
Qed.

End ForwardDiff.

(** A leaf of [prev] that [doc] has lost can still go with an ancestor:
    for [prev = {a: {b: 1}, c: 1}] and [doc = {c: 1}] the modifier is
    [{$unset: {a: true}}]. *)
Lemma forward_diff_removes_ancestor :
  forwardDiffToModifier (VObj [("a", VObj [("b", VNum 1)]); ("c", VNum 1)])
                        (VObj [("c", VNum 1)]) None
  = Ok (VObj [("$unset", VObj [("a", VBool true)])]).
Proof. reflexivity. Qed.

(** X19.  [forwardDiffToModifier] has no entry at or below a leaf keypath
    of [prev] that is no leaf keypath of [doc]: no path of [$set] or of
    [$unset] is that keypath or one of its descendants.  (An entry for an
    ancestor of the keypath is not excluded.) *)
Theorem forward_diff_skips_removed_leaves prev doc fieldsToIgnore m k :
  forwardDiffToModifier prev doc fieldsToIgnore = Ok m ->
  In k (keyPaths prev false) -> ~ In k (keyPaths doc false) ->
  forall p, In p (set_paths m ++ unset_paths m) ->
            p <> k /\ ~ is_descendant p k.
Proof.
  unfold forwardDiffToModifier. intros H Hp Hd p Hin.
  apply diffToModifier_one_pass in H. simpl or_empty in H.
  assert (Hc : keyPathContainsPath p k = false).
  { apply (diff_pass_paths _ _ _ _ p H Hin k).
    apply in_union. left. now apply in_difference. }
  unfold keyPathContainsPath in Hc. apply orb_false_iff in Hc as [H1 H2].
  split.
  - now apply String.eqb_neq.
  - intros Hdesc. apply keyPathContainsPath_descendant in Hdesc. congruence.
Qed.

Lemma forward_diff_skips_removed_leaves_witness :
  forwardDiffToModifier (VObj [("a", VNum 1); ("b", VNum 1)])
                        (VObj [("b", VNum 2)]) None
  = Ok (VObj [("$set", VObj [("b", VNum 2)])])
  /\ In "a" (keyPaths (VObj [("a", VNum 1); ("b", VNum 1)]) false)
  /\ ~ In "a" (keyPaths (VObj [("b", VNum 2)]) false)
  /\ In "b" (set_paths (VObj [("$set", VObj [("b", VNum 2)])])
             ++ unset_paths (VObj [("$set", VObj [("b", VNum 2)])]))
  /\ "b" <> "a" /\ ~ is_descendant "b" "a".
Proof.
  assert (H1 : In "a" (keyPaths (VObj [("a", VNum 1); ("b", VNum 1)]) false))
    by (simpl; auto).
  assert (H2 : ~ In "a" (keyPaths (VObj [("b", VNum 2)]) false))
    by (simpl; intros [H|[]]; discriminate).
  assert (H3 : In "b" (set_paths (VObj [("$set", VObj [("b", VNum 2)])])
                       ++ unset_paths (VObj [("$set", VObj [("b", VNum 2)])])))
    by (simpl; auto).
  split; [reflexivity|]. split; [exact H1|]. split; [exact H2|].
  split; [exact H3|].
  apply (forward_diff_skips_removed_leaves
           (VObj [("a", VNum 1); ("b", VNum 1)]) (VObj [("b", VNum 2)]) None
           (VObj [("$set", VObj [("b", VNum 2)])]) "a" eq_refl H1 H2 "b" H3).
Defined.

(** X20.  When every leaf keypath of [prev] is still a leaf keypath of
    [doc], [forwardDiffToModifier] is [diffToModifier]. *)
Theorem forward_diff_is_the_diff_when_no_leaf_is_removed prev doc fieldsToIgnore :
  incl (keyPaths prev false) (keyPaths doc false) ->
  forwardDiffToModifier prev doc fieldsToIgnore
  = diffToModifier prev doc fieldsToIgnore false.
Proof.
  intros Hincl. unfold forwardDiffToModifier, diffToModifier. simpl or_empty.
  rewrite (diff_pass_same_ignore prev doc _ (or_empty fieldsToIgnore));
    [reflexivity|].
  intros i. rewrite in_union, in_difference. split; [|auto].
  intros [[H1 H2]|H]; auto. elim H2. now apply Hincl.
Qed.

Lemma forward_diff_is_the_diff_when_no_leaf_is_removed_witness :
  incl (keyPaths doc_a_1 false) (keyPaths doc_a_false false)
  /\ forwardDiffToModifier doc_a_1 doc_a_false None
     = diffToModifier doc_a_1 doc_a_false None false.
Proof.
  assert (H : incl (keyPaths doc_a_1 false) (keyPaths doc_a_false false))
    by (simpl; intros x Hx; exact Hx).
  split; [exact H|].
  apply (forward_diff_is_the_diff_when_no_leaf_is_removed doc_a_1 doc_a_false None).
  exact H.
Defined.

(* ===================================================================== *)
(** * [modifierToObj] *)
(* ===================================================================== *)

Section ModifierToObj.

Lemma Object_keys_or_else v :
  exists keys, Object_keys (or_else v (VObj [])) = Ok keys.
Proof.
  unfold or_else. destruct v as [| |[|]|n|s|t|l|l]; simpl; eauto.
  - destruct (negb (n =? 0)%Z); simpl; eauto.
  - destruct (negb (s =? "")); simpl; eauto.
Qed.

Lemma fold_set_is_mapping (f : string -> value) keys : forall props,
  is_mapping (fold_left (fun obj k => setValueForKeyPath (f k) k obj)
                        keys (VObj props)) = true.
Proof.
  induction keys as [|k keys IH]; intros props; simpl; auto.
  unfold setValueForKeyPath at 2.
  pose proof (is_mapping_set_segs (f k) (split k) props) as H.
  destruct (set_segs (f k) (split k) (VObj props)); try discriminate.
  apply IH.
Qed.

Lemma valueForKeyPath_nothing k :
  valueForKeyPath k VUndefined = VUndefined
  /\ valueForKeyPath k (VObj []) = VUndefined.
Proof.
  unfold valueForKeyPath. pose proof (split_nonempty k).
  destruct (split k); [contradiction|]. split; reflexivity.
Qed.

Lemma fold_left_pointwise {X Y : Type} (f g : X -> Y -> X) l :
  (forall a b, f a b = g a b) ->
  forall a, fold_left f l a = fold_left g l a.
Proof.
  intros H. induction l as [|y l IH]; intros a; simpl; auto.
  now rewrite H, IH.
Qed.

Lemma forward_pass_from_nothing doc ign :
  forward_pass VUndefined doc ign = forward_pass (VObj []) doc ign.
Proof.
  unfold forward_pass. apply fold_left_pointwise. intros acc k.
  now destruct (valueForKeyPath_nothing k) as [-> ->].
Qed.

Lemma assign_nonempty k v props : assign k v props <> [].
Proof.
  destruct props as [|[k' v'] rest]; simpl; [discriminate|].
  destruct (k =? k'); discriminate.
Qed.

Lemma pruned_assign k c props :
  pruned (VObj props) = true -> is_empty_container c = false ->
  pruned c = true -> pruned (VObj (assign k c props)) = true.
Proof.
  intros Hp Hc Hpc. induction props as [|[k' v'] rest IH]; simpl in *.
  - now rewrite Hc, Hpc.
  - apply andb_true_iff in Hp as [H1 H2].
    destruct (k =? k'); simpl.
    + now rewrite Hc, Hpc, H2.
    + rewrite H1. now apply IH.
Qed.

Lemma set_segs_nonempty val segs props :
  segs <> [] -> val <> VUndefined ->
  exists e l, set_segs val segs (VObj props) = VObj (e :: l).
Proof.
  intros Hs Hv. destruct segs as [|seg rest]; [contradiction|].
  assert (Hex : forall c, exists e l, put_child seg c (VObj props) = VObj (e :: l)).
  { intros c. simpl. pose proof (assign_nonempty seg c props).
    destruct (assign seg c props) as [|e l]; [contradiction|]. eauto. }
  destruct rest as [|seg' rest].
  - simpl set_segs. destruct val; try apply Hex. contradiction.
  - rewrite set_segs_cons by discriminate. apply Hex.
Qed.

Lemma pruned_lookup props k c :
  pruned (VObj props) = true -> lookup k props = Some c -> pruned c = true.
Proof.
  intros Hp Hl. apply lookup_In in Hl.
  now destruct (pruned_child props k c Hp Hl).
Qed.

Lemma pruned_set_segs val segs : forall props,
  segs <> [] -> val <> VUndefined ->
  is_empty_container val = false -> pruned val = true ->
  pruned (VObj props) = true -> clear_of_arrays segs (VObj props) = true ->
  pruned (set_segs val segs (VObj props)) = true.
Proof.
  induction segs as [|seg rest IH]; intros props Hs Hv He Hpv Hp Ha;
    [contradiction|].
  destruct rest as [|seg' rest].
  - simpl set_segs.
    assert (put_child seg val (VObj props) = VObj (assign seg val props))
      by reflexivity.
    destruct val; try contradiction; simpl put_child;
      now apply pruned_assign.
  - rewrite set_segs_cons by discriminate.
    set (next := match child seg (VObj props) with
                 | Some c => if is_container c then c else VObj []
                 | None => VObj []
                 end).
    assert (Hnext : exists ps, next = VObj ps /\ pruned (VObj ps) = true
                               /\ clear_of_arrays (seg' :: rest) (VObj ps) = true).
    { unfold next. simpl child. cbn [clear_of_arrays] in Ha.
      destruct (lookup seg props) as [c|] eqn:El;
        [|exists []; repeat split; apply clear_empty_mapping].
      destruct c as [| | | | | |elems|ps]; simpl is_container; cbv iota;
        try (exists []; repeat split; apply clear_empty_mapping).
      - simpl in Ha. discriminate Ha.
      - exists ps. split; [reflexivity|]. split; auto.
        exact (pruned_lookup props seg (VObj ps) Hp El). }
    destruct Hnext as [ps [-> [Hps Has]]].
    cbn [put_child].
    destruct (set_segs_nonempty val (seg' :: rest) ps) as [e [l Heq]];
      [discriminate|auto|].
    apply pruned_assign; auto.
    + now rewrite Heq.
    + apply IH; auto. discriminate.
Qed.

Lemma fold_set_entry_pruned P entries : forall D,
  safe P D -> pruned D = true ->
  (forall e, In e entries -> settable (snd e) = true /\ entry_ok P e) ->
  safe P (fold_left set_entry entries D)
  /\ pruned (fold_left set_entry entries D) = true.
Proof.
  induction entries as [|[k v] rest IH]; intros D HD Hp Hall; simpl; auto.
  destruct (Hall (k, v) (or_introl eq_refl)) as [Hset Hok]. simpl in Hset.
  destruct (settable_leaf v Hset (settable_not_mapping v Hset))
    as [Hw [Hu [Hc He]]].
  apply IH.
  - exact (safe_set_entry P D (k, v) HD Hok).
  - rewrite Hc. destruct HD as [HDm [HDw HDa]]. destruct Hok as [Hin _].
    destruct D; try discriminate.
    apply pruned_set_segs; auto using split_nonempty.
    destruct v; auto; discriminate.
  - intros e He'. apply Hall. now right.
Qed.

(** The first loop of [modifierToObj] over the entries of a [$set]
    mapping with distinct paths and values that [$set] writes. *)
Lemma fold_own_props set l : forall D,
  unique_keys (map fst set) = true -> incl l set ->
  (forall e, In e set -> settable (snd e) = true) ->
  fold_left (fun obj k => setValueForKeyPath (own_prop (VObj set) k) k obj)
            (map fst l) D
  = fold_left set_entry l D.
Proof.
  induction l as [|[k v] l IH]; intros D Hu Hincl Hall; simpl; auto.
  assert (Hin : In (k, v) set) by (apply Hincl; now left).
  unfold own_prop at 2. simpl own_properties.
  rewrite (unique_keys_lookup set k v Hu Hin).
  pose proof (Hall (k, v) Hin) as Hset. simpl in Hset.
  destruct (settable_leaf v Hset (settable_not_mapping v Hset))
    as [_ [_ [-> _]]].
  apply IH; auto. intros e He. apply Hincl. now right.
Qed.

(** The modifier of [objToModifier] on a plain document: its entries
    write the leaves of the document and nothing else. *)
Lemma no_marks_without_keys D k :
  In k (map fst (@nil (string * value))) <->
  In k (keyPaths (VObj []) true)
  /\ shouldUnset (valueForKeyPath k D) (valueForKeyPath k (VObj [])) = Ok true.
Proof. simpl. tauto. Qed.

Lemma no_sequence_entered_empty D : no_sequence_entered (VObj []) D = true.
Proof.
  unfold no_sequence_entered. simpl. apply forallb_forall.
  intros kp _. apply clear_empty_mapping.
Qed.

Lemma insertion_leaves D p :
  plain_document D = true -> p <> [] ->
  leaf_rel (after_sets (forward_pass VUndefined D []) p None) (leaf_at p D).
Proof.
  intros HD Hp. rewrite forward_pass_from_nothing.
  pose proof (core_leaf (VObj []) D eq_refl HD eq_refl
                (no_sequence_entered_empty D) []
                (no_marks_without_keys D) p Hp) as Hcore.
  rewrite leaf_at_empty_mapping in Hcore. exact Hcore.
Qed.

Lemma insertion_nonempty D :
  plain_document D = true -> D <> VObj [] ->
  forward_pass VUndefined D [] <> [].
Proof.
  intros HD Hne.
  destruct (plain_document_parts D HD) as [Hm [Hplain Hkeys]].
  destruct (pruned_has_leaf D (plain_pruned D Hplain) Hne) as [p [x Hx]].
  assert (Hp : p <> []).
  { intros ->. simpl in Hx. now rewrite Hm in Hx. }
  pose proof (insertion_leaves D p HD Hp) as Hrel.
  intros E. rewrite E, Hx in Hrel. exact Hrel.
Qed.

(** The entries of an insertion write along the leaf paths of the
    document, none of which walks into a value written by another. *)
Lemma insertion_entries_ok D e :
  plain_document D = true ->
  In e (forward_pass VUndefined D []) ->
  settable (snd e) = true
  /\ entry_ok (map (fun e => split (fst e)) (forward_pass VUndefined D [])) e.
Proof.
  intros HD. rewrite forward_pass_from_nothing. intros He.
  pose proof (set_settable (VObj []) D HD e He) as Hset.
  split; [exact Hset|].
  destruct (settable_leaf _ Hset (settable_not_mapping _ Hset)) as [Hw _].
  split; [|split; [exact Hw|]].
  - apply in_map_iff. now exists e.
  - intros q Hq Hpre. apply in_map_iff in Hq as [[k' v'] [<- He']].
    destruct e as [k v].
    apply (set_entry_spec (VObj []) D HD) in He as [p [_ [Hs [_ [Hl _]]]]].
    apply (set_entry_spec (VObj []) D HD) in He' as [p' [_ [Hs' [_ [Hl' _]]]]].
    cbn [fst snd] in *. subst p p'.
    assert (E : split k = split k').
    { apply (leaf_paths_incomparable D _ _ v v'); auto.
      unfold comparable. now rewrite Hpre. }
    rewrite <- E. now rewrite skipn_all.
Qed.

End ModifierToObj.

(** X21.  [modifierToObj] never throws: for a falsy modifier it returns
    [undefined], for any other value a mapping. *)
Theorem modifierToObj_returns modifier :
  exists r,
    modifierToObj modifier = Ok r
    /\ (truthy modifier = false -> r = VUndefined)
    /\ (truthy modifier = true -> is_mapping r = true).
Proof.
  unfold modifierToObj. destruct (truthy modifier).
  - destruct (Object_keys_or_else (field modifier "$set")) as [sk ->].
    destruct (Object_keys_or_else (field modifier "$unset")) as [uk ->].
    cbn [bind]. eexists. split; [reflexivity|]. split; [discriminate|].
    intros _.
    pose proof (fold_set_is_mapping
                  (fun k => own_prop (field modifier "$set") k) sk []) as H.
    destruct (fold_left _ sk (VObj [])) as [| | | | | | |props];
      try discriminate.
    apply (fold_set_is_mapping (fun _ => VUndefined) uk props).
  - exists VUndefined. split; [reflexivity|]. split; [auto|discriminate].
Qed.

(** X22.  Round trip of a document through its modifier: for a non-empty
    document built from non-empty mappings with unique, non-empty,
    dot-free keys (not [$set] or [$unset] at top level) and whose leaves
    are numbers, non-empty strings, [true], dates or non-empty sequences,
    [objToModifier] returns a modifier from which [modifierToObj] rebuilds a document
    deeply equal to the original. *)
Theorem modifierToObj_of_objToModifier D :
  plain_document D = true -> D <> VObj [] ->
  exists m r,
    objToModifier D = Ok m
    /\ modifierToObj m = Ok r
    /\ isEqual r D = true.
Proof.
  intros HD Hne.
  destruct (plain_document_parts D HD) as [Hm [Hplain Hkeys]].
  assert (Ht : truthy D = true) by (destruct D; auto; discriminate).
  pose proof (fun e => insertion_entries_ok D e HD) as Hentries.
  pose proof (insertion_leaves D) as Hleaf.
  pose proof (insertion_nonempty D HD Hne) as Hset.
  pose proof (objToModifier_eq D Ht) as Hmod.
  set (set := forward_pass VUndefined D []) in *.
  assert (Hunique : unique_keys (map fst set) = true)
    by apply forward_pass_unique.
  exists (VObj [("$set", VObj set)]), (fold_left set_entry set (VObj [])).
  split; [|split].
  - rewrite Hmod. destruct set; [contradiction|reflexivity].
  - unfold modifierToObj. simpl. f_equal.
    apply fold_own_props; auto; [apply incl_refl|].
    intros e He. now apply Hentries.
  - set (P := map (fun e => split (fst e)) set) in *.
    assert (Hsafe0 : safe P (VObj [])).
    { repeat split. intros q _. apply clear_empty_mapping. }
    destruct (fold_set_entry_pruned P set (VObj []) Hsafe0 eq_refl Hentries)
      as [[Hrm [Hrw Hra]] Hrp].
    destruct (leaf_at_fold_set P set (VObj []) Hsafe0) as [_ Hfold].
    { intros e He. now apply Hentries. }
    apply leaf_extensionality; auto using plain_wf, plain_pruned.
    intros [|x p].
    + simpl. now rewrite Hrm, Hm.
    + rewrite Hfold. simpl leaf_at at 1. apply Hleaf; auto. discriminate.
Qed.

Lemma modifierToObj_of_objToModifier_witness :
  plain_document doc_a_xy = true /\ doc_a_xy <> VObj []
  /\ exists m r,
       objToModifier doc_a_xy = Ok m
       /\ modifierToObj m = Ok r
       /\ isEqual r doc_a_xy = true.
Proof.
  assert (H : doc_a_xy <> VObj []) by discriminate.
  split; [reflexivity|]. split; [exact H|].
  apply (modifierToObj_of_objToModifier doc_a_xy); [reflexivity|exact H].
Defined.

(* ===================================================================== *)
(** * [apply] with a plain document as source *)
(* ===================================================================== *)

Section ApplyDocument.

Lemma plain_document_fields D :
  plain_document D = true ->
  field D "$set" = VUndefined /\ field D "$unset" = VUndefined.
Proof.
  intros HD. destruct (plain_document_parts D HD) as [Hm [Hplain Hkeys]].
  destruct D as [| | | | | | |props]; try discriminate.
  assert (H : forall k, reserved k = true -> lookup k props = None).
  { intros k Hk. destruct (lookup k props) as [c|] eqn:E; auto.
    assert (Hn : node_at [k] (VObj props) = Some c) by (simpl; now rewrite E).
    pose proof (plain_not_reserved _ Hplain Hm Hkeys [k] c
                  ltac:(discriminate) Hn) as Hr.
    simpl in Hr. congruence. }
  unfold field. now rewrite (H "$set" eq_refl), (H "$unset" eq_refl).
Qed.

End ApplyDocument.

(** X23.  The other branch of [apply]: a source that is a plain document
    (non-empty mappings with unique, non-empty, dot-free keys, not [$set]
    or [$unset] at top level; numbers, non-empty strings, [true], dates or
    non-empty sequences as leaves) is turned into a modifier and applied; on the empty
    document this rebuilds the source. *)
Theorem apply_document_to_empty D :
  plain_document D = true ->
  exists r, apply (VObj []) D = Ok r /\ isEqual r D = true.
Proof.
  intros HD.
  destruct (plain_document_parts D HD) as [Hm [Hplain Hkeys]].
  destruct (plain_document_fields D HD) as [Hfs Hfu].
  assert (Ht : truthy D = true) by (destruct D; auto; discriminate).
  unfold apply. rewrite Ht, Hfs, Hfu. simpl negb. simpl orb. cbv iota.
  rewrite (objToModifier_eq D Ht). cbn [bind].
  rewrite forward_pass_from_nothing.
  set (set := forward_pass (VObj []) D []).
  destruct set as [|e l] eqn:Eset.
  - assert (HDe : D = VObj []).
    { destruct D as [| | | | | | |[|kv props]]; try discriminate; auto.
      exfalso. apply (insertion_nonempty _ HD); [discriminate|].
      now rewrite forward_pass_from_nothing. }
    subst D. eexists. split; reflexivity.
  - rewrite <- Eset.
    destruct (round_trip_of_passes (VObj []) D eq_refl HD eq_refl
                (no_sequence_entered_empty D) [] (no_marks_without_keys D)
                eq_refl (fun e F => False_ind _ F))
      as [r [Happ Heq]].
    fold set in Happ.
    assert (Hmod : modifier_of set (subsume []) = VObj [("$set", VObj set)]).
    { unfold set in *. rewrite Eset. reflexivity. }
    rewrite Hmod in Happ. unfold apply in Happ. simpl in Happ.
    exists r. split; [|exact Heq].
    rewrite <- Happ. reflexivity.
Qed.

Lemma apply_document_to_empty_witness :
  plain_document doc_a_xy = true
  /\ exists r, apply (VObj []) doc_a_xy = Ok r /\ isEqual r doc_a_xy = true.
Proof.
  split; [reflexivity|].
  apply (apply_document_to_empty doc_a_xy). reflexivity.
Defined.

(* ===================================================================== *)
(** * [diffToModifier] with the flag [pruneEmptyObjects] *)
(* ===================================================================== *)

Section PruneFlag.

Lemma diff_pass_of_backward prev doc ign u :
  truthy prev = true -> backward_pass prev doc ign = Ok u ->
  diff_pass prev doc ign
  = Ok (modifier_of (if truthy doc then forward_pass prev doc ign else [])
                    (subsume u)).
Proof.
  intros Hp Hu. unfold diff_pass. rewrite Hp, Hu. cbn [bind].
  unfold modifier_of, modifier_fields.
  match goal with |- (if negb (List.length ?f =? 0)%nat then _ else _) = _ =>
    destruct (negb (List.length f =? 0)%nat) end; reflexivity.
Qed.

Lemma modifier_of_child s u k :
  reserved k = false -> child k (modifier_of s u) = None.
Proof.
  intros Hk. unfold reserved in Hk. apply orb_false_iff in Hk as [H1 H2].
  destruct (modifier_of_cases s u)
    as [[_ [_ ->]]|[[_ [_ ->]]|[[_ [_ ->]]|[_ [_ ->]]]]]; simpl;
    rewrite ?H1, ?H2; reflexivity.
Qed.

Lemma top_level_key props k :
  plain_document (VObj props) = true -> In k (map fst props) ->
  split k = [k] /\ reserved k = false /\ In k (keyPaths (VObj props) true).
Proof.
  intros HD Hin.
  destruct (plain_document_parts _ HD) as [Hm [Hplain Hkeys]].
  apply in_map_iff in Hin as [[k' c] [Hk Hin]]. simpl in Hk. subst k'.
  destruct (proj1 (plain_mapping props) Hplain) as [Hu Hall].
  destruct (Hall k c Hin) as [Hseg _].
  unfold segment_like in Hseg. apply andb_true_iff in Hseg as [_ Hdot].
  assert (Hs : split k = [k]) by now apply split_dot_free.
  split; [exact Hs|]. split.
  - simpl in Hkeys. rewrite forallb_forall in Hkeys.
    specialize (Hkeys (k, c) Hin). simpl in Hkeys.
    now apply negb_true_iff in Hkeys.
  - apply (plain_keyPaths_all _ Hplain). exists [k], c.
    repeat split; auto; try discriminate. simpl.
    now rewrite (unique_keys_lookup props k c Hu Hin).
Qed.

End PruneFlag.

(** X24.  With the flag [pruneEmptyObjects], the delta of the first pass
    takes the place of [doc] in a second pass (line 109).  For a plain
    previous document and any change, the modifier returned then removes
    every top-level key of [prev]. *)
Theorem prune_flag_removes_top_level_keys prev doc delta :
  plain_document prev = true ->
  diffToModifier prev doc None false = Ok delta -> truthy delta = true ->
  exists m,
    diffToModifier prev doc None true = Ok m
    /\ forall k, In k (map fst (entries prev)) -> In k (unset_paths m).
Proof.
  intros HA Hd Ht.
  destruct (plain_document_parts _ HA) as [Hm [Hplain Hkeys]].
  destruct prev as [| | | | | | |props]; try discriminate.
  apply diffToModifier_one_pass in Hd. simpl or_empty in Hd.
  destruct (diff_pass_parts _ _ _ _ Hd) as [u0 [_ Hshape]].
  destruct (backward_pass_returns (VObj props) delta HA)
    as [u [Hu [Hmarks _]]].
  pose proof (diff_pass_of_backward (VObj props) delta [] u eq_refl Hu) as Hsecond.
  rewrite Ht in Hsecond.
  set (nd := modifier_of (forward_pass (VObj props) delta []) (subsume u)) in *.
  exists (or_else nd delta). split.
  - unfold diffToModifier. simpl or_empty. rewrite Hd. cbn [bind].
    rewrite Ht, Hsecond. reflexivity.
  - intros k Hk. simpl in Hk.
    destruct (top_level_key props k HA Hk) as [Hs [Hr Hin]].
    assert (Hsub : In k (map fst (subsume u))).
    { apply subsume_keys. split.
      - apply Hmarks. split; [exact Hin|].
        destruct (backward_value _ HA k Hin) as [q [x [_ [_ [_ [-> Hx]]]]]].
        replace (valueForKeyPath k delta) with VUndefined;
          [now apply shouldUnset_absent|].
        unfold valueForKeyPath. rewrite Hs. simpl get_segs.
        rewrite Hshape. now rewrite modifier_of_child.
      - intros b _. unfold _keyPathContainsPath. rewrite Hs.
        pose proof (split_nonempty b).
        destruct (split b); [contradiction|]. reflexivity. }
    assert (Hnd : truthy nd = true).
    { unfold nd.
      destruct (modifier_of_cases (forward_pass (VObj props) delta []) (subsume u))
        as [[_ [E _]]|[[_ [E _]]|[[_ [_ ->]]|[_ [_ ->]]]]];
        try reflexivity; rewrite E in Hsub; destruct Hsub. }
    unfold or_else. rewrite Hnd. unfold unset_paths, nd.
    now rewrite entries_unset_modifier_of.
Qed.

Lemma prune_flag_removes_top_level_keys_witness :
  plain_document (VObj [("a", VNum 1); ("b", VNum 2)]) = true
  /\ diffToModifier (VObj [("a", VNum 1); ("b", VNum 2)])
                    (VObj [("a", VNum 1); ("b", VNum 3)]) None false
     = Ok (VObj [("$set", VObj [("b", VNum 3)])])
  /\ exists m,
       diffToModifier (VObj [("a", VNum 1); ("b", VNum 2)])
                      (VObj [("a", VNum 1); ("b", VNum 3)]) None true = Ok m
       /\ forall k, In k (map fst (entries (VObj [("a", VNum 1); ("b", VNum 2)]))) ->
                    In k (unset_paths m).
Proof.
  split; [reflexivity|]. split; [reflexivity|].
  apply (prune_flag_removes_top_level_keys
           (VObj [("a", VNum 1); ("b", VNum 2)])
           (VObj [("a", VNum 1); ("b", VNum 3)])
           (VObj [("$set", VObj [("b", VNum 3)])])); reflexivity.
Defined.

